(** * Dependency-resolution core: lockfile, pattern registry, resolver

    A shallow embedding of the JavaScript sources
      - [src/util/normalize-pattern.js]
      - [src/package-constraint-resolver.js]
      - [src/package-reference.js]
      - [src/lockfile/index.js]
      - [src/package-resolver.js]
      - [config.js] ([resolveWorkspaces], [getWorkspaces], [sortObject])
      - [workspace-layout.js]
    followed by the properties proved about them.

    Conventions.  JavaScript strings are [string], read as the UTF-8
    encoding of the JavaScript string; objects used as
    dictionaries are [gmap string _] (own properties of a prototype-less
    map); arrays are lists; [null]/[undefined] is [None]; objects that the
    code mutates through several aliases live in an explicit store and are
    named by their address. *)

From Stdlib Require Import ZArith Ascii.
From stdpp Require Import gmap strings list fin_maps sorting.

Open Scope string_scope.

(* ===================================================================== *)
(** * Part I.  The embedding                                              *)
(* ===================================================================== *)

(** ** JavaScript primitives used by the sources *)

Module Js.

(** Truthiness of a string: only the empty string is falsy. *)
Definition truthy (s : string) : bool :=
  match s with
  | EmptyString => false
  | String _ _ => true
  end.

(** Truthiness of a possibly-absent string ([?string]). *)
Definition truthy_opt (o : option string) : bool :=
  match o with
  | Some s => truthy s
  | None => false
  end.

(** [s.split(sep)] for a one-character separator: never empty. *)
Fixpoint split (sep : ascii) (s : string) : list string :=
  match s with
  | EmptyString => [EmptyString]
  | String c rest =>
      if Ascii.eqb c sep then EmptyString :: split sep rest
      else match split sep rest with
           | [] => [String c EmptyString]
           | part :: parts => String c part :: parts
           end
  end.

(** [parts.join(sep)]. *)
Fixpoint join (sep : string) (parts : list string) : string :=
  match parts with
  | [] => EmptyString
  | [part] => part
  | part :: rest => part ++ sep ++ join sep rest
  end.

(** [s.indexOf(c) !== -1] for a one-character needle. *)
Fixpoint has_char (c : ascii) (s : string) : bool :=
  match s with
  | EmptyString => false
  | String d rest => Ascii.eqb d c || has_char c rest
  end.

(** [arr.indexOf(x)]: [None] stands for [-1]. *)
Fixpoint indexOf (x : string) (arr : list string) : option nat :=
  match arr with
  | [] => None
  | y :: rest =>
      if String.eqb y x then Some 0
      else option_map S (indexOf x rest)
  end.

(** [arr.splice(start, 1)] for [start >= 0]: drop the element at [start]
    (nothing when out of range). *)
Definition remove_at (start : nat) (arr : list string) : list string :=
  take start arr ++ drop (S start) arr.

(** [arr.splice(arr.indexOf(x), 1)].  A negative start counts from the
    end, so when [x] is missing ([indexOf = -1]) the LAST element goes. *)
Definition splice_indexOf (x : string) (arr : list string) : list string :=
  match indexOf x arr with
  | Some i => remove_at i arr
  | None => removelast arr
  end.

(** [arr[arr.length - 1]]. *)
Definition last_elem {A} (arr : list A) : option A := last arr.

(** The property name that an object created by [{}] never takes as an
    own property: an assignment to it calls the setter inherited from
    [Object.prototype], which takes an object (or [null]) as the new
    prototype and ignores every other value. *)
Definition proto_key : string := "__proto__".

(** The own property names of [Object.prototype]; an object created by
    [{}] inherits them, so [key in object] holds of each. *)
Definition object_prototype_members : list string :=
  ["constructor"; "__defineGetter__"; "__defineSetter__"; "hasOwnProperty";
   "__lookupGetter__"; "__lookupSetter__"; "isPrototypeOf";
   "propertyIsEnumerable"; "toString"; "valueOf"; "__proto__";
   "toLocaleString"].

(** JavaScript compares strings by UTF-16 code units.  On UTF-8 that is
    the order of the bytes, but for one thing: a character beyond the
    basic plane (lead bytes [0xF0] to [0xF4]; in UTF-16 a pair of
    surrogates, [0xD800] to [0xDFFF]) comes before the characters from
    [U+E000] to [U+FFFF] (lead bytes [0xEE] and [0xEF]).  [utf16_rank]
    moves these lead bytes accordingly and leaves every other byte. *)
Definition utf16_rank (c : ascii) : ascii :=
  let n := N_of_ascii c in
  if (n <? 238)%N then c
  else if (n <? 240)%N then ascii_of_N (n + 5)
  else if (n <? 245)%N then ascii_of_N (n - 2)
  else c.

Fixpoint utf16_key (s : string) : string :=
  match s with
  | EmptyString => EmptyString
  | String c rest => String (utf16_rank c) (utf16_key rest)
  end.

End Js.

(** ** util/normalize-pattern.js *)

Module NormalizePattern.

Record t := mk {
  name : string;
  range : string;
  hasVersion : bool
}.

Definition normalizePattern (pattern : string) : t :=
  let hasVersion := false in
  let range := "latest" in
  let name := pattern in
  (* if we're a scope then remove the @ and add it back later *)
  let '(isScoped, name) :=
    match name with
    | String "@"%char rest => (true, rest)
    | _ => (false, name)
    end in
  (* take first part as the name *)
  let parts := Js.split "@"%char name in
  let '(name, range, hasVersion) :=
    if Nat.ltb 1 (List.length parts) then
      match parts with
      | first :: rest =>            (* name = parts.shift() *)
          let range := Js.join "@" rest in
          if Js.truthy range then (first, range, true)
          else (first, "*", hasVersion)
      | [] => (name, range, hasVersion)
      end
    else (name, range, hasVersion) in
  (* add back @ scope suffix *)
  let name := if isScoped : bool then "@" ++ name else name in
  mk name range hasVersion.

End NormalizePattern.

(** ** Errors thrown by the sources, and the monad that threads them *)

Inductive Error :=
  | InvariantViolation (msg : string)   (* [invariant(cond, msg)] failed *)
  | TypeError (msg : string)            (* property access on [undefined] *)
  | RangeError (msg : string)           (* call stack exhausted *)
  | MessageError (msg : string).        (* user-facing error of the CLI *)

Inductive Result (A : Type) :=
  | Ok (a : A)
  | Throw (e : Error).
Arguments Ok {A} a.
Arguments Throw {A} e.

#[global] Instance Result_ret : MRet Result := fun A a => Ok a.

#[global] Instance Result_bind : MBind Result := fun A B k r =>
  match r with
  | Ok a => k a
  | Throw e => Throw e
  end.

(** [for (const x of xs) body(x)] over a state, stopping at the first throw. *)
Fixpoint for_of {A S} (xs : list A) (body : A -> S -> Result S) (s : S)
  : Result S :=
  match xs with
  | [] => Ok s
  | x :: rest => s' ← body x s; for_of rest body s'
  end.

(** ** The [semver] package and the exotic-resolver table

    [semver] is a third-party package and [getExoticResolver] belongs to
    resolvers/index.js, another module; the code is modelled over their
    interface.  Where the sources call [semver.satisfies] with two
    arguments, the loose flag is [undefined], that is [false]. *)

Module Semver.

Record lib := {
  (** [semver.valid(v)]: the normalised version, or [null]. *)
  valid : string -> option string;
  (** [semver.validRange(r)]: the normalised range, or [null]. *)
  validRange : string -> option string;
  (** [semver.satisfies(version, range, loose)]. *)
  satisfies : string -> string -> bool -> bool;
  (** [semver.maxSatisfying(versions, range, loose)]. *)
  maxSatisfying : list string -> string -> bool -> option string;
  (** [semver.rcompare(a, b)]: negative when [a] is the higher version. *)
  rcompare : string -> string -> Z
}.

(** [a] is at least as high as [b]. *)
Definition ge (sv : lib) (a b : string) : Prop := (rcompare sv a b <= 0)%Z.

(** The package's documented contract for [maxSatisfying]: "the highest
    version in the list that satisfies the range, or null if none of
    them do". *)
Definition maxSatisfying_contract (sv : lib) : Prop :=
  forall versions range loose,
    match maxSatisfying sv versions range loose with
    | None => forall v, v ∈ versions -> satisfies sv v range loose = false
    | Some v =>
        v ∈ versions /\ satisfies sv v range loose = true /\
        forall w, w ∈ versions -> satisfies sv w range loose = true ->
                  ge sv v w
    end.

(** [rcompare] is a consistent comparator (a total preorder), which is
    what [Array.prototype.sort] requires of its argument. *)
Record rcompare_consistent (sv : lib) : Prop := {
  rcompare_total : forall a b, ge sv a b \/ ge sv b a;
  rcompare_trans : forall a b c, ge sv a b -> ge sv b c -> ge sv a c
}.

End Semver.

(** ** package-constraint-resolver.js *)

Module PackageConstraintResolver.

Record Config := { looseSemver : bool }.

Record t := { config : Config }.

Definition reduce (sv : Semver.lib) (this : t)
    (versions : list string) (range : string) : option string :=
  if String.eqb range "latest" then
    (* Usually versions are already ordered and the last one is the latest *)
    Js.last_elem versions
  else
    Semver.maxSatisfying sv versions range (looseSemver (config this)).

End PackageConstraintResolver.

(** ** types.js *)

Module Types.

Abbreviation Dependencies := (gmap string string).

(** [PackageRemote] *)
Record PackageRemote := {
  type : string;
  registry : string;
  reference : string;
  resolved : option string;
  hash : option string;
  integrity : option string
}.

(** [Manifest], restricted to the attributes the resolver and the
    lockfile read.  [m_id] is the identity of the manifest object: the
    sources compare manifests with [Set.has] and never mutate them in the
    operations modelled here.  [_reference] is the address of the
    [PackageReference] object in the store. *)
Record Manifest := {
  m_id : nat;
  name : string;
  version : string;
  _uid : string;
  _reference : option nat;
  _remote : option PackageRemote;
  dependencies : option Dependencies;
  optionalDependencies : option Dependencies;
  peerDependencies : option Dependencies;
  prebuiltVariants : option (gmap string string);
  fresh : bool
}.

(** [DependencyRequestPattern] *)
Record DependencyRequestPattern := {
  pattern : string;
  req_registry : string;
  optional : bool;
  parentNames : option (list string)
}.

End Types.

(** ** package-reference.js: the fields and the methods that touch only
    the reference itself *)

Module PackageReference.

Record t := {
  name : string;
  version : string;
  uid : string;
  registry : string;
  remote : Types.PackageRemote;
  dependencies : list string;
  permissions : gmap string bool;
  patterns : list string;
  optional : option bool;          (* [?boolean]: null until first set *)
  level : option nat;              (* [None] is [Infinity] *)
  ignore : bool;
  incompatible : bool;
  fresh : bool;
  locations : list string
}.

Definition set_optional (o : option bool) (this : t) : t :=
  {| name := name this; version := version this; uid := uid this;
     registry := registry this; remote := remote this;
     dependencies := dependencies this; permissions := permissions this;
     patterns := patterns this; optional := o; level := level this;
     ignore := ignore this; incompatible := incompatible this;
     fresh := fresh this; locations := locations this |}.

Definition set_patterns (ps : list string) (this : t) : t :=
  {| name := name this; version := version this; uid := uid this;
     registry := registry this; remote := remote this;
     dependencies := dependencies this; permissions := permissions this;
     patterns := ps; optional := optional this; level := level this;
     ignore := ignore this; incompatible := incompatible this;
     fresh := fresh this; locations := locations this |}.

Definition set_permissions (perms : gmap string bool) (this : t) : t :=
  {| name := name this; version := version this; uid := uid this;
     registry := registry this; remote := remote this;
     dependencies := dependencies this; permissions := perms;
     patterns := patterns this; optional := optional this;
     level := level this; ignore := ignore this;
     incompatible := incompatible this; fresh := fresh this;
     locations := locations this |}.

(** [this.permissions] is created by [{}]; the map holds its own
    properties.  [this.permissions[key] = val] with the key [__proto__]
    calls the prototype setter, which ignores a boolean: nothing
    changes. *)
Definition setPermission (key : string) (val : bool) (this : t) : t :=
  if String.eqb key Js.proto_key then this
  else set_permissions (<[key := val]> (permissions this)) this.

(** What [hasPermission] returns: a boolean, or, for a key that the
    object inherits and does not own, the inherited member of
    [Object.prototype]. *)
Inductive Permission :=
  | Granted (val : bool)
  | Inherited (member : string).

Definition hasPermission (key : string) (this : t) : Permission :=
  match permissions this !! key with
  | Some val => Granted val
  | None =>
      if bool_decide (key ∈ Js.object_prototype_members)
      then Inherited key      (* [key in this.permissions] holds *)
      else Granted false
  end.

Definition addOptional (optional_arg : bool) (this : t) : t :=
  match optional this with
  | None =>
      (* optional is uninitialised *)
      set_optional (Some optional_arg) this
  | Some _ =>
      if negb optional_arg then
        (* otherwise, ignore all subsequent optional assignments and only
           accept ones making this not optional *)
        set_optional (Some false) this
      else this
  end.

(** The reference as the constructor leaves it (before [addRequest]). *)
Definition new (info_name info_version info_uid : string)
    (remote0 : Types.PackageRemote) : t :=
  {| name := info_name; version := info_version; uid := info_uid;
     registry := Types.registry remote0; remote := remote0;
     dependencies := []; permissions := ∅; patterns := [];
     optional := None; level := None; ignore := false;
     incompatible := false; fresh := false; locations := [] |}.

Definition set_level (v : option nat) (this : t) : t :=
  {| name := name this; version := version this; uid := uid this;
     registry := registry this; remote := remote this;
     dependencies := dependencies this; permissions := permissions this;
     patterns := patterns this; optional := optional this; level := v;
     ignore := ignore this; incompatible := incompatible this;
     fresh := fresh this; locations := locations this |}.

Definition set_dependencies (v : list string) (this : t) : t :=
  {| name := name this; version := version this; uid := uid this;
     registry := registry this; remote := remote this;
     dependencies := v; permissions := permissions this;
     patterns := patterns this; optional := optional this;
     level := level this; ignore := ignore this;
     incompatible := incompatible this; fresh := fresh this;
     locations := locations this |}.

Definition set_locations (v : list string) (this : t) : t :=
  {| name := name this; version := version this; uid := uid this;
     registry := registry this; remote := remote this;
     dependencies := dependencies this; permissions := permissions this;
     patterns := patterns this; optional := optional this;
     level := level this; ignore := ignore this;
     incompatible := incompatible this; fresh := fresh this;
     locations := v |}.

Definition setFresh (fresh_arg : bool) (this : t) : t :=
  {| name := name this; version := version this; uid := uid this;
     registry := registry this; remote := remote this;
     dependencies := dependencies this; permissions := permissions this;
     patterns := patterns this; optional := optional this;
     level := level this; ignore := ignore this;
     incompatible := incompatible this; fresh := fresh_arg;
     locations := locations this |}.

Definition addLocation (loc : string) (this : t) : t :=
  match Js.indexOf loc (locations this) with
  | None => set_locations (locations this ++ [loc])%list this
  | Some _ => this
  end.

Definition addDependencies (deps : list string) (this : t) : t :=
  set_dependencies (dependencies this ++ deps)%list this.

(** The reference with its [requests] array.  A request is kept as its
    [parentNames] chain, the one field of it that [addRequest] reads. *)
Record Requested := {
  ref : t;
  requests : list (list string)
}.

(** [Math.min(this.level, n)], [this.level] starting at [Infinity]. *)
Definition minLevel (lvl : option nat) (n : nat) : nat :=
  match lvl with
  | None => n
  | Some l => Nat.min l n
  end.

Definition addRequest (request_parentNames : list string) (this : Requested)
  : Requested :=
  {| requests := (requests this ++ [request_parentNames])%list;
     ref := set_level
              (Some (minLevel (level (ref this)) (List.length request_parentNames)))
              (ref this) |}.

(** The constructor: the fields as [new] sets them, then
    [this.addRequest(request)]. *)
Definition construct (request_parentNames : list string)
    (info_name info_version info_uid : string) (remote0 : Types.PackageRemote)
  : Requested :=
  addRequest request_parentNames
    {| ref := new info_name info_version info_uid remote0; requests := [] |}.

End PackageReference.

(** ** JavaScript objects whose key order is observable

    [Object.keys] enumerates string keys in the order of their creation
    (after the keys that are array indices), so a dictionary whose key
    order the code can observe is an association list with distinct
    keys. *)

Module JsObject.

(** The own properties of an object, in the order of their creation. *)
Definition t (A : Type) := list (string * A).

(** The own keys, in the order of their creation.  [Object.keys(o)]
    lists them in this order but for the keys that are array indices,
    which it lists first; the two uses of [Object.keys] in these sources
    sort the keys at once, so the difference is not seen. *)
Definition keys {A} (o : t A) : list string := o.*1.

(** [o[k]], for an own property *)
Fixpoint get {A} (o : t A) (k : string) : option A :=
  match o with
  | [] => None
  | (k', v) :: rest => if String.eqb k' k then Some v else get rest k
  end.

(** [o[k] = v]: overwrite in place, or append a new key. *)
Fixpoint set {A} (k : string) (v : A) (o : t A) : t A :=
  match o with
  | [] => [(k, v)]
  | (k', v') :: rest =>
      if String.eqb k' k then (k, v) :: rest else (k', v') :: set k v rest
  end.

(** [o[k] = v] on an object created by [{}]: the key [__proto__] goes to
    the prototype setter and makes no own property. *)
Definition assign {A} (k : string) (v : A) (o : t A) : t A :=
  if String.eqb k Js.proto_key then o else set k v o.

(** Keys of an object are distinct. *)
Definition wf {A} (o : t A) : Prop := NoDup (keys o).

End JsObject.

(** ** util/misc.js *)

Module Misc.

(** Modelled from the spec: [sortAlpha] lives in util/misc.js, which is
    not among the sources; the spec says [getLockfile] "sorts patterns
    alphabetically".  The comparator orders strings lexicographically by
    the codes of their characters (which is the order of the bytes of
    their encoding), a proper prefix before its extensions. *)
Definition sortAlpha (a b : string) : Z :=
  match String.compare a b with
  | Lt => (-1)%Z
  | Eq => 0%Z
  | Gt => 1%Z
  end.

(** [a] may precede [b] under the comparator: [cmp(a, b) <= 0]. *)
Definition precedes {A} (cmp : A -> A -> Z) : relation A :=
  fun a b => (cmp a b <= 0)%Z.

#[global] Instance precedes_dec {A} (cmp : A -> A -> Z) (a b : A)
  : Decision (precedes cmp a b).
Proof. unfold precedes. apply _. Defined.

(** [arr.sort(cmp)] *)
Definition sort_by {A} (cmp : A -> A -> Z) (arr : list A) : list A :=
  merge_sort (precedes cmp) arr.

(** Order by UTF-16 code units, the default order of [arr.sort()]. *)
Definition code_unit_le : relation string :=
  fun a b => String.leb (Js.utf16_key a) (Js.utf16_key b) = true.

#[global] Instance code_unit_le_dec (a b : string)
  : Decision (code_unit_le a b).
Proof. unfold code_unit_le. apply _. Defined.

(** [arr.sort()] on strings. *)
Definition sort_default (arr : list string) : list string :=
  merge_sort code_unit_le arr.

End Misc.

(** ** lockfile/index.js *)

Module Lockfile.

Import Types.

(** [LockManifest] / [MinimalLockManifest]: one object type, the optional
    fields absent until [explodeEntry] fills them. *)
Record LockManifest := {
  name : option string;
  version : string;
  resolved : option string;
  integrity : option string;
  registry : option string;
  uid : option string;
  permissions : option (gmap string bool);
  optionalDependencies : option Dependencies;
  dependencies : option Dependencies;
  prebuiltVariants : option (gmap string string)
}.

Definition set_name (n : option string) (e : LockManifest) : LockManifest :=
  {| name := n; version := version e; resolved := resolved e;
     integrity := integrity e; registry := registry e; uid := uid e;
     permissions := permissions e;
     optionalDependencies := optionalDependencies e;
     dependencies := dependencies e;
     prebuiltVariants := prebuiltVariants e |}.

(** A cache slot holds an entry, or a string naming another slot. *)
Inductive CacheValue :=
  | Link (target : string)
  | Entry (e : LockManifest).

Record t := {
  source : string;
  cache : option (gmap string CacheValue)
}.

Definition set_cache (c : option (gmap string CacheValue)) (this : t) : t :=
  {| source := source this; cache := c |}.

Definition getName (pattern : string) : string :=
  NormalizePattern.name (NormalizePattern.normalizePattern pattern).

Definition blankObjectUndefined {V} (obj : option (gmap string V))
  : option (gmap string V) :=
  match obj with
  | Some o => if decide (size o = 0) then None else Some o
  | None => None
  end.

Definition keyForRemote (remote : PackageRemote) : option string :=
  if Js.truthy_opt (Types.resolved remote) then Types.resolved remote
  else
    match Types.hash remote with
    | Some h =>
        if Js.truthy (Types.reference remote) && Js.truthy h
        then Some (Types.reference remote ++ "#" ++ h)
        else None
    | None => None
    end.

Definition serializeIntegrity (integrity_arg : string) : string :=
  Js.join " " (Misc.sort_default (Js.split " "%char integrity_arg)).

(** The object literal handed to [implodeEntry]. *)
Record ImplodeArg := {
  a_name : string;
  a_version : string;
  a_uid : string;
  a_resolved : option string;
  a_integrity : option string;
  a_registry : string;
  a_dependencies : option Dependencies;
  a_optionalDependencies : option Dependencies;
  a_permissions : option (gmap string bool);
  a_prebuiltVariants : option (gmap string string)
}.

Definition implodeEntry (pattern : string) (obj : ImplodeArg)
  : LockManifest :=
  let inferredName := getName pattern in
  let integrity0 :=
    match a_integrity obj with
    | Some i => if Js.truthy i then serializeIntegrity i else ""
    | None => ""
    end in
  {| name := if String.eqb inferredName (a_name obj) then None
             else Some (a_name obj);
     version := a_version obj;
     uid := if String.eqb (a_uid obj) (a_version obj) then None
            else Some (a_uid obj);
     resolved := a_resolved obj;
     registry := if String.eqb (a_registry obj) "npm" then None
                 else Some (a_registry obj);
     dependencies := blankObjectUndefined (a_dependencies obj);
     optionalDependencies :=
       blankObjectUndefined (a_optionalDependencies obj);
     permissions := blankObjectUndefined (a_permissions obj);
     prebuiltVariants := blankObjectUndefined (a_prebuiltVariants obj);
     integrity := if Js.truthy integrity0 then Some integrity0 else None |}.

(** [x || d] on an optional string field. *)
Definition or_else (x : option string) (d : string) : string :=
  match x with
  | Some s => if Js.truthy s then s else d
  | None => d
  end.

(** The lockfile stores [integrity] as a string, which has no
    [isIntegrity] property: the [ssri.parse] branch leaves it as it is. *)
Definition explodeEntry (pattern : string) (obj : LockManifest)
  : LockManifest :=
  {| optionalDependencies := Some (default ∅ (optionalDependencies obj));
     dependencies := Some (default ∅ (dependencies obj));
     uid := Some (or_else (uid obj) (version obj));
     permissions := Some (default ∅ (permissions obj));
     registry := Some (or_else (registry obj) "npm");
     name := Some (or_else (name obj) (getName pattern));
     version := version obj;
     resolved := resolved obj;
     integrity := integrity obj;
     prebuiltVariants := prebuiltVariants obj |}.

(** [getLocked] calls itself on a string-valued slot; [depth] is the
    number of stack frames left.  The entry found is exploded in place,
    so the cache changes too. *)
Fixpoint getLocked_rec (depth : nat) (this : t) (pattern : string)
  : Result (option LockManifest * t) :=
  match depth with
  | 0 => Throw (RangeError "Maximum call stack size exceeded")
  | S depth' =>
      match cache this with
      | None => Ok (None, this)
      | Some cache0 =>
          match cache0 !! pattern with
          | Some (Link shrunk) => getLocked_rec depth' this shrunk
          | Some (Entry shrunk) =>
              let shrunk' := explodeEntry pattern shrunk in
              Ok (Some shrunk',
                  set_cache (Some (<[pattern := Entry shrunk']> cache0)) this)
          | None => Ok (None, this)
          end
      end
  end.

(** A chain of links that ends visits every slot at most once, so a
    stack as deep as the cache is large is never the limit (see
    [getLocked_rec_enough]); only a cycle of links exhausts it. *)
Definition stack_depth (this : t) : nat :=
  S (from_option size 0 (cache this)).

Definition getLocked (this : t) (pattern : string)
  : Result (option LockManifest * t) :=
  getLocked_rec (stack_depth this) this pattern.

Definition removePattern (pattern : string) (this : t) : t :=
  match cache this with
  | None => this
  | Some cache0 => set_cache (Some (delete pattern cache0)) this
  end.

(** The object [getLockfile] returns, an object created by [{}]: its own
    properties in the order of their creation, each bound to the address
    of its entry in [objects], so that two keys bound to one address
    share one entry; and, in [proto], the entry that an assignment to
    the key [__proto__] has made the prototype of the object. *)
Record LockfileObject := {
  entries : JsObject.t nat;
  proto : option nat;
  objects : list LockManifest
}.

(** [lockfile[pattern] = entry] on that object. *)
Definition assign (pattern : string) (addr : nat) (objs : list LockManifest)
    (lf : LockfileObject) : LockfileObject :=
  if String.eqb pattern Js.proto_key
  then {| entries := entries lf; proto := Some addr; objects := objs |}
  else {| entries := JsObject.set pattern addr (entries lf);
          proto := proto lf; objects := objs |}.

(** The entry that [lockfile[pattern]] evaluates to: that of the own
    property, or for [__proto__] the prototype when it is an entry; none
    when the expression evaluates to no entry. *)
Definition read (lf : LockfileObject) (pattern : string) : option nat :=
  match JsObject.get (entries lf) pattern with
  | Some addr => Some addr
  | None => if String.eqb pattern Js.proto_key then proto lf else None
  end.

(** State of the loop of [getLockfile]: the object under construction and
    the [seen] map from remote key to entry. *)
Record LoopState := {
  lockfile : LockfileObject;
  seen : gmap string nat
}.

Definition implodeArg (pkg : Manifest) (remote : PackageRemote)
    (ref : PackageReference.t) : ImplodeArg :=
  {| a_name := Types.name pkg;
     a_version := Types.version pkg;
     a_uid := Types._uid pkg;
     a_resolved := Types.resolved remote;
     a_integrity := Types.integrity remote;
     a_registry := Types.registry remote;
     a_dependencies := Types.dependencies pkg;
     a_optionalDependencies := Types.optionalDependencies pkg;
     a_permissions := Some (PackageReference.permissions ref);
     a_prebuiltVariants := Types.prebuiltVariants pkg |}.

Definition getLockfile_body (refs : gmap nat PackageReference.t)
    (patterns : JsObject.t Manifest) (pattern : string) (st : LoopState)
  : Result LoopState :=
  match JsObject.get patterns pattern with
  | None => Throw (TypeError "Cannot destructure undefined")
  | Some pkg =>
      match Types._reference pkg ≫= (refs !!.) with
      | None => Throw (InvariantViolation "Package is missing a reference")
      | Some ref =>
          match Types._remote pkg with
          | None => Throw (InvariantViolation "Package is missing a remote")
          | Some remote =>
              let remoteKey := keyForRemote remote in
              let seenPattern :=
                if Js.truthy_opt remoteKey
                then remoteKey ≫= (seen st !!.) else None in
              let objs := objects (lockfile st) in
              match seenPattern with
              | Some addr =>
                  (* no point in duplicating it *)
                  (* if we're relying on our name being inferred and two
                     of the patterns have different inferred names then
                     we need to set it *)
                  let objs' :=
                    match objs !! addr with
                    | Some e =>
                        if negb (Js.truthy_opt (name e)) &&
                           negb (String.eqb (getName pattern) (Types.name pkg))
                        then <[addr := set_name (Some (Types.name pkg)) e]> objs
                        else objs
                    | None => objs
                    end in
                  Ok {| lockfile := assign pattern addr objs' (lockfile st);
                        seen := seen st |}
              | None =>
                  let obj := implodeEntry pattern (implodeArg pkg remote ref) in
                  let addr := List.length objs in
                  Ok {| lockfile :=
                          assign pattern addr (objs ++ [obj])%list (lockfile st);
                        seen := match remoteKey with
                                | Some k => if Js.truthy k
                                            then <[k := addr]> (seen st)
                                            else seen st
                                | None => seen st
                                end |}
              end
          end
      end
  end.

Definition getLockfile (refs : gmap nat PackageReference.t)
    (patterns : JsObject.t Manifest) : Result LockfileObject :=
  (* order by name so that lockfile manifest is assigned to the first
     dependency with this manifest *)
  let sortedPatternsKeys :=
    Misc.sort_by Misc.sortAlpha (JsObject.keys patterns) in
  st ← for_of sortedPatternsKeys (getLockfile_body refs patterns)
         {| lockfile := {| entries := []; proto := None; objects := [] |};
            seen := ∅ |};
  Ok (lockfile st).

End Lockfile.

(** ** package-resolver.js *)

Module PackageResolver.

Import Types.

(** What the resolver takes from other modules. *)
Record Env := {
  sv : Semver.lib;
  (** [getExoticResolver(range)] of resolvers/index.js: a resolver class
      for an exotic range, [null] otherwise. *)
  ExoticResolver : Type;
  getExoticResolver : string -> option ExoticResolver;
  (** [resolutionMap.find(pattern, parentNames)] of resolution-map.js. *)
  resolutionMap_find : string -> list string -> option string;
  (** [shouldUpdateLockfile(lockManifest, ref)] of resolution-map.js. *)
  shouldUpdateLockfile :
    option Lockfile.LockManifest -> PackageReference.t -> bool
}.

(** The resolver, together with the objects it reaches and mutates: the
    lockfile and the store of [PackageReference] objects (a reference is
    named by its address, as in [Manifest._reference]). *)
Record t := {
  patterns : gmap string Manifest;
  patternsByPackage : gmap string (list string);
  fetchingPatterns : gset string;
  flat : bool;
  frozen : bool;
  lockfile : Lockfile.t;
  refs : gmap nat PackageReference.t;
  delayQueue : list DependencyRequestPattern
}.

Definition set_patterns (v : gmap string Manifest) (this : t) : t :=
  {| patterns := v; patternsByPackage := patternsByPackage this;
     fetchingPatterns := fetchingPatterns this; flat := flat this;
     frozen := frozen this; lockfile := lockfile this; refs := refs this;
     delayQueue := delayQueue this |}.

Definition set_patternsByPackage (v : gmap string (list string)) (this : t)
  : t :=
  {| patterns := patterns this; patternsByPackage := v;
     fetchingPatterns := fetchingPatterns this; flat := flat this;
     frozen := frozen this; lockfile := lockfile this; refs := refs this;
     delayQueue := delayQueue this |}.

Definition set_fetchingPatterns (v : gset string) (this : t) : t :=
  {| patterns := patterns this; patternsByPackage := patternsByPackage this;
     fetchingPatterns := v; flat := flat this;
     frozen := frozen this; lockfile := lockfile this; refs := refs this;
     delayQueue := delayQueue this |}.

Definition set_lockfile (v : Lockfile.t) (this : t) : t :=
  {| patterns := patterns this; patternsByPackage := patternsByPackage this;
     fetchingPatterns := fetchingPatterns this; flat := flat this;
     frozen := frozen this; lockfile := v; refs := refs this;
     delayQueue := delayQueue this |}.

Definition set_refs (v : gmap nat PackageReference.t) (this : t) : t :=
  {| patterns := patterns this; patternsByPackage := patternsByPackage this;
     fetchingPatterns := fetchingPatterns this; flat := flat this;
     frozen := frozen this; lockfile := lockfile this; refs := v;
     delayQueue := delayQueue this |}.

Definition set_delayQueue (v : list DependencyRequestPattern) (this : t)
  : t :=
  {| patterns := patterns this; patternsByPackage := patternsByPackage this;
     fetchingPatterns := fetchingPatterns this; flat := flat this;
     frozen := frozen this; lockfile := lockfile this; refs := refs this;
     delayQueue := v |}.

(** [this.lockfile.getLocked(pattern)], threading the lockfile. *)
Definition getLocked (pattern : string) (this : t)
  : Result (option Lockfile.LockManifest * t) :=
  '(shrunk, lf) ← Lockfile.getLocked (lockfile this) pattern;
  Ok (shrunk, set_lockfile lf this).

Definition getResolvedPattern (this : t) (pattern : string)
  : option Manifest :=
  patterns this !! pattern.

Definition getStrictResolvedPattern (this : t) (pattern : string)
  : Result Manifest :=
  match getResolvedPattern this pattern with
  | Some manifest => Ok manifest
  | None => Throw (InvariantViolation "expected manifest")
  end.

(** Given a list of patterns, dedupe them to a list of unique patterns.
    [seen] holds manifest identities; [None] is [undefined], which a
    [Set] can hold as well. *)
Fixpoint dedupePatterns_loop (this : t) (patterns_arg : list string)
    (seen : list (option nat)) : list string :=
  match patterns_arg with
  | [] => []
  | pattern :: rest =>
      let info := m_id <$> getResolvedPattern this pattern in
      if bool_decide (info ∈ seen) then dedupePatterns_loop this rest seen
      else pattern :: dedupePatterns_loop this rest (info :: seen)
  end.

Definition dedupePatterns (this : t) (patterns_arg : list string)
  : list string :=
  dedupePatterns_loop this patterns_arg [].

(** Retrieve all the package info stored for a list of patterns. *)
Fixpoint getAllInfoForPatterns_loop (this : t) (patterns_arg : list string)
    (seen : list (option nat)) : list (option Manifest) :=
  match patterns_arg with
  | [] => []
  | pattern :: rest =>
      let info := patterns this !! pattern in
      if bool_decide ((m_id <$> info) ∈ seen)
      then getAllInfoForPatterns_loop this rest seen
      else info :: getAllInfoForPatterns_loop this rest ((m_id <$> info) :: seen)
  end.

Definition getAllInfoForPatterns (this : t) (patterns_arg : list string)
  : list (option Manifest) :=
  getAllInfoForPatterns_loop this patterns_arg [].

Definition addPattern (pattern : string) (info : Manifest) (this : t) : t :=
  let this := set_patterns (<[pattern := info]> (patterns this)) this in
  let byName := default [] (patternsByPackage this !! name info) in
  let byName :=
    match Js.indexOf pattern byName with
    | None => (byName ++ [pattern])%list
    | Some _ => byName
    end in
  set_patternsByPackage (<[name info := byName]> (patternsByPackage this)) this.

Definition removePattern (pattern : string) (this : t) : t :=
  match patterns this !! pattern with
  | None => this
  | Some pkg =>
      match patternsByPackage this !! name pkg with
      | None => this
      | Some byName =>
          let this :=
            set_patternsByPackage
              (<[name pkg := Js.splice_indexOf pattern byName]>
                 (patternsByPackage this)) this in
          set_patterns (delete pattern (patterns this)) this
      end
  end.

(** [PackageReference.prune], for the reference at [addr]: remove
    ourselves from the resolver. *)
Definition ref_prune (addr : nat) (this : t) : t :=
  match refs this !! addr with
  | Some ref => foldl (fun st selfPattern => removePattern selfPattern st)
                      this (PackageReference.patterns ref)
  | None => this
  end.

(** [PackageReference.addPattern], for the reference at [addr].
    [entries] of util/misc.js lists the key/value pairs of an object. *)
Definition ref_addPattern (addr : nat) (pattern : string)
    (manifest : Manifest) (this : t) : Result t :=
  let this := addPattern pattern manifest this in
  let this :=
    set_refs
      (alter (fun ref => PackageReference.set_patterns
                (PackageReference.patterns ref ++ [pattern])%list ref)
             addr (refs this)) this in
  '(shrunk, this) ← getLocked pattern this;
  match shrunk ≫= Lockfile.permissions with
  | Some perms =>
      Ok (set_refs
            (alter (fun ref =>
                      foldl (fun r kv => PackageReference.setPermission kv.1 kv.2 r)
                            ref (map_to_list perms))
                   addr (refs this)) this)
  | None => Ok this
  end.

(** First loop of [collapsePackageVersions]: the manifest that matches
    the version we're collapsing to. *)
Fixpoint collapseTarget (this : t) (version_arg : string)
    (patterns_arg : list string) : Result (option (string * Manifest)) :=
  match patterns_arg with
  | [] => Ok None
  | pattern :: rest =>
      match patterns this !! pattern with
      | None => Throw (TypeError "Cannot read property 'version' of undefined")
      | Some _manifest =>
          if String.eqb (version _manifest) version_arg
          then Ok (Some (pattern, _manifest))
          else collapseTarget this version_arg rest
      end
  end.

(** Body of the second loop of [collapsePackageVersions]. *)
Definition collapseOne (collapseToPattern : string)
    (collapseToReference : nat) (collapseToManifest : Manifest)
    (pattern : string) (this : t) : Result t :=
  (* don't touch the pattern we're collapsing to *)
  if String.eqb pattern collapseToPattern then Ok this
  else
    (* remove this pattern *)
    m ← getStrictResolvedPattern this pattern;
    match _reference m with
    | None => Throw (InvariantViolation "expected package reference")
    | Some ref =>
        match refs this !! ref with
        | None => Throw (InvariantViolation "expected package reference")
        | Some r =>
            let refPatterns := PackageReference.patterns r in
            let this := ref_prune ref this in
            (* add pattern to the manifest we're collapsing to *)
            for_of refPatterns
              (fun p => ref_addPattern collapseToReference p collapseToManifest)
              this
        end
    end.

(** Make all given patterns resolve to version. *)
Definition collapsePackageVersions (name_arg version_arg : string)
    (patterns_arg : list string) (this : t) : Result (string * t) :=
  let human := name_arg ++ "@" ++ version_arg in
  target ← collapseTarget this version_arg patterns_arg;
  match target with
  | Some (collapseToPattern, collapseToManifest) =>
      match _reference collapseToManifest with
      | Some collapseToReference =>
          if bool_decide (is_Some (refs this !! collapseToReference))
             && Js.truthy collapseToPattern
          then
            this ← for_of patterns_arg
                     (collapseOne collapseToPattern collapseToReference
                                  collapseToManifest) this;
            Ok (collapseToPattern, this)
          else
            Throw (InvariantViolation ("Couldn't find package manifest for " ++ human))
      | None =>
          Throw (InvariantViolation ("Couldn't find package manifest for " ++ human))
      end
  | None =>
      Throw (InvariantViolation ("Couldn't find package manifest for " ++ human))
  end.

(** The predicate of the [filter] in [optimizeResolutions]: don't
    optimize things that already have a lockfile entry.  It calls
    [getLocked], so it threads the resolver. *)
Fixpoint collapsableFilter (patterns_arg : list string) (this : t)
  : Result (list string * t) :=
  match patterns_arg with
  | [] => Ok ([], this)
  | pattern :: rest =>
      match patterns this !! pattern with
      | None => Throw (TypeError "Cannot read property '_remote' of undefined")
      | Some m =>
          let remote := _remote m in
          '(shrunk, this) ← getLocked pattern this;
          let keep :=
            negb (bool_decide (is_Some shrunk)) &&
            match remote with
            | None => true
            | Some r => negb (String.eqb (type r) "workspace")
            end in
          '(kept, this) ← collapsableFilter rest this;
          Ok (if keep then pattern :: kept else kept, this)
      end
  end.

(** [infos.map(manifest => manifest.version)] *)
Fixpoint versionsOf (infos : list (option Manifest)) : Result (list string) :=
  match infos with
  | [] => Ok []
  | Some m :: rest => vs ← versionsOf rest; Ok (version m :: vs)
  | None :: _ => Throw (TypeError "Cannot read property 'version' of undefined")
  end.

Section WithEnv.

Context (env : Env).

(** Determine if LockfileEntry is incorrect. *)
Definition isLockfileEntryOutdated (version_arg range : string)
    (hasVersion : bool) : bool :=
  Js.truthy_opt (Semver.validRange (sv env) range) &&
  Js.truthy_opt (Semver.valid (sv env) version_arg) &&
  negb (bool_decide (is_Some (getExoticResolver env range))) &&
  hasVersion &&
  negb (Semver.satisfies (sv env) version_arg range false).

(** for a given package, see if a single manifest can satisfy all
    ranges *)
Definition optimizeResolutions (name_arg : string) (this : t) : Result t :=
  let patterns0 :=
    dedupePatterns this (default [] (patternsByPackage this !! name_arg)) in
  '(collapsablePatterns, this) ← collapsableFilter patterns0 this;
  if Nat.ltb (List.length collapsablePatterns) 2 then Ok this
  else
    (* reverse sort, so we'll find the maximum satisfying version first *)
    availableVersions ←
      versionsOf (getAllInfoForPatterns this collapsablePatterns);
    let availableVersions :=
      Misc.sort_by (Semver.rcompare (sv env)) availableVersions in
    let ranges :=
      (fun pattern => NormalizePattern.range
                        (NormalizePattern.normalizePattern pattern))
        <$> collapsablePatterns in
    (* find the most recent version that satisfies all patterns (if one
       exists), and collapse to that version. *)
    match
      List.find (fun version0 =>
                   forallb (fun range =>
                              Semver.satisfies (sv env) version0 range false)
                           ranges)
                availableVersions
    with
    | Some version0 =>
        '(_, this) ← collapsePackageVersions name_arg version0
                       collapsablePatterns this;
        Ok this
    | None => Ok this
    end.

Definition resolveToResolution (req : DependencyRequestPattern) (this : t)
  : Result (option DependencyRequestPattern * t) :=
  match parentNames req with
  | None => Ok (Some req, this)
  | Some parentNames0 =>
      if flat this then Ok (Some req, this)
      else
        match resolutionMap_find env (pattern req) parentNames0 with
        | Some resolution =>
            if Js.truthy resolution then
              match getResolvedPattern this resolution with
              | Some resolutionManifest =>
                  match _reference resolutionManifest ≫= (fun a => (a ,.) <$> refs this !! a) with
                  | None => Throw (InvariantViolation
                              "resolutions should have a resolved reference")
                  | Some (addr, _) =>
                      let this :=
                        set_refs
                          (alter (fun ref => PackageReference.set_patterns
                                    (PackageReference.patterns ref ++ [pattern req])%list ref)
                                 addr (refs this)) this in
                      let this := addPattern (pattern req) resolutionManifest this in
                      '(lockManifest, this) ← getLocked (pattern req) this;
                      match refs this !! addr with
                      | Some ref =>
                          if shouldUpdateLockfile env lockManifest ref
                          then Ok (None, set_lockfile
                                           (Lockfile.removePattern (pattern req)
                                              (lockfile this)) this)
                          else Ok (None, this)
                      | None => Ok (None, this)
                      end
                  end
              | None =>
                  Ok (None, set_delayQueue (delayQueue this ++ [req])%list this)
              end
            else Ok (Some req, this)
        | None => Ok (Some req, this)
        end
  end.

(** What [find] hands to [request.find]. *)
Record FindArgs := { fresh : bool; frozen_arg : bool }.

Definition fetchKeyOf (req : DependencyRequestPattern) : string :=
  req_registry req ++ ":" ++ pattern req ++ ":" ++
  (if optional req then "true" else "false").

(** [find], up to its last statement, the call of
    [request.find({fresh, frozen})] (package-request.js is outside
    these sources): the result is the resolver at that point and the
    arguments of that call, or [None] when the request was already
    settled by a resolution. *)
Definition find (initialReq : DependencyRequestPattern) (this : t)
  : Result (option FindArgs * t) :=
  '(req, this) ← resolveToResolution initialReq this;
  match req with
  | None =>
      (* we've already resolved it with a resolution *)
      Ok (None, this)
  | Some req =>
      let fetchKey := fetchKeyOf req in
      let initialFetch := negb (bool_decide (fetchKey ∈ fetchingPatterns this)) in
      let fresh0 := false in
      if initialFetch then
        let this :=
          set_fetchingPatterns ({[fetchKey]} ∪ fetchingPatterns this) this in
        '(lockfileEntry, this) ← getLocked (pattern req) this;
        match lockfileEntry with
        | Some entry =>
            let np := NormalizePattern.normalizePattern (pattern req) in
            if isLockfileEntryOutdated (Lockfile.version entry)
                 (NormalizePattern.range np) (NormalizePattern.hasVersion np)
            then
              let this := removePattern (pattern req) this in
              let this :=
                set_lockfile
                  (Lockfile.removePattern (pattern req) (lockfile this)) this in
              Ok (Some {| fresh := true; frozen_arg := frozen this |}, this)
            else
              Ok (Some {| fresh := fresh0; frozen_arg := frozen this |}, this)
        | None =>
            Ok (Some {| fresh := true; frozen_arg := frozen this |}, this)
        end
      else
        Ok (Some {| fresh := fresh0; frozen_arg := frozen this |}, this)
  end.

End WithEnv.

(** *** Further methods of the resolver *)

(** [manifest._remote = remote] *)
Definition set__remote (remote : option PackageRemote) (m : Manifest) : Manifest :=
  {| m_id := m_id m; name := name m; version := version m; _uid := _uid m;
     _reference := _reference m; _remote := remote;
     dependencies := dependencies m;
     optionalDependencies := optionalDependencies m;
     peerDependencies := peerDependencies m;
     prebuiltVariants := prebuiltVariants m; Types.fresh := Types.fresh m |}.

(** Retrieve all the package info stored for this package name. *)
Definition getAllInfoForPackageName (this : t) (name_arg : string)
  : list (option Manifest) :=
  getAllInfoForPatterns this (default [] (patternsByPackage this !! name_arg)).

Definition isNewPattern (this : t) (pattern : string) : Result bool :=
  match patterns this !! pattern with
  | Some m => Ok (Types.fresh m)
  | None => Throw (TypeError "Cannot read property 'fresh' of undefined")
  end.

(** replace pattern in resolver, e.g. [name] is replaced with
    [name@^1.0.1] *)
Definition replacePattern (pattern newPattern : string) (this : t) : Result t :=
  match getResolvedPattern this pattern with
  | None => Throw (InvariantViolation ("missing package " ++ pattern))
  | Some pkg =>
      match _reference pkg with
      | None => Throw (InvariantViolation "expected package reference")
      | Some ref =>
          match refs this !! ref with
          | None => Throw (InvariantViolation "expected package reference")
          | Some _ =>
              let this :=
                set_refs (alter (PackageReference.set_patterns [newPattern])
                                ref (refs this)) this in
              let this := addPattern newPattern pkg this in
              Ok (removePattern pattern this)
          end
      end
  end.

(** Make all versions of this package resolve to it.  Without a list for
    the name, [dedupePatterns] iterates [undefined]. *)
Definition collapseAllVersionsOfPackage (name_arg version_arg : string)
    (this : t) : Result (string * t) :=
  match patternsByPackage this !! name_arg with
  | None => Throw (TypeError "patterns is not iterable")
  | Some byName =>
      collapsePackageVersions name_arg version_arg
        (dedupePatterns this byName) this
  end.

(** [patterns.map(this.getStrictResolvedPattern.bind(this))] *)
Fixpoint strictResolveAll (this : t) (patterns_arg : list string)
  : Result (list Manifest) :=
  match patterns_arg with
  | [] => Ok []
  | pattern :: rest =>
      info ← getStrictResolvedPattern this pattern;
      infos ← strictResolveAll this rest;
      Ok (info :: infos)
  end.

(** [remote && remote.reference && remote.type === 'copy'] *)
Definition isCopyRemote (remote : option PackageRemote) : bool :=
  match remote with
  | Some r => Js.truthy (reference r) && String.eqb (type r) "copy"
  | None => false
  end.

(** Get the manifest of the package that matches an exotic range.  The
    second component is [manifest] after the call: its [_remote] is
    overwritten on a match. *)
Definition exoticRangeMatch (resolvedPkgs : list Manifest) (manifest : Manifest)
  : option Manifest * Manifest :=
  match _remote manifest with
  | Some remote =>
      if isCopyRemote (Some remote) then
        let matchedPkg :=
          List.find
            (fun pkg =>
               match _remote pkg with
               | Some pkgRemote =>
                   String.eqb (reference pkgRemote) (reference remote) &&
                   String.eqb (type pkgRemote) "copy"
               | None => false
               end)
            resolvedPkgs in
        match matchedPkg with
        | Some pkg => (Some pkg, set__remote (_remote pkg) manifest)
        | None => (None, manifest)
        end
      else (None, manifest)
  | None => (None, manifest)
  end.

(** The loop of [getExactVersionMatch]. *)
Fixpoint exactVersionLoop (this : t) (version_arg : string)
    (patterns_arg : list string) : Result (option Manifest) :=
  match patterns_arg with
  | [] => Ok None
  | pattern :: rest =>
      info ← getStrictResolvedPattern this pattern;
      if String.eqb (version info) version_arg then Ok (Some info)
      else exactVersionLoop this version_arg rest
  end.

Section WithEnvMore.

Context (env : Env).

(** The result, and [manifest] after the call. *)
Definition getExactVersionMatch (this : t) (name_arg version_arg : string)
    (manifest : option Manifest) : Result (option Manifest * option Manifest) :=
  match patternsByPackage this !! name_arg with
  | None => Ok (None, manifest)
  | Some patterns0 =>
      found ← exactVersionLoop this version_arg patterns0;
      match found with
      | Some info => Ok (Some info, manifest)
      | None =>
          match manifest with
          | Some m =>
              if bool_decide (is_Some (getExoticResolver env version_arg)) then
                infos ← strictResolveAll this patterns0;
                let '(matched, m') := exoticRangeMatch infos m in
                Ok (matched, Some m')
              else Ok (None, manifest)
          | None => Ok (None, manifest)
          end
      end
  end.

(** Get the manifest of the highest known version that satisfies a
    package range.  The result, and [manifest] after the call. *)
Definition getHighestRangeVersionMatch (this : t) (name_arg range : string)
    (manifest : option Manifest) : Result (option Manifest * option Manifest) :=
  match patternsByPackage this !! name_arg with
  | None => Ok (None, manifest)
  | Some patterns0 =>
      resolvedPatterns ← strictResolveAll this patterns0;
      let versionNumbers := version <$> resolvedPatterns in
      let maxValidRange :=
        Semver.maxSatisfying (sv env) versionNumbers range false in
      if Js.truthy_opt maxValidRange then
        match maxValidRange ≫= (fun v => Js.indexOf v versionNumbers) with
        | Some indexOfmaxValidRange =>
            Ok (resolvedPatterns !! indexOfmaxValidRange, manifest)
        | None => Ok (None, manifest)
        end
      else
        match manifest with
        | Some m =>
            if bool_decide (is_Some (getExoticResolver env range)) then
              let '(matched, m') := exoticRangeMatch resolvedPatterns m in
              Ok (matched, Some m')
            else Ok (None, manifest)
        | None => Ok (None, manifest)
        end
  end.

End WithEnvMore.

(** [updateManifest(ref, newPkg)], for the reference at [addr]: the
    resolver and [newPkg] after the call.  With an empty [ref.patterns]
    the key looked up is [undefined]. *)
Definition updateManifest (addr : nat) (newPkg : Manifest) (this : t)
  : Result (Manifest * t) :=
  match refs this !! addr with
  | None => Throw (TypeError "Cannot read property 'patterns' of undefined")
  | Some ref =>
      let first :=
        match PackageReference.patterns ref with
        | [] => "undefined"
        | p :: _ => p
        end in
      match patterns this !! first with
      | None => Throw (TypeError "Cannot read property 'name' of undefined")
      | Some oldPkg =>
          (* inherit fields *)
          let newPkg :=
            {| m_id := m_id newPkg;
               name := name oldPkg;
               version := version newPkg;
               _uid := _uid newPkg;
               _reference := Some addr;
               _remote := Some (PackageReference.remote ref);
               dependencies := dependencies newPkg;
               optionalDependencies := optionalDependencies newPkg;
               peerDependencies := peerDependencies newPkg;
               prebuiltVariants := prebuiltVariants oldPkg;
               Types.fresh := Types.fresh oldPkg |} in
          (* update patterns *)
          Ok (newPkg,
              set_patterns
                (foldl (fun ps pattern => <[pattern := newPkg]> ps)
                       (patterns this) (PackageReference.patterns ref))
                this)
      end
  end.

End PackageResolver.

(** ** config.js: workspaces *)

Module Config.

(** The value of a field that is meant to hold an array of strings: an
    array; another truthy value, of which the code asks only whether its
    [length] is greater than 0 (as it is of a non-empty string); or a
    falsy value. *)
Inductive Field :=
  | FArray (items : list string)
  | FTruthy (longer : bool)
  | FFalsy.

(** [value && Array.isArray(value)] *)
Definition isArray (f : option Field) : bool :=
  match f with
  | Some (FArray _) => true
  | _ => false
  end.

(** [WorkspacesConfig]; [None] is a field that is absent. *)
Record WorkspacesConfig := {
  packages : option Field;
  nohoist : option Field
}.

(** The [workspaces] field of a manifest: an array of globs, or a
    [WorkspacesConfig]. *)
Inductive WorkspacesField :=
  | WsArray (globs : list string)
  | WsObject (ws : WorkspacesConfig).

(** A manifest as [findManifest] reads it from a project folder: [name]
    and [version] may be missing. *)
Record Manifest := {
  name : option string;
  version : option string;
  private : bool;
  workspaces : option WorkspacesField
}.

(** The file system, as the configuration sees it. *)
Record Env := {
  (** [fs.glob] of one workspace pattern under [root], with the trailing
      manifest-file pattern added and the registry folders ignored. *)
  glob : string -> string -> list string;
  (** [path.join(root, path.dirname(file))] *)
  locOf : string -> string -> string;
  (** [findManifest(loc, false)] *)
  findManifest : string -> option Manifest
}.

Record t := {
  workspacesEnabled : bool;
  workspacesNohoistEnabled : bool
}.

(** [reporter.lang(key, arg)]: the message catalogue is outside the
    sources; a message is its key followed by its argument. *)
Definition lang (key arg : string) : string := key ++ ": " ++ arg.

(** [WorkspacesManifestMap] values *)
Record Workspace := { loc : string; manifest : Manifest }.

Definition extractWorkspaces (m : option Manifest) : option WorkspacesConfig :=
  match m with
  | None => None
  | Some m =>
      match workspaces m with
      | None => None
      | Some (WsArray globs) =>
          Some {| packages := Some (FArray globs); nohoist := None |}
      | Some (WsObject ws) =>
          if isArray (packages ws) || isArray (nohoist ws)
          then Some ws else None
      end
  end.

(** [value && value.length > 0] *)
Definition nonEmpty (l : option Field) : bool :=
  match l with
  | Some (FArray (_ :: _)) => true
  | Some (FTruthy longer) => longer
  | _ => false
  end.

(** [getWorkspaces(manifest, shouldThrow)]; the second component is what
    goes to [reporter.warn]. *)
Definition getWorkspaces (this : t) (m : option Manifest) (shouldThrow : bool)
  : Result (option WorkspacesConfig * list string) :=
  match m with
  | None => Ok (None, [])
  | Some m0 =>
      if negb (workspacesEnabled this) then Ok (None, [])
      else
        match extractWorkspaces m with
        | None => Ok (None, [])
        | Some ws =>
            (* validate eligibility *)
            let '(wsCopy, errors) :=
              if nonEmpty (packages ws) && negb (private m0)
              then (None, [lang "workspacesRequirePrivateProjects" ""])
              else (Some ws, []) in
            let '(wsCopy, errors, warnings) :=
              match wsCopy with
              | Some w =>
                  if nonEmpty (nohoist w) then
                    if negb (workspacesNohoistEnabled this) then
                      (Some {| packages := packages w; nohoist := None |},
                       errors,
                       [lang "workspacesNohoistDisabled" (default "" (name m0))])
                    else if negb (private m0) then
                      (Some {| packages := packages w; nohoist := None |},
                       (errors ++ [lang "workspacesNohoistRequirePrivatePackages"
                                        (default "" (name m0))])%list,
                       [])
                    else (wsCopy, errors, [])
                  else (wsCopy, errors, [])
              | None => (wsCopy, errors, [])
              end in
            if negb (bool_decide (errors = [])) && shouldThrow
            then Throw (MessageError (Js.join (String "010"%char "") errors))
            else
              let msg := Js.join (String "010"%char "") (errors ++ warnings)%list in
              Ok (wsCopy, if Js.truthy msg then [msg] else [])
        end
  end.


(** State of the loop over the matched files: the object under
    construction, created by [{}], and the warnings reported so far.
    [found] holds the own properties of the object; [found_proto] is the
    workspace that an assignment to the key [__proto__] has made its
    prototype. *)
Record LoopState := {
  found : gmap string Workspace;
  found_proto : option Workspace;
  warnings : list string
}.





(** [sortObject]: the bindings of [object], assigned in the default sort
    order of the keys to an object created by [{}].  The result holds the
    own properties of that object; the value bound to [__proto__] makes
    no own property (when it is an object it becomes the prototype). *)
Definition sortObject {A} (object : JsObject.t A) : JsObject.t A :=
  foldl (fun sortedObject item =>
           match JsObject.get object item with
           | Some v => JsObject.assign item v sortedObject
           | None => sortedObject
           end)
        [] (Misc.sort_default (JsObject.keys object)).

End Config.

(** ** workspace-layout.js *)

Module WorkspaceLayout.

Record t := {
  workspaces : gmap string Config.Workspace;
  looseSemver : bool                (* [this.config.looseSemver] *)
}.

Definition getWorkspaceManifest (this : t) (key : string)
  : option Config.Workspace :=
  workspaces this !! key.

(** A workspace kept by [resolveWorkspaces] has a version; for a missing
    one [semver.satisfies] answers [false]. *)
Definition getManifestByPattern (sv : Semver.lib) (this : t) (pattern : string)
  : option Config.Workspace :=
  let np := NormalizePattern.normalizePattern pattern in
  match getWorkspaceManifest this (NormalizePattern.name np) with
  | None => None
  | Some workspace =>
      match Config.version (Config.manifest workspace) with
      | Some v =>
          if Semver.satisfies sv v (NormalizePattern.range np) (looseSemver this)
          then Some workspace else None
      | None => None
      end
  end.

End WorkspaceLayout.

(** ** A small instance of the outside interfaces

    Enough of [semver] to run the model on examples: versions are ordered
    as strings, and a range is [*] or one exact version. *)

Module Instance.

Definition valid (v : string) : option string :=
  if Js.truthy v then Some v else None.

Definition validRange (r : string) : option string :=
  if Js.truthy r then Some r else Some "*".

Definition satisfies (v r : string) (loose : bool) : bool :=
  String.eqb r "*" || String.eqb r "" || String.eqb v r.

Definition rcompare (a b : string) : Z := Misc.sortAlpha b a.

(** The loop of [semver.maxSatisfying]: keep the highest satisfying
    version met so far. *)
Definition maxSatisfying_step (sat : string -> bool)
    (rcmp : string -> string -> Z) (max : option string) (v : string)
  : option string :=
  if sat v then
    match max with
    | None => Some v
    | Some m => if (0 <? rcmp m v)%Z then Some v else max
    end
  else max.

Definition maxSatisfying (versions : list string) (r : string) (loose : bool)
  : option string :=
  foldl (maxSatisfying_step (fun v => satisfies v r loose) rcompare)
        None versions.

Definition semver : Semver.lib :=
  {| Semver.valid := valid;
     Semver.validRange := validRange;
     Semver.satisfies := satisfies;
     Semver.maxSatisfying := maxSatisfying;
     Semver.rcompare := rcompare |}.

(** Ranges that start with [file:] are exotic. *)
Definition getExoticResolver (r : string) : option unit :=
  if String.prefix "file:" r then Some tt else None.

Definition env : PackageResolver.Env :=
  {| PackageResolver.sv := semver;
     PackageResolver.ExoticResolver := unit;
     PackageResolver.getExoticResolver := getExoticResolver;
     PackageResolver.resolutionMap_find := fun _ _ => None;
     PackageResolver.shouldUpdateLockfile := fun _ _ => false |}.

(** The same, with a resolution map of two entries: [c@^1.0.0] is to be
    resolved by [c@1.0.5], and [d@^1.0.0] by [d@2.0.0], under any
    parents. *)
Definition resolutions (pattern : string) (parentNames : list string)
  : option string :=
  if String.eqb pattern "c@^1.0.0" then Some "c@1.0.5"
  else if String.eqb pattern "d@^1.0.0" then Some "d@2.0.0"
  else None.

Definition env_with_resolutions : PackageResolver.Env :=
  {| PackageResolver.sv := semver;
     PackageResolver.ExoticResolver := unit;
     PackageResolver.getExoticResolver := getExoticResolver;
     PackageResolver.resolutionMap_find := resolutions;
     PackageResolver.shouldUpdateLockfile := fun _ _ => false |}.

End Instance.

(** ** Sample objects, for running the model *)

Module Sample.

Definition remote (ty url : string) : Types.PackageRemote :=
  {| Types.type := ty; Types.registry := "npm"; Types.reference := url;
     Types.resolved := Some url; Types.hash := None;
     Types.integrity := None |}.

Definition manifest (id : nat) (n v : string) (ref : nat) : Types.Manifest :=
  {| Types.m_id := id; Types.name := n; Types.version := v;
     Types._uid := v; Types._reference := Some ref;
     Types._remote := Some (remote "tarball" ("https://r/" ++ n ++ "-" ++ v));
     Types.dependencies := None; Types.optionalDependencies := None;
     Types.peerDependencies := None; Types.prebuiltVariants := None;
     Types.fresh := false |}.

Definition reference (n v : string) (ps : list string) : PackageReference.t :=
  PackageReference.set_patterns ps
    (PackageReference.new n v v (remote "tarball" ("https://r/" ++ n ++ "-" ++ v))).

Definition entry (v : string) : Lockfile.LockManifest :=
  {| Lockfile.name := None; Lockfile.version := v;
     Lockfile.resolved := None; Lockfile.integrity := None;
     Lockfile.registry := None; Lockfile.uid := None;
     Lockfile.permissions := None; Lockfile.optionalDependencies := None;
     Lockfile.dependencies := None; Lockfile.prebuiltVariants := None |}.

Definition lockfile (slots : list (string * Lockfile.CacheValue)) : Lockfile.t :=
  {| Lockfile.source := ""; Lockfile.cache := Some (list_to_map slots) |}.

Definition resolver (ps : list (string * Types.Manifest))
    (byName : list (string * list string))
    (rs : list (nat * PackageReference.t)) (lf : Lockfile.t)
  : PackageResolver.t :=
  {| PackageResolver.patterns := list_to_map ps;
     PackageResolver.patternsByPackage := list_to_map byName;
     PackageResolver.fetchingPatterns := ∅;
     PackageResolver.flat := true;
     PackageResolver.frozen := false;
     PackageResolver.lockfile := lf;
     PackageResolver.refs := list_to_map rs;
     PackageResolver.delayQueue := [] |}.

(** [a@1.2.0] is resolved to [a] 1.1.0, and locked at 1.1.0: stale. *)
Definition stale : PackageResolver.t :=
  resolver [("a@1.2.0", manifest 0 "a" "1.1.0" 0)]
           [("a", ["a@1.2.0"])]
           [(0, reference "a" "1.1.0" ["a@1.2.0"])]
           (lockfile [("a@1.2.0", Lockfile.Entry (entry "1.1.0"))]).

(** The same, with an entry that grants permissions: one to [install],
    and one under the key [__proto__]. *)
Definition entry_with_permissions : Lockfile.LockManifest :=
  {| Lockfile.name := None; Lockfile.version := "1.1.0";
     Lockfile.resolved := None; Lockfile.integrity := None;
     Lockfile.registry := None; Lockfile.uid := None;
     Lockfile.permissions :=
       Some (list_to_map [("install", true); ("__proto__", true)]);
     Lockfile.optionalDependencies := None;
     Lockfile.dependencies := None; Lockfile.prebuiltVariants := None |}.

Definition permitted : PackageResolver.t :=
  resolver [("a@1.2.0", manifest 0 "a" "1.1.0" 0)]
           [("a", ["a@1.2.0"])]
           [(0, reference "a" "1.1.0" ["a@1.2.0"])]
           (lockfile [("a@1.2.0", Lockfile.Entry entry_with_permissions)]).


Definition stale_req : Types.DependencyRequestPattern :=
  {| Types.pattern := "a@1.2.0"; Types.req_registry := "npm";
     Types.optional := false; Types.parentNames := None |}.

(** A pattern that is a key of [patterns] while [patternsByPackage] has
    no list for its package. *)
Definition unindexed : PackageResolver.t :=
  resolver [("a@^1.0.0", manifest 0 "a" "1.1.0" 0)] [] [] (lockfile []).

(** [b@^1.0.0] is a string-valued slot that names the slot of
    [a@^1.0.0], which holds an entry without a name. *)
Definition linked : Lockfile.t :=
  lockfile [("b@^1.0.0", Lockfile.Link "a@^1.0.0");
            ("a@^1.0.0", Lockfile.Entry (entry "1.0.0"))].

(** Two string-valued slots that name each other. *)
Definition cyclic : Lockfile.t :=
  lockfile [("a@^1.0.0", Lockfile.Link "b@^1.0.0");
            ("b@^1.0.0", Lockfile.Link "a@^1.0.0")].

(** Flat mode: [c@*] was resolved to [c] 1.1.0 and [c@1.0.5] to [c]
    1.0.5; nothing is locked. *)
Definition flat_c : PackageResolver.t :=
  resolver [("c@*", manifest 1 "c" "1.1.0" 1); ("c@1.0.5", manifest 2 "c" "1.0.5" 2)]
           [("c", ["c@*"; "c@1.0.5"])]
           [(1, reference "c" "1.1.0" ["c@*"]);
            (2, reference "c" "1.0.5" ["c@1.0.5"])]
           (lockfile []).

(** Flat mode: [c@1.1.0] was resolved to [c] 1.1.0 and [c@1.0.5] to [c]
    1.0.5; nothing is locked, and no version fits both ranges. *)
Definition flat_apart : PackageResolver.t :=
  resolver [("c@1.1.0", manifest 1 "c" "1.1.0" 1);
            ("c@1.0.5", manifest 2 "c" "1.0.5" 2)]
           [("c", ["c@1.1.0"; "c@1.0.5"])]
           [(1, reference "c" "1.1.0" ["c@1.1.0"]);
            (2, reference "c" "1.0.5" ["c@1.0.5"])]
           (lockfile []).

(** The same registry, not in flat mode, and two requests of the
    package [app]. *)
Definition nested_c : PackageResolver.t :=
  {| PackageResolver.patterns := PackageResolver.patterns flat_c;
     PackageResolver.patternsByPackage := PackageResolver.patternsByPackage flat_c;
     PackageResolver.fetchingPatterns := ∅;
     PackageResolver.flat := false;
     PackageResolver.frozen := false;
     PackageResolver.lockfile := lockfile [];
     PackageResolver.refs := PackageResolver.refs flat_c;
     PackageResolver.delayQueue := [] |}.

Definition request_of_app (pattern : string) : Types.DependencyRequestPattern :=
  {| Types.pattern := pattern; Types.req_registry := "npm";
     Types.optional := false; Types.parentNames := Some ["app"] |}.

(** Flat mode, with a manifest shared by a locked and an unlocked
    pattern: [c@1.1.0] is locked and bound to [c] 1.1.0, [c@*] was
    resolved to that same manifest, [c@1.0.5] is bound to [c] 1.0.5 and
    [c@] to [c] 1.0.7. *)
Definition flat_shared : PackageResolver.t :=
  resolver [("c@1.1.0", manifest 1 "c" "1.1.0" 1); ("c@*", manifest 1 "c" "1.1.0" 1);
            ("c@1.0.5", manifest 2 "c" "1.0.5" 2); ("c@", manifest 3 "c" "1.0.7" 3)]
           [("c", ["c@1.1.0"; "c@*"; "c@1.0.5"; "c@"])]
           [(1, reference "c" "1.1.0" ["c@1.1.0"; "c@*"]);
            (2, reference "c" "1.0.5" ["c@1.0.5"]);
            (3, reference "c" "1.0.7" ["c@"])]
           (lockfile [("c@1.1.0", Lockfile.Entry (entry "1.1.0"))]).

(** Two patterns bound to one manifest of [c], inserted in either
    order. *)
Definition c_refs : gmap nat PackageReference.t :=
  list_to_map [(1, reference "c" "1.0.5" ["c@^1.0.0"; "c@~1.0.1"])].

Definition c_tilde_first : JsObject.t Types.Manifest :=
  [("c@~1.0.1", manifest 1 "c" "1.0.5" 1); ("c@^1.0.0", manifest 1 "c" "1.0.5" 1)].

Definition c_caret_first : JsObject.t Types.Manifest :=
  [("c@^1.0.0", manifest 1 "c" "1.0.5" 1); ("c@~1.0.1", manifest 1 "c" "1.0.5" 1)].

(** Two hashes: the first ends in [U+FF21] (bytes [EF BC A1]), the
    second in [U+1F600] (bytes [F0 9F 98 80], in UTF-16 the surrogates
    [D83D DE00]). *)
Definition wide_hash : string :=
  "h-" ++ String (ascii_of_nat 239) (String (ascii_of_nat 188)
            (String (ascii_of_nat 161) EmptyString)).

Definition astral_hash : string :=
  "h-" ++ String (ascii_of_nat 240) (String (ascii_of_nat 159)
            (String (ascii_of_nat 152) (String (ascii_of_nat 128) EmptyString))).

Definition wide_then_astral : string := wide_hash ++ " " ++ astral_hash.

Definition astral_then_wide : string := astral_hash ++ " " ++ wide_hash.


Definition ws_manifest (n v : option string) : Config.Manifest :=
  {| Config.name := n; Config.version := v; Config.private := false;
     Config.workspaces := None |}.

Definition ws_root : Config.Manifest :=
  {| Config.name := Some "root"; Config.version := Some "1.0.0";
     Config.private := true;
     Config.workspaces := Some (Config.WsArray ["packages/*"]) |}.




Definition config : Config.t :=
  {| Config.workspacesEnabled := true;
     Config.workspacesNohoistEnabled := true |}.

End Sample.

(* ===================================================================== *)
(** * Part II.  Vocabulary of the properties                              *)
(* ===================================================================== *)

(** A name without scope: not empty, and free of the separator. *)
Definition bare_name (n : string) : Prop :=
  n <> "" /\ Js.has_char "@"%char n = false.

(** A package name: a bare name, or [@] followed by a separator-free
    rest (as in [@scope/pkg]). *)
Definition package_name (n : string) : Prop :=
  bare_name n \/
  exists rest, n = String "@"%char rest /\ Js.has_char "@"%char rest = false.

(** A sequence of [addOptional] calls, first call first. *)
Definition addOptionals (bs : list bool) (r : PackageReference.t)
  : PackageReference.t :=
  foldl (fun r b => PackageReference.addOptional b r) r bs.

(** Lexicographic order on strings, by character code. *)
Definition str_le (a b : string) : Prop := String.compare a b <> Gt.

(** What the loop of [maxSatisfying] keeps true of [max] once it has gone
    through the versions [seen]. *)
Definition best_so_far (sat : string -> bool) (ge : relation string)
    (seen : list string) (max : option string) : Prop :=
  match max with
  | None => forall v, v ∈ seen -> sat v = false
  | Some m =>
      m ∈ seen /\ sat m = true /\
      forall w, w ∈ seen -> sat w = true -> ge m w
  end.

(** [chain c p k key]: following [k] string-valued slots of the cache [c]
    from [p] leads to [key]. *)
Inductive chain (c : gmap string Lockfile.CacheValue)
  : string -> nat -> string -> Prop :=
  | chain_here p : chain c p 0 p
  | chain_link p q k key :
      c !! p = Some (Lockfile.Link q) -> chain c q k key ->
      chain c p (S k) key.

(** The slot at [key] ends a chain: it is missing, or it holds an entry. *)
Definition terminal (c : gmap string Lockfile.CacheValue) (key : string) : Prop :=
  forall q, c !! key <> Some (Lockfile.Link q).













(** The remote key of the manifest a pattern is bound to. *)
Definition key_of (patterns : JsObject.t Types.Manifest) (p : string)
  : option string :=
  pkg ← JsObject.get patterns p;
  remote ← Types._remote pkg;
  Lockfile.keyForRemote remote.

(** The remote key in the words of the specification: the resolved URL
    of the remote, or else its reference and its hash joined by [#]; a
    part that is missing or empty does not count. *)
Definition remote_key (remote : Types.PackageRemote) : option string :=
  match Types.resolved remote, Types.reference remote, Types.hash remote with
  | Some (String c url), _, _ => Some (String c url)
  | _, String c ref, Some (String d h) =>
      Some (String c ref ++ "#" ++ String d h)
  | _, _, _ => None
  end.

(** The remote key of the manifest a pattern is bound to. *)
Definition remote_key_of (patterns : JsObject.t Types.Manifest) (p : string)
  : option string :=
  match JsObject.get patterns p with
  | Some pkg =>
      match Types._remote pkg with
      | Some remote => remote_key remote
      | None => None
      end
  | None => None
  end.

(** The entry [implodeEntry] builds for a pattern from its manifest. *)
Definition imploded (refs : gmap nat PackageReference.t)
    (patterns : JsObject.t Types.Manifest) (p : string)
  : option Lockfile.LockManifest :=
  pkg ← JsObject.get patterns p;
  ref ← Types._reference pkg ≫= (refs !!.);
  remote ← Types._remote pkg;
  Some (Lockfile.implodeEntry p (Lockfile.implodeArg pkg remote ref)).

(** Two entries that differ at most in their [name]. *)
Definition same_but_name (x y : Lockfile.LockManifest) : Prop :=
  Lockfile.set_name None x = Lockfile.set_name None y.

(** The object has no property [__proto__] of its own, as is the case of
    an object that was created by [{}] and filled by assignments. *)
Definition no_own_proto (lf : Lockfile.LockfileObject) : Prop :=
  JsObject.get (Lockfile.entries lf) Js.proto_key = None.

(** [p0] owns the entry at [a]: the entry was imploded from [p0]'s
    manifest (its name may have been set since), [lockfile[p0]] is that
    entry, and so is [lockfile[p]] for every pattern [p] of [later] that
    has the remote key [k]. *)
Definition owns (refs : gmap nat PackageReference.t)
    (patterns : JsObject.t Types.Manifest)
    (lf : Lockfile.LockfileObject) (p0 : string) (k : string)
    (later : list string) (a : nat) : Prop :=
  Lockfile.read lf p0 = Some a /\
  (exists obj e0, Lockfile.objects lf !! a = Some obj /\
                  imploded refs patterns p0 = Some e0 /\ same_but_name obj e0) /\
  (forall p, p ∈ later -> remote_key_of patterns p = Some k ->
             Lockfile.read lf p = Some a).

(** The invariant of the loop of [getLockfile], after the patterns
    [visited]. *)
Definition loop_inv (refs : gmap nat PackageReference.t)
    (patterns : JsObject.t Types.Manifest)
    (visited : list string) (st : Lockfile.LoopState) : Prop :=
  no_own_proto (Lockfile.lockfile st) /\
  (forall p, is_Some (Lockfile.read (Lockfile.lockfile st) p) <-> p ∈ visited) /\
  (forall l1 p0 l2 k,
     visited = (l1 ++ p0 :: l2)%list -> remote_key_of patterns p0 = Some k ->
     (forall p, p ∈ l1 -> remote_key_of patterns p <> Some k) ->
     exists a, Lockfile.seen st !! k = Some a /\
               owns refs patterns (Lockfile.lockfile st) p0 k l2 a) /\
  (forall k a, Lockfile.seen st !! k = Some a ->
               exists p, p ∈ visited /\ remote_key_of patterns p = Some k).

(** What a lookup can tell of a slot: the target of a link, or that it
    holds an entry. *)
Definition slot_shape (v : Lockfile.CacheValue) : option string :=
  match v with
  | Lockfile.Link q => Some q
  | Lockfile.Entry _ => None
  end.

(** The cache with every entry forgotten but for its presence. *)
Definition lockfile_shape (lf : Lockfile.t)
  : option (gmap string (option string)) :=
  match Lockfile.cache lf with
  | Some c => Some (slot_shape <$> c)
  | None => None
  end.

(** Whether [getLocked] finds an entry for the pattern. *)
Definition locked_status (lf : Lockfile.t) (p : string) : Result bool :=
  match Lockfile.getLocked lf p with
  | Ok (r, _) => Ok (bool_decide (is_Some r))
  | Throw e => Throw e
  end.

(** No chain of links runs in a circle: every lookup returns. *)
Definition lockfile_total (lf : Lockfile.t) : Prop :=
  forall p, exists b, locked_status lf p = Ok b.

(** The store after attaching [q] to the reference at [target]: every
    reference is still there with at least the patterns it had, and the
    one at [target] has [q]. *)
Definition attached (target : nat) (q : string)
    (R R' : gmap nat PackageReference.t) : Prop :=
  forall a r, R !! a = Some r ->
    exists r', R' !! a = Some r' /\
      (forall x, x ∈ PackageReference.patterns r -> x ∈ PackageReference.patterns r') /\
      (a = target -> q ∈ PackageReference.patterns r').

(** A pattern is well attached: it is bound to a manifest whose
    reference is in the store and lists the pattern. *)
Definition well_attached (this : PackageResolver.t) (p : string) : Prop :=
  exists m a r,
    PackageResolver.patterns this !! p = Some m /\
    Types._reference m = Some a /\
    PackageResolver.refs this !! a = Some r /\
    p ∈ PackageReference.patterns r.

(** The invariant of the second loop of [collapsePackageVersions]. *)
Definition collapse_inv (ps : list string) (pt : string) (mt : Types.Manifest)
    (visited : list string) (this : PackageResolver.t) : Prop :=
  (forall p, p ∈ ps -> well_attached this p) /\
  (forall p, p ∈ visited -> PackageResolver.patterns this !! p = Some mt) /\
  PackageResolver.patterns this !! pt = Some mt /\
  lockfile_total (PackageResolver.lockfile this).

(** A pattern can be collapsed: the lockfile has no entry for it, and its
    manifest does not come from a workspace. *)
Definition is_collapsable (this : PackageResolver.t) (p : string) : bool :=
  match locked_status (PackageResolver.lockfile this) p with
  | Ok false =>
      match PackageResolver.patterns this !! p with
      | Some m =>
          match Types._remote m with
          | None => true
          | Some r => negb (String.eqb (Types.type r) "workspace")
          end
      | None => false
      end
  | _ => false
  end.

(** Identity of the manifest a pattern is bound to. *)
Definition id_of (this : PackageResolver.t) (p : string) : option nat :=
  Types.m_id <$> PackageResolver.patterns this !! p.

(** Versions of the manifests the patterns are bound to. *)
Definition known_versions (this : PackageResolver.t) (ps : list string)
  : list string :=
  omap (fun p => Types.version <$> PackageResolver.patterns this !! p) ps.

(** A second invariant of the loop of [getLockfile]: every address in
    use holds an entry, every remote key seen is the key of a pattern
    bound to the address recorded for it, and an entry is shared only
    between patterns with one remote key. *)
Definition share_inv (patterns : JsObject.t Types.Manifest)
    (st : Lockfile.LoopState) : Prop :=
  no_own_proto (Lockfile.lockfile st) /\
  (forall p a, Lockfile.read (Lockfile.lockfile st) p = Some a ->
               a < List.length (Lockfile.objects (Lockfile.lockfile st))) /\
  (forall k a, Lockfile.seen st !! k = Some a ->
     exists p, key_of patterns p = Some k /\
               Lockfile.read (Lockfile.lockfile st) p = Some a) /\
  (forall p q a,
     Lockfile.read (Lockfile.lockfile st) p = Some a ->
     Lockfile.read (Lockfile.lockfile st) q = Some a ->
     p = q \/ exists k, key_of patterns p = Some k /\ key_of patterns q = Some k).

(** The index of the resolver is sound: every pattern bound to a manifest
    is listed under the manifest's name, and no list has a pattern
    twice. *)
Definition indexed (this : PackageResolver.t) : Prop :=
  (forall p m, PackageResolver.patterns this !! p = Some m ->
     exists l, PackageResolver.patternsByPackage this !! Types.name m = Some l /\
               p ∈ l) /\
  (forall n l, PackageResolver.patternsByPackage this !! n = Some l -> NoDup l).

(** [indexed], as a check that runs. *)
Definition indexedb (this : PackageResolver.t) : bool :=
  forallb (fun pm : string * Types.Manifest =>
             match PackageResolver.patternsByPackage this !! Types.name pm.2 with
             | Some l => bool_decide (pm.1 ∈ l)
             | None => false
             end)
          (map_to_list (PackageResolver.patterns this)) &&
  forallb (fun nl : string * list string => bool_decide (NoDup nl.2))
          (map_to_list (PackageResolver.patternsByPackage this)).

(** The list of patterns under a name, as [addPattern] reads it. *)
Definition listed (this : PackageResolver.t) (n : string) : list string :=
  default [] (PackageResolver.patternsByPackage this !! n).

(** Manifest identities tell manifests apart: two patterns bound to
    manifests with one identity are bound to one manifest. *)
Definition ids_faithful (this : PackageResolver.t) : Prop :=
  forall p q m m',
    PackageResolver.patterns this !! p = Some m ->
    PackageResolver.patterns this !! q = Some m' ->
    Types.m_id m = Types.m_id m' -> m = m'.

(** A key that JavaScript treats as an integer index (a canonical decimal
    numeral).  An object lists such keys first, in numeric order, wherever
    they were inserted; the insertion-ordered objects of [JsObject] are
    the objects without such keys. *)
Definition integer_key (k : string) : bool :=
  match k with
  | EmptyString => false
  | String c rest =>
      forallb (fun d => Ascii.leb "0" d && Ascii.leb d "9")%char
              (String.list_ascii_of_string k) &&
      (negb (Ascii.eqb c "0") || String.eqb rest "")
  end.

(** An object whose keys are distinct and listed in insertion order. *)
Definition plain_object {A} (o : JsObject.t A) : Prop :=
  JsObject.wf o /\ forall k, k ∈ JsObject.keys o -> integer_key k = false.

(** The inverse of [Js.utf16_rank]. *)
Definition utf16_unrank (c : ascii) : ascii :=
  let n := N_of_ascii c in
  if (n <? 238)%N then c
  else if (n <? 243)%N then ascii_of_N (n + 2)
  else if (n <? 245)%N then ascii_of_N (n - 5)
  else c.

(** A string without a character at or beyond [U+E000]: no byte of it
    is [0xEE] or more.  On such strings the order of the bytes is the
    order of the code units. *)
Definition below_E000 (s : string) : bool :=
  forallb (fun c => (N_of_ascii c <? 238)%N) (String.list_ascii_of_string s).

(* ===================================================================== *)
(** * Part III.  Properties                                               *)
(* ===================================================================== *)

(** ** Strings *)

Lemma split_not_nil sep s : Js.split sep s <> [].
Proof.
  destruct s as [|c s]; simpl; [discriminate|].
  destruct (Ascii.eqb c sep); [discriminate|].
  destruct (Js.split sep s); discriminate.
Qed.

Lemma split_without_sep sep s :
  Js.has_char sep s = false -> Js.split sep s = [s].
Proof.
  induction s as [|c s IH]; simpl; [reflexivity|].
  intros [Hc Hs]%orb_false_elim. rewrite Hc, (IH Hs). reflexivity.
Qed.

Lemma split_at_first_sep sep a b :
  Js.has_char sep a = false ->
  Js.split sep (a ++ String sep b) = a :: Js.split sep b.
Proof.
  induction a as [|c a IH]; simpl.
  - intros _. rewrite Ascii.eqb_refl. reflexivity.
  - intros [Hc Ha]%orb_false_elim. rewrite Hc, (IH Ha). reflexivity.
Qed.

Lemma join_split sep s : Js.join (String sep "") (Js.split sep s) = s.
Proof.
  induction s as [|c s IH]; simpl; [reflexivity|].
  destruct (Ascii.eqb_spec c sep) as [->|Hne].
  - pose proof (split_not_nil sep s) as Hnil.
    destruct (Js.split sep s) as [|p ps] eqn:E; [done|].
    cbn [Js.join]. simpl. rewrite <- IH. simpl. reflexivity.
  - pose proof (split_not_nil sep s) as Hnil.
    destruct (Js.split sep s) as [|p ps] eqn:E; [done|].
    destruct ps as [|q qs]; simpl in *; rewrite <- IH; reflexivity.
Qed.

Lemma split_length_after_sep sep a b :
  Js.has_char sep a = false ->
  Nat.ltb 1 (List.length (Js.split sep (a ++ String sep b))) = true.
Proof.
  intros Ha. rewrite (split_at_first_sep _ _ _ Ha).
  pose proof (split_not_nil sep b).
  destruct (Js.split sep b); [done|reflexivity].
Qed.

(** ** Pattern names *)

(** What [normalizePattern] does to [name@range] for a package name,
    whatever the range. *)
Lemma normalizePattern_name_at n r :
  package_name n ->
  NormalizePattern.normalizePattern (n ++ String "@"%char r)
  = if Js.truthy r then NormalizePattern.mk n r true
    else NormalizePattern.mk n "*" false.
Proof.
  assert (Hjoin : Js.join "@" (Js.split "@"%char r) = r) by apply join_split.
  intros [[Hne Hfree] | (rest & -> & Hfree)].
  - destruct n as [|c n]; [done|].
    unfold NormalizePattern.normalizePattern.
    assert (Hc : c <> "@"%char).
    { simpl in Hfree. apply orb_false_elim in Hfree as [Hc _].
      by apply Ascii.eqb_neq. }
    assert (Hscope :
      match (String c n ++ String "@"%char r) with
      | String "@"%char rest => (true, rest)
      | _ => (false, String c n ++ String "@"%char r)
      end = (false, String c n ++ String "@"%char r)).
    { simpl. destruct c as [[] [] [] [] [] [] [] []]; try reflexivity.
      by destruct Hc. }
    rewrite Hscope.
    rewrite (split_length_after_sep _ _ _ Hfree).
    rewrite (split_at_first_sep _ _ _ Hfree).
    rewrite Hjoin. by destruct (Js.truthy r).
  - unfold NormalizePattern.normalizePattern.
    change (String "@"%char rest ++ String "@"%char r)
      with (String "@"%char (rest ++ String "@"%char r)).
    cbv beta iota.
    rewrite (split_length_after_sep _ _ _ Hfree).
    rewrite (split_at_first_sep _ _ _ Hfree).
    rewrite Hjoin. by destruct (Js.truthy r).
Qed.

(** C4, as the code has it: for a package name [n] (bare or scoped), the
    pattern [n@] with an empty range part normalises to name [n], range
    [*] and [hasVersion = false]: the flag is set only in the branch
    where the range is not empty. *)
Theorem normalizePattern_empty_range n :
  package_name n ->
  NormalizePattern.normalizePattern (n ++ "@")
  = NormalizePattern.mk n "*" false.
Proof. intros Hn. by rewrite (normalizePattern_name_at n "" Hn). Qed.

Lemma normalizePattern_empty_range_witness :
  package_name "@scope/foo" /\
  NormalizePattern.normalizePattern ("@scope/foo" ++ "@")
  = NormalizePattern.mk "@scope/foo" "*" false.
Proof.
  assert (H : package_name "@scope/foo").
  { right. exists "scope/foo". split; reflexivity. }
  split; [exact H | exact (normalizePattern_empty_range "@scope/foo" H)].
Defined.

(** C4 fails as stated: [foo@] has an empty range part, and the result
    does not carry [hasVersion = true]. *)
Lemma normalizePattern_empty_range_hasVersion_false :
  ~ (NormalizePattern.range (NormalizePattern.normalizePattern "foo@") = "*" /\
     NormalizePattern.hasVersion (NormalizePattern.normalizePattern "foo@") = true).
Proof. intros [_ H]. vm_compute in H. discriminate. Qed.

(** C6, with the side condition it needs: for every package name [n]
    (not empty, no [@] except possibly the first character) and every
    non-empty range [r], [normalizePattern (n ++ "@" ++ r)] returns
    exactly [n], exactly [r], and [hasVersion = true]. *)
Theorem normalizePattern_left_inverse n r :
  package_name n -> r <> "" ->
  NormalizePattern.normalizePattern (n ++ "@" ++ r)
  = NormalizePattern.mk n r true.
Proof.
  intros Hn Hr. change ("@" ++ r) with (String "@"%char r).
  rewrite (normalizePattern_name_at n r Hn).
  destruct r; [done|reflexivity].
Qed.

Lemma normalizePattern_left_inverse_witness :
  NormalizePattern.normalizePattern ("@scope/pkg" ++ "@" ++ "^1.5.0")
  = NormalizePattern.mk "@scope/pkg" "^1.5.0" true.
Proof.
  apply (normalizePattern_left_inverse "@scope/pkg" "^1.5.0").
  - right. exists "scope/pkg". split; reflexivity.
  - discriminate.
Defined.

(** C6 fails for a non-empty name that holds a separator of its own: the
    first [@] ends the name. *)
Lemma normalizePattern_left_inverse_fails :
  "a@b" <> "" /\ "1" <> "" /\
  NormalizePattern.normalizePattern ("a@b" ++ "@" ++ "1")
  <> NormalizePattern.mk "a@b" "1" true.
Proof. repeat split; discriminate. Qed.

(** ** The [optional] flag of a reference *)

Lemma addOptional_required_stays b r :
  PackageReference.optional r = Some false ->
  PackageReference.optional (PackageReference.addOptional b r) = Some false.
Proof.
  intros H. unfold PackageReference.addOptional. rewrite H.
  destruct b; simpl; [exact H|reflexivity].
Qed.

Lemma addOptionals_required_stays bs r :
  PackageReference.optional r = Some false ->
  PackageReference.optional (addOptionals bs r) = Some false.
Proof.
  revert r. induction bs as [|b bs IH]; intros r H; simpl; [exact H|].
  apply IH, addOptional_required_stays, H.
Qed.

Lemma addOptionals_initialised bs o r :
  PackageReference.optional r = Some o ->
  PackageReference.optional (addOptionals bs r) = Some (o && forallb id bs).
Proof.
  revert o r. induction bs as [|b bs IH]; intros o r H; simpl.
  - by rewrite andb_true_r.
  - rewrite (IH (o && b)).
    + by rewrite andb_assoc.
    + unfold PackageReference.addOptional. rewrite H.
      destruct b; simpl.
      * by rewrite andb_true_r.
      * by rewrite andb_false_r.
Qed.

Lemma forallb_id_false bs : forallb id bs = false <-> false ∈ bs.
Proof.
  induction bs as [|[] bs IH]; simpl.
  - split; [discriminate|]. by intros ?%elem_of_nil.
  - rewrite IH. split; [by constructor|].
    intros [?|?]%elem_of_cons; [discriminate|done].
  - split; [by constructor|done].
Qed.

(** C8: after construction [optional] is null; after a non-empty sequence
    of [addOptional] calls it is initialised, and it is required ([false])
    exactly when some call passed [false]; once a call has passed [false]
    no later sequence of calls makes it optional again. *)
Theorem addOptional_monotone_join n v u rem (bs : list bool) :
  let r0 := PackageReference.new n v u rem in
  PackageReference.optional r0 = None /\
  PackageReference.optional (addOptionals bs r0)
    = match bs with [] => None | _ :: _ => Some (forallb id bs) end /\
  (PackageReference.optional (addOptionals bs r0) = Some false <-> false ∈ bs) /\
  (forall cs, PackageReference.optional (addOptionals bs r0) = Some false ->
              PackageReference.optional (addOptionals (bs ++ cs) r0)
              = Some false).
Proof.
  intros r0.
  assert (Hval : PackageReference.optional (addOptionals bs r0)
                 = match bs with [] => None | _ :: _ => Some (forallb id bs) end).
  { destruct bs as [|b bs]; [reflexivity|].
    change (addOptionals (b :: bs) r0)
      with (addOptionals bs (PackageReference.addOptional b r0)).
    rewrite (addOptionals_initialised bs b); [reflexivity|reflexivity]. }
  split; [reflexivity|]. split; [exact Hval|]. split.
  - rewrite Hval. destruct bs as [|b bs].
    + split; [discriminate|]. by intros ?%elem_of_nil.
    + split.
      * intros [= H]. by apply forallb_id_false.
      * intros H. f_equal. by apply forallb_id_false.
  - intros cs H. unfold addOptionals. rewrite foldl_app.
    by apply addOptionals_required_stays.
Qed.

(** ** The constraint reducer *)

Lemma last_elem_None {A} (l : list A) : Js.last_elem l = None <-> l = [].
Proof. unfold Js.last_elem. apply last_None. Qed.

(** C7: for the literal [latest], [reduce] returns the last element of
    [versions] (none only for the empty list); for any other range it
    returns, under the [looseSemver] flag of the config, an element of
    [versions] that satisfies the range and is at least as high as every
    other satisfying element, and it returns none only when no element
    satisfies the range.  The second half rests on the documented contract
    of [semver.maxSatisfying]. *)
Theorem reduce_spec (sv : Semver.lib) (this : PackageConstraintResolver.t)
    (versions : list string) (range : string) :
  Semver.maxSatisfying_contract sv ->
  let loose := PackageConstraintResolver.looseSemver
                 (PackageConstraintResolver.config this) in
  let r := PackageConstraintResolver.reduce sv this versions range in
  (range = "latest" -> r = last versions /\ (r = None <-> versions = [])) /\
  (range <> "latest" ->
     match r with
     | Some v =>
         v ∈ versions /\ Semver.satisfies sv v range loose = true /\
         forall w, w ∈ versions -> Semver.satisfies sv w range loose = true ->
                   Semver.ge sv v w
     | None =>
         forall v, v ∈ versions -> Semver.satisfies sv v range loose = false
     end).
Proof.
  intros Hsv loose r. subst r. unfold PackageConstraintResolver.reduce. split.
  - intros ->. simpl. split; [reflexivity|apply last_elem_None].
  - intros Hne. apply String.eqb_neq in Hne. rewrite Hne.
    apply (Hsv versions range loose).
Qed.

(** *** The instance of [semver] honours the contracts *)

Lemma ascii_compare_refl c : Ascii.compare c c = Eq.
Proof. unfold Ascii.compare. apply N.compare_refl. Qed.

Lemma ascii_compare_trans_lt a b c :
  Ascii.compare a b = Lt -> Ascii.compare b c = Lt -> Ascii.compare a c = Lt.
Proof.
  unfold Ascii.compare. rewrite !N.compare_lt_iff. apply N.lt_trans.
Qed.

Lemma string_compare_refl s : String.compare s s = Eq.
Proof.
  induction s as [|c s IH]; simpl; [reflexivity|].
  by rewrite ascii_compare_refl.
Qed.

Lemma string_compare_Eq a b : String.compare a b = Eq <-> a = b.
Proof.
  split; [apply String.compare_eq_iff|intros ->; apply string_compare_refl].
Qed.

Lemma string_compare_Gt_Lt a b :
  String.compare a b = Gt <-> String.compare b a = Lt.
Proof.
  rewrite (String.compare_antisym b a).
  destruct (String.compare a b); simpl; split; congruence.
Qed.

Lemma string_compare_trans_lt a b c :
  String.compare a b = Lt -> String.compare b c = Lt ->
  String.compare a c = Lt.
Proof.
  revert b c. induction a as [|x a IH]; intros [|y b] [|z c]; simpl;
    try congruence.
  destruct (Ascii.compare x y) eqn:Exy; try congruence;
    destruct (Ascii.compare y z) eqn:Eyz; try congruence.
  - apply Ascii.compare_eq_iff in Exy as ->.
    apply Ascii.compare_eq_iff in Eyz as ->.
    rewrite ascii_compare_refl. apply IH.
  - apply Ascii.compare_eq_iff in Exy as ->. by rewrite Eyz.
  - apply Ascii.compare_eq_iff in Eyz as ->. by rewrite Exy.
  - by rewrite (ascii_compare_trans_lt _ _ _ Exy Eyz).
Qed.

Lemma str_le_total a b : str_le a b \/ str_le b a.
Proof.
  unfold str_le. destruct (String.compare a b) eqn:E.
  - left; congruence.
  - left; congruence.
  - right. apply string_compare_Gt_Lt in E. congruence.
Qed.

Lemma str_le_trans a b c : str_le a b -> str_le b c -> str_le a c.
Proof.
  unfold str_le. intros Hab Hbc Hac.
  destruct (String.compare a b) eqn:Eab; [| |done].
  - apply string_compare_Eq in Eab as ->. done.
  - destruct (String.compare b c) eqn:Ebc; [| |done].
    + apply string_compare_Eq in Ebc as ->. congruence.
    + rewrite (string_compare_trans_lt _ _ _ Eab Ebc) in Hac. done.
Qed.

Lemma str_le_antisym a b : str_le a b -> str_le b a -> a = b.
Proof.
  unfold str_le. intros Hab Hba.
  destruct (String.compare a b) eqn:E; [|exfalso|done].
  - by apply string_compare_Eq.
  - apply Hba. by apply string_compare_Gt_Lt.
Qed.

Lemma precedes_sortAlpha a b : Misc.precedes Misc.sortAlpha a b <-> str_le a b.
Proof.
  unfold Misc.precedes, Misc.sortAlpha, str_le.
  destruct (String.compare a b); split; intros; try done; try lia.
Qed.

Lemma instance_ge a b : Semver.ge Instance.semver a b <-> str_le b a.
Proof. apply precedes_sortAlpha. Qed.

Lemma instance_rcompare_consistent : Semver.rcompare_consistent Instance.semver.
Proof.
  split.
  - intros a b. rewrite !instance_ge. destruct (str_le_total a b); auto.
  - intros a b c. rewrite !instance_ge. intros ? ?. by eapply str_le_trans.
Qed.

Lemma maxSatisfying_loop sat (rcmp : string -> string -> Z) :
  (forall a b, (rcmp a b <= 0)%Z \/ (rcmp b a <= 0)%Z) ->
  (forall a b c, (rcmp a b <= 0)%Z -> (rcmp b c <= 0)%Z -> (rcmp a c <= 0)%Z) ->
  forall todo seen max,
    best_so_far sat (fun a b => (rcmp a b <= 0)%Z) seen max ->
    best_so_far sat (fun a b => (rcmp a b <= 0)%Z) (seen ++ todo)%list
      (foldl (Instance.maxSatisfying_step sat rcmp) max todo).
Proof.
  intros Htot Htrans todo.
  assert (Hrefl : forall a, (rcmp a a <= 0)%Z) by (intros a; by destruct (Htot a a)).
  induction todo as [|v todo IH]; intros seen max Hinv; simpl.
  - by rewrite app_nil_r.
  - replace (seen ++ v :: todo)%list with ((seen ++ [v]) ++ todo)%list
      by (by rewrite <- app_assoc).
    apply IH. unfold Instance.maxSatisfying_step.
    destruct (sat v) eqn:Hv.
    + destruct max as [m|]; simpl in *.
      * destruct Hinv as (Hin & Hm & Hmax).
        destruct (Z.ltb_spec 0 (rcmp m v)) as [Hlt|Hle]; simpl.
        -- split; [set_solver|]. split; [done|].
           assert (Hvm : (rcmp v m <= 0)%Z) by (destruct (Htot m v); [lia|done]).
           intros w [Hw| ->%list_elem_of_singleton]%elem_of_app Hsat.
           ++ eapply Htrans; [exact Hvm|by apply Hmax].
           ++ apply Hrefl.
        -- split; [set_solver|]. split; [done|].
           intros w [Hw| ->%list_elem_of_singleton]%elem_of_app Hsat.
           ++ by apply Hmax.
           ++ done.
      * split; [set_solver|]. split; [done|].
        intros w [Hw| ->%list_elem_of_singleton]%elem_of_app Hsat.
        -- by rewrite (Hinv w Hw) in Hsat.
        -- apply Hrefl.
    + destruct max as [m|]; simpl in *.
      * destruct Hinv as (Hin & Hm & Hmax).
        split; [set_solver|]. split; [done|].
        intros w [Hw| ->%list_elem_of_singleton]%elem_of_app Hsat.
        -- by apply Hmax.
        -- congruence.
      * intros w [Hw| ->%list_elem_of_singleton]%elem_of_app; [by apply Hinv|done].
Qed.

Lemma instance_maxSatisfying_contract :
  Semver.maxSatisfying_contract Instance.semver.
Proof.
  intros versions range loose.
  pose proof instance_rcompare_consistent as [Htot Htrans].
  pose proof (maxSatisfying_loop
                (fun v => Instance.satisfies v range loose) Instance.rcompare
                Htot Htrans versions [] None) as H.
  simpl in H. apply H. by intros v ?%elem_of_nil.
Qed.

Lemma reduce_spec_witness :
  ("1.1.0" = "latest" ->
     PackageConstraintResolver.reduce Instance.semver
       {| PackageConstraintResolver.config :=
            {| PackageConstraintResolver.looseSemver := false |} |}
       ["1.0.0"; "1.1.0"; "2.0.0"] "1.1.0"
     = last ["1.0.0"; "1.1.0"; "2.0.0"] /\
     (PackageConstraintResolver.reduce Instance.semver
        {| PackageConstraintResolver.config :=
             {| PackageConstraintResolver.looseSemver := false |} |}
        ["1.0.0"; "1.1.0"; "2.0.0"] "1.1.0" = None
      <-> ["1.0.0"; "1.1.0"; "2.0.0"] = [])) /\
  ("1.1.0" <> "latest" ->
     match PackageConstraintResolver.reduce Instance.semver
             {| PackageConstraintResolver.config :=
                  {| PackageConstraintResolver.looseSemver := false |} |}
             ["1.0.0"; "1.1.0"; "2.0.0"] "1.1.0"
     with
     | Some v =>
         v ∈ ["1.0.0"; "1.1.0"; "2.0.0"] /\
         Semver.satisfies Instance.semver v "1.1.0" false = true /\
         forall w, w ∈ ["1.0.0"; "1.1.0"; "2.0.0"] ->
                   Semver.satisfies Instance.semver w "1.1.0" false = true ->
                   Semver.ge Instance.semver v w
     | None =>
         forall v, v ∈ ["1.0.0"; "1.1.0"; "2.0.0"] ->
                   Semver.satisfies Instance.semver v "1.1.0" false = false
     end).
Proof.
  exact (reduce_spec Instance.semver
           {| PackageConstraintResolver.config :=
                {| PackageConstraintResolver.looseSemver := false |} |}
           ["1.0.0"; "1.1.0"; "2.0.0"] "1.1.0"
           instance_maxSatisfying_contract).
Defined.

(** ** The pattern registry of the resolver *)

Lemma indexOf_Some_split x arr i :
  Js.indexOf x arr = Some i ->
  exists l1 l2, arr = (l1 ++ x :: l2)%list /\ (x ∉ l1) /\ List.length l1 = i.
Proof.
  revert i. induction arr as [|y arr IH]; intros i; simpl; [discriminate|].
  destruct (String.eqb_spec y x) as [->|Hne].
  - intros [= <-]. exists [], arr. split; [done|]. split; [|done].
    by intros ?%elem_of_nil.
  - destruct (Js.indexOf x arr) as [j|]; simpl; [|discriminate].
    intros [= <-]. destruct (IH j eq_refl) as (l1 & l2 & -> & Hnot & Hlen).
    exists (y :: l1), l2. split; [done|]. split; [|simpl; by rewrite Hlen].
    intros [?|?]%elem_of_cons; congruence.
Qed.

Lemma indexOf_None x arr : Js.indexOf x arr = None <-> x ∉ arr.
Proof.
  induction arr as [|y arr IH]; simpl.
  - split; [by intros _ ?%elem_of_nil|done].
  - destruct (String.eqb_spec y x) as [->|Hne].
    + split; [discriminate|]. intros []. by left.
    + destruct (Js.indexOf x arr) eqn:E; simpl.
      * split; [discriminate|]. intros Hnot. exfalso.
        assert (x ∉ arr) as Hx by (intros ?; apply Hnot; by right).
        apply IH in Hx. discriminate.
      * split; [|done]. intros _ [?|?]%elem_of_cons; [congruence|].
        by apply (proj1 IH).
Qed.

Lemma remove_at_middle (l1 l2 : list string) x :
  Js.remove_at (List.length l1) (l1 ++ x :: l2) = (l1 ++ l2)%list.
Proof.
  unfold Js.remove_at. induction l1 as [|y l1 IH]; simpl.
  - by rewrite drop_0.
  - by rewrite IH.
Qed.

(** [splice(indexOf(x), 1)] on a list that holds [x]: the first
    occurrence of [x] goes, the rest stays in place. *)
Lemma splice_indexOf_present x arr :
  x ∈ arr ->
  exists l1 l2, arr = (l1 ++ x :: l2)%list /\ (x ∉ l1) /\
                Js.splice_indexOf x arr = (l1 ++ l2)%list.
Proof.
  intros Hin. unfold Js.splice_indexOf.
  destruct (Js.indexOf x arr) as [i|] eqn:E.
  - destruct (indexOf_Some_split _ _ _ E) as (l1 & l2 & -> & Hnot & <-).
    exists l1, l2. split; [done|]. split; [done|]. apply remove_at_middle.
  - by apply indexOf_None in E.
Qed.

(** The fields [removePattern] never writes. *)
Lemma removePattern_untouched pattern this :
  let this' := PackageResolver.removePattern pattern this in
  PackageResolver.fetchingPatterns this' = PackageResolver.fetchingPatterns this /\
  PackageResolver.flat this' = PackageResolver.flat this /\
  PackageResolver.frozen this' = PackageResolver.frozen this /\
  PackageResolver.lockfile this' = PackageResolver.lockfile this /\
  PackageResolver.refs this' = PackageResolver.refs this /\
  PackageResolver.delayQueue this' = PackageResolver.delayQueue this.
Proof.
  cbv zeta. unfold PackageResolver.removePattern.
  destruct (PackageResolver.patterns this !! pattern) as [pkg|];
    [|by repeat split].
  destruct (PackageResolver.patternsByPackage this !! Types.name pkg);
    by repeat split.
Qed.

Lemma removePattern_frozen pattern this :
  PackageResolver.frozen (PackageResolver.removePattern pattern this)
  = PackageResolver.frozen this.
Proof. apply (removePattern_untouched pattern this). Qed.

Lemma removePattern_lockfile pattern this :
  PackageResolver.lockfile (PackageResolver.removePattern pattern this)
  = PackageResolver.lockfile this.
Proof. apply (removePattern_untouched pattern this). Qed.

Lemma removePattern_refs pattern this :
  PackageResolver.refs (PackageResolver.removePattern pattern this)
  = PackageResolver.refs this.
Proof. apply (removePattern_untouched pattern this). Qed.


(** C9, as the code has it.  [removePattern] leaves the resolver as it is
    when the pattern is not a key of [patterns], and also when it is a key
    but [patternsByPackage] has no list for the manifest's name (the
    second guard).  When the pattern is a key and the list for the
    manifest's name holds it, the call deletes exactly that key from
    [patterns], removes exactly the first occurrence of the pattern from
    that list, and changes nothing else. *)
Theorem removePattern_frame (this : PackageResolver.t) (pattern : string) :
  (PackageResolver.patterns this !! pattern = None ->
   PackageResolver.removePattern pattern this = this) /\
  (forall pkg,
     PackageResolver.patterns this !! pattern = Some pkg ->
     PackageResolver.patternsByPackage this !! Types.name pkg = None ->
     PackageResolver.removePattern pattern this = this) /\
  (forall pkg byName,
     PackageResolver.patterns this !! pattern = Some pkg ->
     PackageResolver.patternsByPackage this !! Types.name pkg = Some byName ->
     pattern ∈ byName ->
     let this' := PackageResolver.removePattern pattern this in
     PackageResolver.patterns this' = delete pattern (PackageResolver.patterns this) /\
     PackageResolver.patterns this' !! pattern = None /\
     (forall q, q <> pattern ->
        PackageResolver.patterns this' !! q = PackageResolver.patterns this !! q) /\
     (exists l1 l2, byName = (l1 ++ pattern :: l2)%list /\ (pattern ∉ l1) /\
        PackageResolver.patternsByPackage this' !! Types.name pkg
        = Some (l1 ++ l2)%list) /\
     (forall n, n <> Types.name pkg ->
        PackageResolver.patternsByPackage this' !! n
        = PackageResolver.patternsByPackage this !! n) /\
     PackageResolver.fetchingPatterns this' = PackageResolver.fetchingPatterns this /\
     PackageResolver.flat this' = PackageResolver.flat this /\
     PackageResolver.frozen this' = PackageResolver.frozen this /\
     PackageResolver.lockfile this' = PackageResolver.lockfile this /\
     PackageResolver.refs this' = PackageResolver.refs this /\
     PackageResolver.delayQueue this' = PackageResolver.delayQueue this).
Proof.
  unfold PackageResolver.removePattern. split; [|split].
  - by intros ->.
  - by intros pkg -> ->.
  - intros pkg byName -> -> Hin. simpl.
    destruct (splice_indexOf_present _ _ Hin) as (l1 & l2 & Harr & Hnot & Hsp).
    split; [done|]. split; [apply lookup_delete_eq|].
    split; [by intros q Hq; apply lookup_delete_ne|].
    split.
    { exists l1, l2. split; [done|]. split; [done|].
      by rewrite lookup_insert_eq, Hsp. }
    split; [by intros n Hn; apply lookup_insert_ne|done].
Qed.

Lemma removePattern_frame_witness :
  PackageResolver.patterns Sample.stale !! "a@1.2.0"
    = Some (Sample.manifest 0 "a" "1.1.0" 0) /\
  PackageResolver.patterns
    (PackageResolver.removePattern "a@1.2.0" Sample.stale) !! "a@1.2.0" = None /\
  PackageResolver.lockfile (PackageResolver.removePattern "a@1.2.0" Sample.stale)
    = PackageResolver.lockfile Sample.stale.
Proof.
  assert (Hp : PackageResolver.patterns Sample.stale !! "a@1.2.0"
               = Some (Sample.manifest 0 "a" "1.1.0" 0)) by reflexivity.
  assert (Hb : PackageResolver.patternsByPackage Sample.stale
                 !! Types.name (Sample.manifest 0 "a" "1.1.0" 0)
               = Some ["a@1.2.0"]) by reflexivity.
  assert (Hin : "a@1.2.0" ∈ ["a@1.2.0"]) by (apply list_elem_of_In; simpl; auto).
  destruct (removePattern_frame Sample.stale "a@1.2.0") as (_ & _ & H).
  destruct (H _ _ Hp Hb Hin) as (_ & Hgone & _ & _ & _ & _ & _ & _ & Hlf & _).
  split; [exact Hp|]. split; [exact Hgone|exact Hlf].
Defined.

(** C9 fails as stated: here the pattern is a key of [patterns], yet the
    call does not delete its entry, because [patternsByPackage] has no list
    for the manifest's name and the second guard returns early. *)
Lemma removePattern_keeps_unindexed_key :
  is_Some (PackageResolver.patterns Sample.unindexed !! "a@^1.0.0") /\
  PackageResolver.patterns
    (PackageResolver.removePattern "a@^1.0.0" Sample.unindexed) !! "a@^1.0.0"
  <> None.
Proof. split; [by eexists|]. vm_compute. discriminate. Qed.

(** ** Stale lockfile entries *)

Lemma truthy_opt_validRange_true o : Js.truthy_opt o = true -> is_Some o.
Proof. destruct o; [by eexists|discriminate]. Qed.

Lemma resolver_getLocked_inv pattern this shrunk this' :
  PackageResolver.getLocked pattern this = Ok (shrunk, this') ->
  exists lf, Lockfile.getLocked (PackageResolver.lockfile this) pattern
             = Ok (shrunk, lf) /\
             this' = PackageResolver.set_lockfile lf this.
Proof.
  unfold PackageResolver.getLocked.
  destruct (Lockfile.getLocked _ _) as [[s lf]|e]; simpl; [|discriminate].
  intros [= <- <-]. by exists lf.
Qed.





(** ** Lockfile lookup *)

Lemma chain_deterministic c p k1 key1 k2 key2 :
  chain c p k1 key1 -> terminal c key1 ->
  chain c p k2 key2 -> terminal c key2 ->
  k1 = k2 /\ key1 = key2.
Proof.
  intros H1. revert k2 key2.
  induction H1 as [p|p q k key Hp H1 IH]; intros k2 key2 Ht1 H2 Ht2.
  - inversion H2 as [|? q ? ? Hq]; subst; [done|]. by destruct (Ht1 q).
  - inversion H2 as [|? q' ? ? Hq]; subst.
    + by destruct (Ht2 q).
    + rewrite Hp in Hq. injection Hq as <-.
      destruct (IH _ _ Ht1 H Ht2) as [-> ->]. done.
Qed.

Lemma terminal_delete c p key : terminal c key -> terminal (delete p c) key.
Proof.
  intros Ht q. destruct (decide (p = key)) as [->|Hne].
  - by rewrite lookup_delete_eq.
  - rewrite lookup_delete_ne by done. apply Ht.
Qed.

(** A chain that ends does not come back to a slot it has left. *)
Lemma chain_delete c p q k key :
  chain c q k key -> terminal c key ->
  (forall k' key', chain c p k' key' -> terminal c key' -> k < k') ->
  chain (delete p c) q k key.
Proof.
  intros H. induction H as [q|q q2 k key Hq H IH]; intros Ht Hlonger.
  - constructor.
  - assert (q <> p) as Hne.
    { intros ->. specialize (Hlonger (S k) key (chain_link _ _ _ _ _ Hq H) Ht). lia. }
    econstructor.
    + rewrite lookup_delete_ne by done. exact Hq.
    + apply IH; [done|]. intros k' key' Hc Hk. specialize (Hlonger k' key' Hc Hk). lia.
Qed.

(** So a chain that ends is no longer than the cache is large. *)
Lemma chain_bound k : forall c p key,
  chain c p k key -> terminal c key -> k <= size c.
Proof.
  induction k as [|k IH]; intros c p key H Ht; [lia|].
  inversion H as [|? q ? ? Hp Hq]; subst.
  assert (chain (delete p c) q k key) as Hdel.
  { apply chain_delete; [done|done|].
    intros k' key' Hc Hk.
    destruct (chain_deterministic _ _ _ _ _ _ H Ht Hc Hk) as [<- _]. lia. }
  pose proof (IH _ _ _ Hdel (terminal_delete _ p _ Ht)) as Hle.
  rewrite map_size_delete_Some in Hle by (by eexists).
  assert (size c <> 0).
  { intros Hz%map_size_empty_inv. by rewrite Hz, lookup_empty in Hp. }
  lia.
Qed.

(** With enough stack for the chain, [getLocked_rec] answers by what the
    end of the chain holds. *)
Lemma getLocked_rec_chain c this p k key depth :
  Lockfile.cache this = Some c ->
  chain c p k key -> terminal c key -> k < depth ->
  Lockfile.getLocked_rec depth this p
  = match c !! key with
    | Some (Lockfile.Entry e) =>
        Ok (Some (Lockfile.explodeEntry key e),
            Lockfile.set_cache
              (Some (<[key := Lockfile.Entry (Lockfile.explodeEntry key e)]> c))
              this)
    | _ => Ok (None, this)
    end.
Proof.
  intros Hc H. revert depth.
  induction H as [p|p q k key Hp H IH]; intros depth Ht Hlt.
  - destruct depth as [|depth]; [lia|]. simpl. rewrite Hc.
    destruct (c !! p) as [[q|e]|] eqn:E; try done. by destruct (Ht q).
  - destruct depth as [|depth]; [lia|]. simpl. rewrite Hc, Hp.
    apply IH; [done|lia].
Qed.

(** The stack [getLocked] starts with is enough for every chain that
    ends. *)
Lemma getLocked_rec_enough c this p k key :
  Lockfile.cache this = Some c ->
  chain c p k key -> terminal c key ->
  Lockfile.getLocked this p
  = match c !! key with
    | Some (Lockfile.Entry e) =>
        Ok (Some (Lockfile.explodeEntry key e),
            Lockfile.set_cache
              (Some (<[key := Lockfile.Entry (Lockfile.explodeEntry key e)]> c))
              this)
    | _ => Ok (None, this)
    end.
Proof.
  intros Hc H Ht. unfold Lockfile.getLocked.
  apply (getLocked_rec_chain c this p k key); try done.
  unfold Lockfile.stack_depth. rewrite Hc. simpl.
  pose proof (chain_bound _ _ _ _ H Ht). lia.
Qed.




(** Links that form a cycle exhaust the stack: no record, and no none. *)
Lemma getLocked_cycle_overflows :
  Lockfile.getLocked Sample.cyclic "a@^1.0.0"
  = Throw (RangeError "Maximum call stack size exceeded").
Proof. vm_compute. reflexivity. Qed.

(** ** Workspaces *)










(** ** Serialising the lockfile *)

Lemma for_of_ext {A S} (body1 body2 : A -> S -> Result S) xs :
  (forall x s, x ∈ xs -> body1 x s = body2 x s) ->
  forall s, for_of xs body1 s = for_of xs body2 s.
Proof.
  induction xs as [|x xs IH]; intros Hext s; [reflexivity|].
  cbn [for_of]. rewrite (Hext x s) by (by left).
  destruct (body2 x s) as [s'|e]; [|reflexivity].
  cbn [mbind Result_bind]. apply IH. intros y s'' Hy. apply Hext. by right.
Qed.

(** Loop invariants: what holds before the loop and is kept by every
    iteration holds after it. *)
Lemma for_of_invariant {A S} (body : A -> S -> Result S)
    (I : list A -> S -> Prop) (total : list A) :
  (forall seen x rest s s',
     total = (seen ++ x :: rest)%list -> I seen s -> body x s = Ok s' ->
     I (seen ++ [x])%list s') ->
  forall s0 s', I [] s0 -> for_of total body s0 = Ok s' -> I total s'.
Proof.
  intros Hstep.
  assert (forall todo seen s s',
            total = (seen ++ todo)%list -> I seen s ->
            for_of todo body s = Ok s' -> I total s') as Hgen.
  { induction todo as [|x todo IH]; intros seen s s' Htot HI Hrun.
    - simpl in Hrun. injection Hrun as <-. by rewrite Htot, app_nil_r.
    - cbn [for_of] in Hrun.
      destruct (body x s) as [s1|e] eqn:Hb; [|discriminate].
      cbn [mbind Result_bind] in Hrun.
      apply (IH (seen ++ [x])%list s1 s').
      + by rewrite <- app_assoc.
      + by eapply Hstep.
      + done. }
  intros s0 s' HI Hrun. by apply (Hgen total [] s0 s').
Qed.

#[local] Instance precedes_sortAlpha_total : Total (Misc.precedes Misc.sortAlpha).
Proof.
  intros a b. rewrite !precedes_sortAlpha. apply str_le_total.
Qed.

#[local] Instance precedes_sortAlpha_trans :
  Transitive (Misc.precedes Misc.sortAlpha).
Proof.
  intros a b c. rewrite !precedes_sortAlpha. apply str_le_trans.
Qed.

#[local] Instance precedes_sortAlpha_antisym :
  AntiSymm eq (Misc.precedes Misc.sortAlpha).
Proof.
  intros a b. rewrite !precedes_sortAlpha. apply str_le_antisym.
Qed.

Lemma JsObject_get_Some {A} (o : JsObject.t A) k :
  is_Some (JsObject.get o k) <-> k ∈ JsObject.keys o.
Proof.
  unfold JsObject.keys. induction o as [|[k' v] o IH]; simpl.
  - split; [by intros [? ?]|by intros ?%elem_of_nil].
  - destruct (String.eqb_spec k' k) as [->|Hne].
    + split; [by left|by eexists].
    + rewrite IH. split; [by right|].
      intros [?|?]%elem_of_cons; [congruence|done].
Qed.

(** Two objects with the same bindings have the same keys, up to order. *)
Lemma same_mapping_keys {A} (o1 o2 : JsObject.t A) :
  JsObject.wf o1 -> JsObject.wf o2 ->
  (forall k, JsObject.get o1 k = JsObject.get o2 k) ->
  JsObject.keys o1 ≡ₚ JsObject.keys o2.
Proof.
  intros Hwf1 Hwf2 Hsame. apply NoDup_Permutation; [done|done|].
  intros k. by rewrite <- !JsObject_get_Some, Hsame.
Qed.

(** The sorted keys do not depend on the order of insertion. *)
Lemma sorted_keys_unique {A} (o1 o2 : JsObject.t A) :
  JsObject.wf o1 -> JsObject.wf o2 ->
  (forall k, JsObject.get o1 k = JsObject.get o2 k) ->
  Misc.sort_by Misc.sortAlpha (JsObject.keys o1)
  = Misc.sort_by Misc.sortAlpha (JsObject.keys o2).
Proof.
  intros Hwf1 Hwf2 Hsame. unfold Misc.sort_by.
  apply (Sorted_unique (Misc.precedes Misc.sortAlpha)).
  - apply Sorted_merge_sort, _.
  - apply Sorted_merge_sort, _.
  - rewrite !merge_sort_Permutation. by apply same_mapping_keys.
Qed.

Lemma getLockfile_body_ext refs (o1 o2 : JsObject.t Types.Manifest) p st :
  JsObject.get o1 p = JsObject.get o2 p ->
  Lockfile.getLockfile_body refs o1 p st = Lockfile.getLockfile_body refs o2 p st.
Proof. intros H. unfold Lockfile.getLockfile_body. by rewrite H. Qed.

Lemma getLockfile_insertion_order refs (o1 o2 : JsObject.t Types.Manifest) :
  JsObject.wf o1 -> JsObject.wf o2 ->
  (forall k, JsObject.get o1 k = JsObject.get o2 k) ->
  Lockfile.getLockfile refs o1 = Lockfile.getLockfile refs o2.
Proof.
  intros Hwf1 Hwf2 Hsame. unfold Lockfile.getLockfile.
  rewrite (sorted_keys_unique o1 o2 Hwf1 Hwf2 Hsame).
  rewrite (for_of_ext (Lockfile.getLockfile_body refs o1)
                      (Lockfile.getLockfile_body refs o2)); [done|].
  intros p st _. by apply getLockfile_body_ext.
Qed.

Lemma JsObject_keys_set_fresh {A} (o : JsObject.t A) k v :
  k ∉ JsObject.keys o -> JsObject.keys (JsObject.set k v o) = (JsObject.keys o ++ [k])%list.
Proof.
  unfold JsObject.keys. induction o as [|[k' v'] o IH]; simpl; [done|].
  intros Hk. destruct (String.eqb_spec k' k) as [->|Hne].
  - destruct Hk. by left.
  - simpl. f_equal. apply IH. intros ?. apply Hk. by right.
Qed.

Lemma JsObject_get_set_eq {A} (o : JsObject.t A) k v :
  JsObject.get (JsObject.set k v o) k = Some v.
Proof.
  induction o as [|[k' v'] o IH]; simpl.
  - by rewrite String.eqb_refl.
  - destruct (String.eqb_spec k' k) as [->|Hne]; simpl.
    + by rewrite String.eqb_refl.
    + by apply String.eqb_neq in Hne as ->.
Qed.

Lemma JsObject_get_set_ne {A} (o : JsObject.t A) k k' v :
  k <> k' -> JsObject.get (JsObject.set k v o) k' = JsObject.get o k'.
Proof.
  intros Hne. induction o as [|[k0 v0] o IH]; simpl.
  - by apply String.eqb_neq in Hne as ->.
  - destruct (String.eqb_spec k0 k) as [->|Hne0]; simpl.
    + by apply String.eqb_neq in Hne as ->.
    + by rewrite IH.
Qed.

Lemma snoc_split {A} (seen l1 l2 : list A) x p0 :
  (seen ++ [x])%list = (l1 ++ p0 :: l2)%list ->
  (l2 = [] /\ l1 = seen /\ p0 = x) \/
  (exists l2', l2 = (l2' ++ [x])%list /\ seen = (l1 ++ p0 :: l2')%list).
Proof.
  destruct l2 as [|y l2 _] using rev_ind; intros H.
  - left. apply app_inj_tail in H as [-> ->]. done.
  - right. exists l2.
    replace (l1 ++ p0 :: l2 ++ [y])%list with ((l1 ++ p0 :: l2) ++ [y])%list in H
      by (by rewrite <- app_assoc).
    apply app_inj_tail in H as [-> ->]. done.
Qed.

Lemma keyForRemote_truthy remote k :
  Lockfile.keyForRemote remote = Some k -> Js.truthy k = true.
Proof.
  unfold Lockfile.keyForRemote.
  destruct (Js.truthy_opt (Types.resolved remote)) eqn:E.
  - intros H. by rewrite H in E.
  - destruct (Types.hash remote) as [h|]; [|discriminate].
    destruct (Js.truthy (Types.reference remote) && Js.truthy h); [|discriminate].
    intros [= <-]. destruct (Types.reference remote); reflexivity.
Qed.

(** The remote key of the code is the remote key of the specification. *)
Lemma keyForRemote_remote_key remote :
  Lockfile.keyForRemote remote = remote_key remote.
Proof.
  unfold Lockfile.keyForRemote, remote_key.
  destruct (Types.resolved remote) as [[|c url]|]; simpl;
    destruct (Types.hash remote) as [[|d h]|]; simpl;
    destruct (Types.reference remote); reflexivity.
Qed.

Lemma key_of_remote_key patterns p :
  key_of patterns p = remote_key_of patterns p.
Proof.
  unfold key_of, remote_key_of.
  destruct (JsObject.get patterns p) as [pkg|]; [|done]. simpl.
  destruct (Types._remote pkg) as [remote|]; [|done]. simpl.
  apply keyForRemote_remote_key.
Qed.

(** Reading the lockfile object after an assignment. *)
Lemma read_assign_eq lf p a objs :
  no_own_proto lf ->
  Lockfile.read (Lockfile.assign p a objs lf) p = Some a.
Proof.
  unfold no_own_proto, Lockfile.read, Lockfile.assign. intros Hno.
  destruct (String.eqb p Js.proto_key) eqn:Hp;
    cbn [Lockfile.entries Lockfile.proto].
  - apply String.eqb_eq in Hp. subst p. by rewrite Hno.
  - by rewrite JsObject_get_set_eq.
Qed.

Lemma no_own_proto_assign lf p a objs :
  no_own_proto lf -> no_own_proto (Lockfile.assign p a objs lf).
Proof.
  unfold no_own_proto, Lockfile.assign. intros Hno.
  destruct (String.eqb p Js.proto_key) eqn:Hp; cbn [Lockfile.entries]; [done|].
  apply String.eqb_neq in Hp. by rewrite JsObject_get_set_ne.
Qed.

Lemma read_assign_ne lf p q a objs :
  p <> q ->
  Lockfile.read (Lockfile.assign p a objs lf) q = Lockfile.read lf q.
Proof.
  intros Hne. unfold Lockfile.read, Lockfile.assign.
  destruct (String.eqb p Js.proto_key) eqn:Hp;
    cbn [Lockfile.entries Lockfile.proto].
  - apply String.eqb_eq in Hp. subst p.
    by rewrite (proj2 (String.eqb_neq q Js.proto_key)) by done.
  - by rewrite JsObject_get_set_ne.
Qed.

Lemma objects_assign lf p a objs :
  Lockfile.objects (Lockfile.assign p a objs lf) = objs.
Proof. unfold Lockfile.assign. by destruct (String.eqb p Js.proto_key). Qed.

(** An own property reads as itself. *)
Lemma read_own lf p a :
  JsObject.get (Lockfile.entries lf) p = Some a -> Lockfile.read lf p = Some a.
Proof. unfold Lockfile.read. by intros ->. Qed.

Lemma read_assign_visited lf x a objs visited :
  no_own_proto lf ->
  (forall p, is_Some (Lockfile.read lf p) <-> p ∈ visited) ->
  forall p, is_Some (Lockfile.read (Lockfile.assign x a objs lf) p)
            <-> p ∈ (visited ++ [x])%list.
Proof.
  intros Hno Hkeys p. rewrite elem_of_app, list_elem_of_singleton.
  destruct (decide (x = p)) as [->|Hne].
  - rewrite read_assign_eq by done. split; [by right|by eexists].
  - rewrite read_assign_ne, Hkeys by done. split; [by left|].
    by intros [?|?].
Qed.

(** One iteration, with the lookups it needs named. *)
Lemma getLockfile_body_Ok refs patterns p st st' :
  Lockfile.getLockfile_body refs patterns p st = Ok st' ->
  exists obj,
    imploded refs patterns p = Some obj /\
    match remote_key_of patterns p ≫= (Lockfile.seen st !!.) with
    | Some addr =>
        exists objs',
          Lockfile.lockfile st' = Lockfile.assign p addr objs' (Lockfile.lockfile st) /\
          Lockfile.seen st' = Lockfile.seen st /\
          (objs' = Lockfile.objects (Lockfile.lockfile st) \/
           exists e n,
             Lockfile.objects (Lockfile.lockfile st) !! addr = Some e /\
             objs' = <[addr := Lockfile.set_name n e]>
                       (Lockfile.objects (Lockfile.lockfile st)))
    | None =>
        Lockfile.lockfile st'
        = Lockfile.assign p (List.length (Lockfile.objects (Lockfile.lockfile st)))
            (Lockfile.objects (Lockfile.lockfile st) ++ [obj])%list
            (Lockfile.lockfile st) /\
        Lockfile.seen st'
        = match remote_key_of patterns p with
          | Some k => <[k := List.length (Lockfile.objects (Lockfile.lockfile st))]>
                        (Lockfile.seen st)
          | None => Lockfile.seen st
          end
    end.
Proof.
  rewrite <- key_of_remote_key.
  unfold Lockfile.getLockfile_body, imploded, key_of.
  destruct (JsObject.get patterns p) as [pkg|]; [|discriminate]. simpl.
  destruct (Types._reference pkg ≫= (refs !!.)) as [ref|]; [|discriminate].
  destruct (Types._remote pkg) as [remote|]; [|discriminate]. simpl.
  pose proof (keyForRemote_truthy remote) as Htruthy.
  destruct (Lockfile.keyForRemote remote) as [k|]; simpl.
  - rewrite (Htruthy k eq_refl).
    destruct (Lockfile.seen st !! k) as [addr|] eqn:Hseen.
    + intros [= <-]. eexists. split; [reflexivity|]. simpl.
      eexists. split; [reflexivity|]. split; [done|].
      destruct (Lockfile.objects (Lockfile.lockfile st) !! addr) as [e|] eqn:He;
        [|by left].
      destruct (negb (Js.truthy_opt (Lockfile.name e)) && _); [|by left].
      right. by eexists _, _.
    + intros [= <-]. eexists. split; [reflexivity|]. done.
  - intros [= <-]. eexists. split; [reflexivity|]. done.
Qed.

Lemma same_but_name_set_name n x y :
  same_but_name x y -> same_but_name (Lockfile.set_name n x) y.
Proof. unfold same_but_name. by destruct x. Qed.

Lemma loop_inv_step refs patterns visited x rest st st' :
  NoDup (visited ++ x :: rest)%list ->
  loop_inv refs patterns visited st ->
  Lockfile.getLockfile_body refs patterns x st = Ok st' ->
  loop_inv refs patterns (visited ++ [x])%list st'.
Proof.
  intros Hnd (Hno & Hkeys & Hown & Hseen) Hbody.
  assert (x ∉ visited) as Hfresh.
  { apply NoDup_app in Hnd as (_ & Hdisj & _). intros Hin.
    apply (Hdisj x Hin). by left. }
  destruct (getLockfile_body_Ok _ _ _ _ _ Hbody) as (obj & Himp & Hcase).
  destruct (remote_key_of patterns x ≫= (Lockfile.seen st !!.))
    as [addr|] eqn:Hlook.
  - (* the remote key has been seen: share the entry *)
    destruct Hcase as (objs' & Hent & Hsn & Hobjs).
    destruct (remote_key_of patterns x) as [kx|] eqn:Hkx; [|discriminate].
    simpl in Hlook.
    split; [rewrite Hent; by apply no_own_proto_assign|]. split; [|split].
    + rewrite Hent. by apply read_assign_visited.
    + intros l1 p0 l2 k Hsplit Hk Hfirst.
      apply snoc_split in Hsplit as [(-> & -> & ->)|(l2' & -> & ->)].
      * destruct (Hseen _ _ Hlook) as (p & Hp & Hkp).
        destruct (Hfirst p Hp). congruence.
      * destruct (Hown l1 p0 l2' k eq_refl Hk Hfirst)
          as (a & Ha & Hget & (o & e0 & Ho & He0 & Hsame) & Hlater).
        assert (p0 <> x) as Hne.
        { intros ->. apply Hfresh. apply elem_of_app. right. by left. }
        exists a. split; [by rewrite Hsn|]. rewrite Hent. split; [|split].
        -- by rewrite read_assign_ne.
        -- rewrite objects_assign.
           destruct Hobjs as [->|(e & n & He & ->)]; [by exists o, e0|].
           destruct (decide (addr = a)) as [->|Hna].
           ++ rewrite He in Ho. injection Ho as ->.
              exists (Lockfile.set_name n o), e0. split; [|split; [done|]].
              ** apply list_lookup_insert_eq. by eapply lookup_lt_Some.
              ** by apply same_but_name_set_name.
           ++ exists o, e0. by rewrite list_lookup_insert_ne.
        -- intros p [Hp| ->%list_elem_of_singleton]%elem_of_app Hkp.
           ++ rewrite read_assign_ne; [by apply Hlater|].
              intros <-. apply Hfresh. apply elem_of_app. right. by right.
           ++ rewrite read_assign_eq by done. congruence.
    + intros k a. rewrite Hsn. intros Hka.
      destruct (Hseen _ _ Hka) as (p & Hp & Hkp).
      exists p. split; [|done]. apply elem_of_app. by left.
  - (* a new entry, owned by [x] *)
    destruct Hcase as (Hent & Hsn).
    split; [rewrite Hent; by apply no_own_proto_assign|]. split; [|split].
    + rewrite Hent. by apply read_assign_visited.
    + intros l1 p0 l2 k Hsplit Hk Hfirst.
      apply snoc_split in Hsplit as [(-> & -> & ->)|(l2' & -> & ->)].
      * rewrite Hk in Hsn. exists (List.length (Lockfile.objects (Lockfile.lockfile st))).
        split; [by rewrite Hsn, lookup_insert_eq|]. rewrite Hent.
        split; [|split].
        -- by rewrite read_assign_eq.
        -- exists obj, obj. split; [|done].
           rewrite objects_assign. by apply list_lookup_middle.
        -- by intros p ?%elem_of_nil.
      * destruct (Hown l1 p0 l2' k eq_refl Hk Hfirst)
          as (a & Ha & Hget & (o & e0 & Ho & He0 & Hsame) & Hlater).
        assert (p0 <> x) as Hne.
        { intros ->. apply Hfresh. apply elem_of_app. right. by left. }
        assert (remote_key_of patterns x <> Some k) as Hkx.
        { intros Hkx. rewrite Hkx in Hlook. simpl in Hlook. congruence. }
        exists a. split; [|rewrite Hent; split; [|split]].
        -- rewrite Hsn. destruct (remote_key_of patterns x) as [kx|]; [|done].
           rewrite lookup_insert_ne; [done|]. intros ->. done.
        -- by rewrite read_assign_ne.
        -- exists o, e0. split; [|done]. rewrite objects_assign.
           rewrite lookup_app_l; [done|]. by eapply lookup_lt_Some.
        -- intros p [Hp| ->%list_elem_of_singleton]%elem_of_app Hkp; [|done].
           rewrite read_assign_ne; [by apply Hlater|].
           intros <-. apply Hfresh. apply elem_of_app. right. by right.
    + intros k a. rewrite Hsn. intros Hka.
      destruct (remote_key_of patterns x) as [kx|] eqn:Hkx.
      * destruct (decide (kx = k)) as [->|Hne].
        -- exists x. split; [|done]. apply elem_of_app. right. by left.
        -- rewrite lookup_insert_ne in Hka by done.
           destruct (Hseen _ _ Hka) as (p & Hp & Hkp).
           exists p. split; [|done]. apply elem_of_app. by left.
      * destruct (Hseen _ _ Hka) as (p & Hp & Hkp).
        exists p. split; [|done]. apply elem_of_app. by left.
Qed.

Lemma sorted_keys_NoDup {A} (o : JsObject.t A) :
  JsObject.wf o -> NoDup (Misc.sort_by Misc.sortAlpha (JsObject.keys o)).
Proof.
  intros Hwf. unfold Misc.sort_by.
  by rewrite (merge_sort_Permutation (Misc.precedes Misc.sortAlpha)).
Qed.

(** The loop runs to its end when every manifest it meets carries a
    reference (present in the store) and a remote. *)
Lemma getLockfile_loop_Ok refs (o : JsObject.t Types.Manifest) xs :
  (forall p, p ∈ xs -> exists pkg,
     JsObject.get o p = Some pkg /\
     is_Some (Types._reference pkg ≫= (refs !!.)) /\
     is_Some (Types._remote pkg)) ->
  forall st, exists st', for_of xs (Lockfile.getLockfile_body refs o) st = Ok st'.
Proof.
  induction xs as [|x xs IH]; intros Hall st; [by eexists|].
  cbn [for_of].
  destruct (Hall x) as (pkg & Hget & [ref Href] & [remote Hrem]); [by left|].
  assert (exists s1, Lockfile.getLockfile_body refs o x st = Ok s1) as [s1 ->].
  { unfold Lockfile.getLockfile_body. rewrite Hget, Href, Hrem.
    destruct (if Js.truthy_opt (Lockfile.keyForRemote remote)
              then Lockfile.keyForRemote remote ≫= (Lockfile.seen st !!.)
              else None); by eexists. }
  cbn [mbind Result_bind]. apply IH. intros p Hp. apply Hall. by right.
Qed.

(** C2.  For two pattern-to-manifest objects with the same bindings,
    whatever the order in which their keys were inserted, [getLockfile]
    returns the same result.  It visits the patterns in the sorted order
    of [sortAlpha], it returns a lockfile whenever every manifest has its
    reference and its remote, the lockfile has an entry for the patterns
    it was given and for no other, and for every remote key (the
    resolved URL, or else the reference and the hash joined by [#]) the
    first pattern in sorted order that has it owns the entry (imploded
    from that pattern's manifest) and every later pattern with the same
    remote key points to that same entry. *)
Theorem getLockfile_deterministic (refs : gmap nat PackageReference.t)
    (o1 o2 : JsObject.t Types.Manifest) :
  JsObject.wf o1 -> JsObject.wf o2 ->
  (forall k, JsObject.get o1 k = JsObject.get o2 k) ->
  let sorted := Misc.sort_by Misc.sortAlpha (JsObject.keys o1) in
  Lockfile.getLockfile refs o1 = Lockfile.getLockfile refs o2 /\
  Sorted str_le sorted /\ sorted ≡ₚ JsObject.keys o1 /\
  ((forall p pkg, JsObject.get o1 p = Some pkg ->
      is_Some (Types._reference pkg ≫= (refs !!.)) /\
      is_Some (Types._remote pkg)) ->
   exists lf, Lockfile.getLockfile refs o1 = Ok lf) /\
  (forall lf, Lockfile.getLockfile refs o1 = Ok lf ->
     (forall p, is_Some (Lockfile.read lf p) <-> p ∈ JsObject.keys o1) /\
     forall l1 p0 l2 k,
       sorted = (l1 ++ p0 :: l2)%list ->
       remote_key_of o1 p0 = Some k ->
       (forall p, p ∈ l1 -> remote_key_of o1 p <> Some k) ->
       exists a, owns refs o1 lf p0 k l2 a).
Proof.
  intros Hwf1 Hwf2 Hsame sorted.
  assert (Hperm : sorted ≡ₚ JsObject.keys o1).
  { apply (merge_sort_Permutation (Misc.precedes Misc.sortAlpha)). }
  split; [by apply getLockfile_insertion_order|].
  split.
  { assert (Sorted (Misc.precedes Misc.sortAlpha) sorted) as Hs
      by apply Sorted_merge_sort, _.
    clear -Hs. induction Hs as [|x l Hs IH Hhd]; constructor; [done|].
    destruct Hhd; constructor. by apply precedes_sortAlpha. }
  split; [done|]. split.
  - intros Hall.
    destruct (getLockfile_loop_Ok refs o1 sorted) 
      with (st := {| Lockfile.lockfile :=
                       {| Lockfile.entries := []; Lockfile.proto := None;
                          Lockfile.objects := [] |};
                     Lockfile.seen := ∅ |}) as [st' Hrun].
    + intros p Hp. rewrite Hperm in Hp. apply JsObject_get_Some in Hp as [pkg Hpkg].
      exists pkg. split; [done|]. by apply (Hall p).
    + exists (Lockfile.lockfile st'). unfold Lockfile.getLockfile.
      fold sorted. by rewrite Hrun.
  - intros lf Hlf. unfold Lockfile.getLockfile in Hlf. fold sorted in Hlf.
    destruct (for_of sorted _ _) as [st'|e] eqn:Hrun; [|discriminate].
    cbn [mbind Result_bind] in Hlf. injection Hlf as <-.
    assert (loop_inv refs o1 sorted st') as (_ & Hkeys & Hown & _).
    { eapply (for_of_invariant (Lockfile.getLockfile_body refs o1)
                (loop_inv refs o1) sorted); [| |exact Hrun].
      - intros seen x rest s s' Htot HI Hb.
        eapply loop_inv_step; [|exact HI|exact Hb].
        rewrite <- Htot. by apply sorted_keys_NoDup.
      - split; [done|]. split; [|split].
        + intros p. split; [|by intros ?%elem_of_nil].
          unfold Lockfile.read. cbn [Lockfile.lockfile Lockfile.entries
                                     Lockfile.proto JsObject.get].
          destruct (String.eqb p Js.proto_key); by intros [? ?].
        + intros l1 p0 l2 k Hnil. by destruct l1.
        + intros k a Hk. simpl in Hk. by rewrite lookup_empty in Hk. }
    split. { intros p. by rewrite Hkeys, Hperm. }
    intros l1 p0 l2 k Hsplit Hk Hfirst.
    destruct (Hown l1 p0 l2 k Hsplit Hk Hfirst) as (a & _ & Ha). by exists a.
Qed.

(** Two patterns of one package, resolved to one tarball: whichever was
    inserted first, the pattern that sorts first owns the entry and the
    other one points to it. *)
Lemma getLockfile_deterministic_witness :
  Lockfile.getLockfile Sample.c_refs Sample.c_tilde_first
  = Lockfile.getLockfile Sample.c_refs Sample.c_caret_first /\
  exists lf a,
    Lockfile.getLockfile Sample.c_refs Sample.c_tilde_first = Ok lf /\
    remote_key_of Sample.c_tilde_first "c@~1.0.1" = Some "https://r/c-1.0.5" /\
    Lockfile.read lf "c@^1.0.0" = Some a /\
    Lockfile.read lf "c@~1.0.1" = Some a /\
    owns Sample.c_refs Sample.c_tilde_first lf
         "c@^1.0.0" "https://r/c-1.0.5" ["c@~1.0.1"] a.
Proof.
  assert (Hwf1 : JsObject.wf Sample.c_tilde_first).
  { apply NoDup_cons. split; [|apply NoDup_singleton].
    intros Hin%list_elem_of_singleton. discriminate Hin. }
  assert (Hwf2 : JsObject.wf Sample.c_caret_first).
  { apply NoDup_cons. split; [|apply NoDup_singleton].
    intros Hin%list_elem_of_singleton. discriminate Hin. }
  assert (Hsame : forall k, JsObject.get Sample.c_tilde_first k
                            = JsObject.get Sample.c_caret_first k).
  { intros k. unfold Sample.c_tilde_first, Sample.c_caret_first.
    cbn [JsObject.get].
    destruct (String.eqb "c@~1.0.1" k), (String.eqb "c@^1.0.0" k);
      reflexivity. }
  destruct (getLockfile_deterministic Sample.c_refs
              Sample.c_tilde_first Sample.c_caret_first Hwf1 Hwf2 Hsame)
    as (Heq & _ & _ & Hok & Hown).
  split; [exact Heq|].
  destruct Hok as [lf Hlf].
  { intros p pkg Hget. unfold Sample.c_tilde_first in Hget.
    cbn [JsObject.get] in Hget.
    destruct (String.eqb "c@~1.0.1" p);
      [|destruct (String.eqb "c@^1.0.0" p); [|discriminate Hget]];
      injection Hget as <-; (split; [vm_compute|]; eexists; reflexivity). }
  destruct (Hown lf Hlf) as [_ Howner].
  destruct (Howner [] "c@^1.0.0" ["c@~1.0.1"] "https://r/c-1.0.5") as [a Ha].
  - vm_compute. reflexivity.
  - vm_compute. reflexivity.
  - intros p Hp. apply elem_of_nil in Hp. destruct Hp.
  - exists lf, a. split; [exact Hlf|].
    split; [vm_compute; reflexivity|].
    destruct Ha as (Hfirst & Hobj & Hlater).
    split; [exact Hfirst|]. split.
    + apply Hlater; [by left|vm_compute; reflexivity].
    + split; [exact Hfirst|]. split; [exact Hobj|exact Hlater].
Defined.

(** ** Flat mode: collapsing the versions of a package *)

(** *** The lockfile, as far as lookups can tell

    [getLocked] explodes the entry it finds, in place; which slots hold a
    link (and to where) and which hold an entry never changes. *)

Lemma getLocked_rec_shape depth : forall lf p r lf',
  Lockfile.getLocked_rec depth lf p = Ok (r, lf') ->
  lockfile_shape lf' = lockfile_shape lf.
Proof.
  induction depth as [|depth IH]; intros lf p r lf'; simpl; [discriminate|].
  destruct (Lockfile.cache lf) as [c|] eqn:Hc; [|by intros [= <- <-]].
  destruct (c !! p) as [[q|e]|] eqn:Hp.
  - apply IH.
  - intros [= <- <-]. unfold lockfile_shape. simpl. rewrite Hc. simpl.
    f_equal. rewrite fmap_insert. apply insert_id.
    by rewrite lookup_fmap, Hp.
  - by intros [= <- <-].
Qed.

Lemma getLocked_shape lf p r lf' :
  Lockfile.getLocked lf p = Ok (r, lf') -> lockfile_shape lf' = lockfile_shape lf.
Proof. apply getLocked_rec_shape. Qed.

Lemma getLocked_rec_status depth : forall lf1 lf2 p,
  lockfile_shape lf1 = lockfile_shape lf2 ->
  match Lockfile.getLocked_rec depth lf1 p, Lockfile.getLocked_rec depth lf2 p with
  | Ok (r1, _), Ok (r2, _) => is_Some r1 <-> is_Some r2
  | Throw e1, Throw e2 => e1 = e2
  | _, _ => False
  end.
Proof.
  induction depth as [|depth IH]; intros lf1 lf2 p Hshape; simpl; [done|].
  unfold lockfile_shape in Hshape.
  destruct (Lockfile.cache lf1) as [c1|] eqn:Hc1,
           (Lockfile.cache lf2) as [c2|] eqn:Hc2; simpl in Hshape;
    try discriminate; [|done].
  injection Hshape as Hshape.
  assert (slot_shape <$> c1 !! p = slot_shape <$> c2 !! p) as Hp
    by (by rewrite <- !lookup_fmap, Hshape).
  destruct (c1 !! p) as [[q1|e1]|], (c2 !! p) as [[q2|e2]|]; simpl in Hp;
    try discriminate.
  - injection Hp as ->. apply IH. unfold lockfile_shape.
    by rewrite Hc1, Hc2, Hshape.
  - split; by eexists.
  - done.
Qed.

Lemma locked_status_shape lf1 lf2 p :
  lockfile_shape lf1 = lockfile_shape lf2 ->
  locked_status lf1 p = locked_status lf2 p.
Proof.
  intros Hshape. unfold locked_status, Lockfile.getLocked.
  assert (Lockfile.stack_depth lf1 = Lockfile.stack_depth lf2) as ->.
  { unfold Lockfile.stack_depth. unfold lockfile_shape in Hshape.
    destruct (Lockfile.cache lf1) as [c1|], (Lockfile.cache lf2) as [c2|];
      simpl in *; try discriminate; [|done].
    injection Hshape as Hshape.
    by rewrite <- (map_size_fmap slot_shape c1), Hshape, map_size_fmap. }
  pose proof (getLocked_rec_status (Lockfile.stack_depth lf2) lf1 lf2 p Hshape) as H.
  destruct (Lockfile.getLocked_rec _ lf1 p) as [[r1 ?]|e1],
           (Lockfile.getLocked_rec _ lf2 p) as [[r2 ?]|e2]; try done.
  - f_equal. apply bool_decide_ext. done.
  - by subst.
Qed.

Lemma lockfile_total_shape lf1 lf2 :
  lockfile_shape lf1 = lockfile_shape lf2 ->
  lockfile_total lf1 -> lockfile_total lf2.
Proof.
  intros Hshape Htot p. rewrite <- (locked_status_shape lf1 lf2 p Hshape).
  apply Htot.
Qed.

(** A lookup through the resolver, when the lockfile is total. *)
Lemma resolver_getLocked_total p this :
  lockfile_total (PackageResolver.lockfile this) ->
  exists shrunk lf,
    PackageResolver.getLocked p this
    = Ok (shrunk, PackageResolver.set_lockfile lf this) /\
    locked_status (PackageResolver.lockfile this) p
    = Ok (bool_decide (is_Some shrunk)) /\
    lockfile_shape lf = lockfile_shape (PackageResolver.lockfile this).
Proof.
  intros Htot. destruct (Htot p) as [b Hb].
  unfold locked_status in Hb. unfold PackageResolver.getLocked.
  destruct (Lockfile.getLocked (PackageResolver.lockfile this) p)
    as [[shrunk lf]|e] eqn:Hget; [|discriminate].
  exists shrunk, lf. split; [done|]. split.
  - unfold locked_status. by rewrite Hget.
  - by eapply getLocked_shape.
Qed.

(** *** What pruning and re-attaching do to the registry *)

Lemma removePattern_patterns_ne p q this :
  q <> p ->
  PackageResolver.patterns (PackageResolver.removePattern p this) !! q
  = PackageResolver.patterns this !! q.
Proof.
  intros Hne. unfold PackageResolver.removePattern.
  destruct (PackageResolver.patterns this !! p) as [pkg|]; [|done].
  destruct (PackageResolver.patternsByPackage this !! Types.name pkg); [|done].
  simpl. by apply lookup_delete_ne.
Qed.

Lemma prune_fold l : forall this,
  let this' := foldl (fun st x => PackageResolver.removePattern x st) this l in
  PackageResolver.refs this' = PackageResolver.refs this /\
  PackageResolver.lockfile this' = PackageResolver.lockfile this /\
  forall q, q ∉ l ->
    PackageResolver.patterns this' !! q = PackageResolver.patterns this !! q.
Proof.
  induction l as [|x l IH]; intros this; simpl; [done|].
  destruct (IH (PackageResolver.removePattern x this)) as (Hr & Hl & Hp).
  split; [by rewrite Hr, removePattern_refs|].
  split; [by rewrite Hl, removePattern_lockfile|].
  intros q Hq. rewrite Hp by (intros ?; apply Hq; by right).
  apply removePattern_patterns_ne. intros ->. apply Hq. by left.
Qed.

Lemma ref_prune_frame a this r :
  PackageResolver.refs this !! a = Some r ->
  let this' := PackageResolver.ref_prune a this in
  PackageResolver.refs this' = PackageResolver.refs this /\
  PackageResolver.lockfile this' = PackageResolver.lockfile this /\
  forall q, q ∉ PackageReference.patterns r ->
    PackageResolver.patterns this' !! q = PackageResolver.patterns this !! q.
Proof.
  intros Hr. unfold PackageResolver.ref_prune. rewrite Hr. apply prune_fold.
Qed.

Lemma setPermissions_patterns l : forall ref,
  PackageReference.patterns
    (foldl (fun r (kv : string * bool) => PackageReference.setPermission kv.1 kv.2 r)
           ref l)
  = PackageReference.patterns ref.
Proof.
  induction l as [|kv l IH]; intros ref; simpl; [done|]. rewrite IH.
  unfold PackageReference.setPermission.
  by destruct (String.eqb kv.1 Js.proto_key).
Qed.

Lemma ref_addPattern_spec target q mt this :
  lockfile_total (PackageResolver.lockfile this) ->
  exists this',
    PackageResolver.ref_addPattern target q mt this = Ok this' /\
    PackageResolver.patterns this' = <[q := mt]> (PackageResolver.patterns this) /\
    lockfile_shape (PackageResolver.lockfile this')
    = lockfile_shape (PackageResolver.lockfile this) /\
    attached target q (PackageResolver.refs this) (PackageResolver.refs this').
Proof.
  intros Htot. unfold PackageResolver.ref_addPattern.
  remember (PackageResolver.set_refs
              (alter (fun ref => PackageReference.set_patterns
                        (PackageReference.patterns ref ++ [q])%list ref)
                     target
                     (PackageResolver.refs (PackageResolver.addPattern q mt this)))
              (PackageResolver.addPattern q mt this)) as this1 eqn:E1.
  assert (Hlf1 : PackageResolver.lockfile this1 = PackageResolver.lockfile this)
    by (by subst this1).
  assert (Hpat1 : PackageResolver.patterns this1
                  = <[q := mt]> (PackageResolver.patterns this))
    by (by subst this1).
  assert (Hatt : attached target q (PackageResolver.refs this)
                   (PackageResolver.refs this1)).
  { intros a r Ha. subst this1. simpl.
    destruct (decide (target = a)) as [->|Hne].
    - eexists. rewrite lookup_alter_eq, Ha. split; [reflexivity|]. simpl.
      split; [|intros _]; intros; apply elem_of_app; [by left|right; by left].
    - exists r. rewrite lookup_alter_ne by done. split; [done|].
      split; [done|]. intros ->. done. }
  clear E1.
  destruct (resolver_getLocked_total q this1) as (shrunk & lf & Hget & _ & Hshape).
  { by rewrite Hlf1. }
  rewrite Hget. cbn [mbind Result_bind].
  destruct (shrunk ≫= Lockfile.permissions) as [perms|].
  - eexists. split; [reflexivity|]. simpl. split; [done|].
    split; [by rewrite Hshape, Hlf1|].
    intros a r Ha. destruct (Hatt a r Ha) as (r' & Hr' & Hsub & Hq).
    destruct (decide (target = a)) as [->|Hne].
    + eexists. rewrite lookup_alter_eq, Hr'. split; [reflexivity|].
      simpl. rewrite setPermissions_patterns. done.
    + exists r'. by rewrite lookup_alter_ne.
  - eexists. split; [reflexivity|]. simpl. split; [done|].
    split; [by rewrite Hshape, Hlf1|done].
Qed.

(** Attaching a list of patterns to the reference at [target]. *)
Lemma ref_addPatterns_spec target mt qs : forall this,
  lockfile_total (PackageResolver.lockfile this) ->
  exists this',
    for_of qs (fun p => PackageResolver.ref_addPattern target p mt) this = Ok this' /\
    (forall q, q ∈ qs -> PackageResolver.patterns this' !! q = Some mt) /\
    (forall q, q ∉ qs ->
       PackageResolver.patterns this' !! q = PackageResolver.patterns this !! q) /\
    lockfile_shape (PackageResolver.lockfile this')
    = lockfile_shape (PackageResolver.lockfile this) /\
    (forall a r, PackageResolver.refs this !! a = Some r ->
       exists r', PackageResolver.refs this' !! a = Some r' /\
         (forall x, x ∈ PackageReference.patterns r ->
                    x ∈ PackageReference.patterns r') /\
         (a = target -> forall q, q ∈ qs -> q ∈ PackageReference.patterns r')).
Proof.
  induction qs as [|q qs IH]; intros this Htot.
  - exists this. split; [done|]. split; [by intros q ?%elem_of_nil|].
    split; [done|]. split; [done|].
    intros a r Ha. exists r. split; [done|]. split; [done|].
    by intros _ q ?%elem_of_nil.
  - cbn [for_of].
    destruct (ref_addPattern_spec target q mt this Htot)
      as (this1 & -> & Hp1 & Hs1 & Hatt1).
    cbn [mbind Result_bind].
    destruct (IH this1) as (this' & Hrun & Hin & Hout & Hs & Hrefs).
    { eapply lockfile_total_shape; [symmetry; exact Hs1|exact Htot]. }
    exists this'. split; [done|]. split; [|split; [|split]].
    + intros x [->|Hx]%elem_of_cons; [|by apply Hin].
      destruct (decide (q ∈ qs)) as [Hq|Hq]; [by apply Hin|].
      by rewrite (Hout q Hq), Hp1, lookup_insert_eq.
    + intros x Hx. rewrite Hout by (intros ?; apply Hx; by right).
      rewrite Hp1. apply lookup_insert_ne. intros ->. apply Hx. by left.
    + by rewrite Hs, Hs1.
    + intros a r Ha. destruct (Hatt1 a r Ha) as (r1 & Hr1 & Hsub1 & Hq1).
      destruct (Hrefs a r1 Hr1) as (r' & Hr' & Hsub & Hqs).
      exists r'. split; [done|]. split; [by auto|].
      intros -> x [->|Hx]%elem_of_cons; [by apply Hsub, Hq1|by apply Hqs].
Qed.

(** *** Collapsing *)

Lemma collapseOne_step ps pt target mt visited p this :
  pt ∈ ps -> p ∈ ps -> Types._reference mt = Some target ->
  collapse_inv ps pt mt visited this ->
  exists this',
    PackageResolver.collapseOne pt target mt p this = Ok this' /\
    collapse_inv ps pt mt (visited ++ [p])%list this'.
Proof.
  intros Hpt Hp Hmt (Hatt & Hvis & Htgt & Htot).
  unfold PackageResolver.collapseOne.
  destruct (String.eqb_spec p pt) as [->|Hne].
  - exists this. split; [done|]. split; [done|]. split; [|done].
    intros q [Hq| ->%list_elem_of_singleton]%elem_of_app; [by apply Hvis|done].
  - destruct (Hatt p Hp) as (m & a & r & Hm & Ha & Hr & Hin).
    unfold PackageResolver.getStrictResolvedPattern,
      PackageResolver.getResolvedPattern.
    rewrite Hm. cbn [mbind Result_bind]. rewrite Ha, Hr.
    destruct (ref_prune_frame a this r Hr) as (Hrefs1 & Hlf1 & Hpat1).
    destruct (ref_addPatterns_spec target mt (PackageReference.patterns r)
                (PackageResolver.ref_prune a this))
      as (this' & Hrun & Hnew & Hold & Hshape & Hgrow).
    { by rewrite Hlf1. }
    exists this'. split; [exact Hrun|].
    assert (Hkeep : forall q, q ∉ PackageReference.patterns r ->
              PackageResolver.patterns this' !! q
              = PackageResolver.patterns this !! q).
    { intros q Hq. by rewrite Hold, Hpat1. }
    assert (Hmoved : forall q mq,
              PackageResolver.patterns this !! q = Some mq ->
              (q ∈ PackageReference.patterns r -> mq = mt) ->
              PackageResolver.patterns this' !! q = Some mq).
    { intros q mq Hq Heq.
      destruct (decide (q ∈ PackageReference.patterns r)) as [Hi|Hi].
      - rewrite (Hnew q Hi). f_equal. symmetry. by apply Heq.
      - by rewrite Hkeep. }
    split; [|split; [|split]].
    + intros q Hq.
      destruct (Hatt q Hq) as (mq & aq & rq & Hmq & Haq & Hrq & Hinq).
      destruct (decide (q ∈ PackageReference.patterns r)) as [Hi|Hi].
      * destruct (Hatt pt Hpt) as (mt' & at' & rt & Hmt' & Hat' & Hrt & _).
        rewrite Htgt in Hmt'. injection Hmt' as <-.
        rewrite Hmt in Hat'. injection Hat' as <-.
        rewrite <- Hrefs1 in Hrt.
        destruct (Hgrow target rt Hrt) as (rt' & Hrt' & _ & Hall).
        exists mt, target, rt'. split; [by apply Hnew|]. split; [done|].
        split; [done|]. by apply Hall.
      * rewrite <- Hrefs1 in Hrq.
        destruct (Hgrow aq rq Hrq) as (rq' & Hrq' & Hsub & _).
        exists mq, aq, rq'. split; [by rewrite Hkeep|]. split; [done|].
        split; [done|]. by apply Hsub.
    + intros q [Hq| ->%list_elem_of_singleton]%elem_of_app.
      * apply Hmoved; [by apply Hvis|done].
      * by apply Hnew.
    + by apply Hmoved.
    + eapply lockfile_total_shape; [|exact Htot].
      by rewrite Hshape, Hlf1.
Qed.

Lemma collapse_loop ps pt target mt todo : forall visited this,
  pt ∈ ps -> (forall p, p ∈ todo -> p ∈ ps) ->
  Types._reference mt = Some target ->
  collapse_inv ps pt mt visited this ->
  exists this',
    for_of todo (PackageResolver.collapseOne pt target mt) this = Ok this' /\
    collapse_inv ps pt mt (visited ++ todo)%list this'.
Proof.
  induction todo as [|p todo IH]; intros visited this Hpt Hsub Hmt Hinv.
  - exists this. split; [done|]. by rewrite app_nil_r.
  - cbn [for_of].
    destruct (collapseOne_step ps pt target mt visited p this)
      as (this1 & -> & Hinv1); [done|apply Hsub; by left|done|done|].
    cbn [mbind Result_bind].
    destruct (IH (visited ++ [p])%list this1) as (this' & Hrun & Hinv');
      [done|intros q Hq; apply Hsub; by right|done|done|].
    exists this'. split; [done|]. by rewrite <- app_assoc in Hinv'.
Qed.

Lemma collapseTarget_spec this v ps :
  (forall p, p ∈ ps -> is_Some (PackageResolver.patterns this !! p)) ->
  (exists p m, p ∈ ps /\ PackageResolver.patterns this !! p = Some m /\
               Types.version m = v) ->
  exists pt mt,
    PackageResolver.collapseTarget this v ps = Ok (Some (pt, mt)) /\
    pt ∈ ps /\ PackageResolver.patterns this !! pt = Some mt /\
    Types.version mt = v.
Proof.
  induction ps as [|p ps IH]; intros Hbound (p0 & m0 & Hin & Hm0 & Hv).
  - by apply elem_of_nil in Hin.
  - simpl. destruct (Hbound p) as [m Hm]; [by left|]. rewrite Hm.
    destruct (String.eqb_spec (Types.version m) v) as [Heq|Hne].
    + exists p, m. split; [done|]. split; [by left|done].
    + destruct IH as (pt & mt & Hrun & Hpt & Hmt & Hvt).
      * intros q Hq. apply Hbound. by right.
      * apply elem_of_cons in Hin as [->|Hin].
        -- rewrite Hm in Hm0. injection Hm0 as <-. done.
        -- by exists p0, m0.
      * exists pt, mt. split; [done|]. split; [by right|done].
Qed.

(** [collapsePackageVersions] on well-attached patterns, one of which is
    bound to a manifest of the version asked for: it returns, and every
    pattern of the list is then bound to one manifest of that version. *)
Lemma collapsePackageVersions_spec n v ps this :
  (forall p, p ∈ ps -> well_attached this p /\ p <> "") ->
  lockfile_total (PackageResolver.lockfile this) ->
  (exists p m, p ∈ ps /\ PackageResolver.patterns this !! p = Some m /\
               Types.version m = v) ->
  exists pt mt this',
    PackageResolver.collapsePackageVersions n v ps this = Ok (pt, this') /\
    Types.version mt = v /\
    forall p, p ∈ ps -> PackageResolver.patterns this' !! p = Some mt.
Proof.
  intros Hatt Htot Hv. unfold PackageResolver.collapsePackageVersions.
  destruct (collapseTarget_spec this v ps) as (pt & mt & -> & Hpt & Hmt & Hvt).
  { intros p Hp. destruct (Hatt p Hp) as [(m & _ & _ & Hm & _) _]. by eexists. }
  { done. }
  cbn [mbind Result_bind].
  destruct (Hatt pt Hpt) as [(mt' & target & rt & Hmt' & Href & Hrt & _) Hne].
  rewrite Hmt in Hmt'. injection Hmt' as <-. rewrite Href.
  rewrite bool_decide_eq_true_2 by (by eexists).
  assert (Js.truthy pt = true) as -> by (by destruct pt).
  cbn [andb].
  destruct (collapse_loop ps pt target mt ps [] this) as (this' & -> & Hinv);
    [done|done|done| |].
  { split; [by intros p Hp; apply Hatt|]. split; [by intros p ?%elem_of_nil|].
    done. }
  cbn [mbind Result_bind]. exists pt, mt, this'. split; [done|].
  split; [done|]. destruct Hinv as (_ & Hall & _). exact Hall.
Qed.

(** *** Choosing what to collapse *)

Lemma collapsableFilter_spec ps : forall this,
  (forall p, p ∈ ps -> is_Some (PackageResolver.patterns this !! p)) ->
  lockfile_total (PackageResolver.lockfile this) ->
  exists lf,
    PackageResolver.collapsableFilter ps this
    = Ok (List.filter (is_collapsable this) ps, PackageResolver.set_lockfile lf this) /\
    lockfile_shape lf = lockfile_shape (PackageResolver.lockfile this).
Proof.
  induction ps as [|p ps IH]; intros this Hbound Htot.
  - exists (PackageResolver.lockfile this). split; [|done]. simpl. by destruct this.
  - cbn [PackageResolver.collapsableFilter List.filter].
    destruct (Hbound p) as [m Hm]; [by left|]. rewrite Hm.
    destruct (resolver_getLocked_total p this Htot)
      as (shrunk & lf1 & -> & Hstatus & Hshape1).
    cbn [mbind Result_bind].
    destruct (IH (PackageResolver.set_lockfile lf1 this)) as (lf2 & -> & Hshape2).
    { intros q Hq. apply Hbound. by right. }
    { eapply lockfile_total_shape; [|exact Htot]. simpl. by symmetry. }
    cbn [mbind Result_bind]. exists lf2. split; [|by rewrite Hshape2].
    assert (forall q, is_collapsable (PackageResolver.set_lockfile lf1 this) q
                      = is_collapsable this q) as Hsame.
    { intros q. unfold is_collapsable. simpl.
      by rewrite (locked_status_shape lf1 (PackageResolver.lockfile this) q Hshape1). }
    rewrite (List.filter_ext _ _ Hsame).
    assert (is_collapsable this p
            = negb (bool_decide (is_Some shrunk)) &&
              match Types._remote m with
              | Some r => negb (String.eqb (Types.type r) "workspace")
              | None => true
              end) as ->.
    { unfold is_collapsable. rewrite Hstatus, Hm.
      by destruct (bool_decide (is_Some shrunk)). }
    reflexivity.
Qed.

Lemma dedupePatterns_loop_spec this ps : forall seen,
  let res := PackageResolver.dedupePatterns_loop this ps seen in
  (forall p, p ∈ res -> p ∈ ps) /\
  NoDup (id_of this <$> res) /\
  (forall p, p ∈ res -> id_of this p ∉ seen).
Proof.
  induction ps as [|p ps IH]; intros seen; simpl.
  - split; [done|]. split; [constructor|]. by intros p ?%elem_of_nil.
  - unfold PackageResolver.getResolvedPattern. fold (id_of this p).
    case_bool_decide as Hseen.
    + destruct (IH seen) as (Hsub & Hnd & Hnot).
      split; [|done]. intros q Hq. right. by apply Hsub.
    + destruct (IH (id_of this p :: seen)) as (Hsub & Hnd & Hnot).
      split; [|split].
      * intros q [->|Hq]%elem_of_cons; [by left|right; by apply Hsub].
      * rewrite fmap_cons. apply NoDup_cons. split; [|done].
        intros (q & Heq & Hq)%list_elem_of_fmap.
        apply (Hnot q Hq). rewrite <- Heq. by left.
      * intros q [->|Hq]%elem_of_cons; [done|].
        intros Hin. apply (Hnot q Hq). by right.
Qed.

Lemma NoDup_fmap_filter {A B} (f : A -> B) (P : A -> bool) (l : list A) :
  NoDup (f <$> l) -> NoDup (f <$> List.filter P l).
Proof.
  induction l as [|x l IH]; [done|]. cbn [List.filter].
  rewrite fmap_cons. intros [Hx Hnd]%NoDup_cons.
  destruct (P x); [|by apply IH].
  rewrite fmap_cons. apply NoDup_cons. split; [|by apply IH].
  intros (y & Heq & Hy)%list_elem_of_fmap. apply Hx.
  apply list_elem_of_fmap. exists y. split; [done|].
  apply list_elem_of_In. apply list_elem_of_In in Hy.
  by apply List.filter_In in Hy as [? _].
Qed.

(** On patterns bound to distinct manifests, [getAllInfoForPatterns]
    drops nothing. *)
Lemma getAllInfoForPatterns_loop_distinct this ps : forall seen,
  NoDup (id_of this <$> ps) ->
  (forall p, p ∈ ps -> id_of this p ∉ seen) ->
  PackageResolver.getAllInfoForPatterns_loop this ps seen
  = (fun p => PackageResolver.patterns this !! p) <$> ps.
Proof.
  induction ps as [|p ps IH]; intros seen Hnd Hnot; simpl; [done|].
  rewrite fmap_cons in Hnd. apply NoDup_cons in Hnd as [Hp Hnd].
  fold (id_of this p).
  rewrite bool_decide_eq_false_2 by (apply Hnot; by left).
  f_equal. apply IH; [done|].
  intros q Hq [Heq|Hin]%elem_of_cons.
  - apply Hp. apply list_elem_of_fmap. by exists q.
  - apply (Hnot q); [by right|done].
Qed.

Lemma versionsOf_bound this ps :
  (forall p, p ∈ ps -> is_Some (PackageResolver.patterns this !! p)) ->
  PackageResolver.versionsOf ((fun p => PackageResolver.patterns this !! p) <$> ps)
  = Ok (known_versions this ps).
Proof.
  induction ps as [|p ps IH]; intros Hbound; [done|].
  rewrite fmap_cons. unfold known_versions. cbn [omap list_omap].
  destruct (Hbound p) as [m Hm]; [by left|]. rewrite Hm.
  cbn [PackageResolver.versionsOf fmap option_fmap option_map].
  rewrite IH by (intros q Hq; apply Hbound; by right). done.
Qed.

Lemma known_versions_elem this ps v :
  v ∈ known_versions this ps <->
  exists p m, p ∈ ps /\ PackageResolver.patterns this !! p = Some m /\
              Types.version m = v.
Proof.
  unfold known_versions. rewrite list_elem_of_omap. split.
  - intros (p & Hp & Hv).
    destruct (PackageResolver.patterns this !! p) as [m|] eqn:Hm; [|done].
    injection Hv as <-. by exists p, m.
  - intros (p & m & Hp & Hm & <-). exists p. by rewrite Hm.
Qed.

(** In a list sorted by a consistent comparator, the first element with
    a property precedes every element with that property. *)
Lemma find_in_sorted {A} (R : relation A) (P : A -> bool) (l : list A) v :
  (forall a, R a a) -> StronglySorted R l ->
  List.find P l = Some v ->
  forall w, w ∈ l -> P w = true -> R v w.
Proof.
  intros Hrefl Hs. induction Hs as [|x l Hs IH Hall]; simpl; [discriminate|].
  destruct (P x) eqn:Hx.
  - intros [= <-] w [->|Hw]%elem_of_cons _; [done|].
    rewrite Forall_forall in Hall. by apply Hall.
  - intros Hfind w [->|Hw]%elem_of_cons Hpw; [congruence|]. by apply IH.
Qed.

Lemma find_highest (sv : Semver.lib) (P : string -> bool) (vs : list string) :
  Semver.rcompare_consistent sv ->
  (exists v, v ∈ vs /\ P v = true) ->
  exists v,
    List.find P (Misc.sort_by (Semver.rcompare sv) vs) = Some v /\
    v ∈ vs /\ P v = true /\
    forall w, w ∈ vs -> P w = true -> Semver.ge sv v w.
Proof.
  intros [Htot Htrans] (v0 & Hv0 & Hp0).
  assert (Total (Misc.precedes (Semver.rcompare sv))) as HT by exact Htot.
  assert (Transitive (Misc.precedes (Semver.rcompare sv))) as HTr by exact Htrans.
  pose proof (merge_sort_Permutation (Misc.precedes (Semver.rcompare sv)) vs) as Hperm.
  pose proof (StronglySorted_merge_sort (Misc.precedes (Semver.rcompare sv)) vs) as Hs.
  fold (Misc.sort_by (Semver.rcompare sv) vs) in Hperm, Hs.
  destruct (List.find P (Misc.sort_by (Semver.rcompare sv) vs)) as [v|] eqn:Hfind.
  - exists v. split; [done|].
    destruct (List.find_some _ _ Hfind) as [Hin Hpv].
    apply list_elem_of_In in Hin. rewrite Hperm in Hin.
    split; [done|]. split; [done|].
    intros w Hw Hpw.
    apply (find_in_sorted (Misc.precedes (Semver.rcompare sv)) P
             (Misc.sort_by (Semver.rcompare sv) vs) v); try done.
    + intros a. by destruct (Htot a a).
    + by rewrite Hperm.
  - exfalso. rewrite <- Hperm in Hv0. apply list_elem_of_In in Hv0.
    pose proof (List.find_none _ _ Hfind v0 Hv0). congruence.
Qed.

Lemma forallb_fmap_true {A B} (f : B -> bool) (g : A -> B) (l : list A) :
  forallb f (g <$> l) = true <-> forall x, x ∈ l -> f (g x) = true.
Proof.
  induction l as [|x l IH].
  - split; [by intros _ x ?%elem_of_nil|done].
  - rewrite fmap_cons. cbn [forallb]. rewrite andb_true_iff, IH. split.
    + intros [Hx Hl] y [->|Hy]%elem_of_cons; [done|by apply Hl].
    + intros H. split; [apply H; by left|]. intros y Hy. apply H. by right.
Qed.

Lemma elem_of_filter_bool {A} (P : A -> bool) (l : list A) x :
  x ∈ List.filter P l <-> x ∈ l /\ P x = true.
Proof. rewrite !list_elem_of_In. apply List.filter_In. Qed.

(** C3, as the code has it.  [optimizeResolutions] for a package name
    first keeps one pattern per manifest ([dedupePatterns]) and, among
    those, looks only at the collapsible ones: the patterns for which the
    lockfile has no entry and whose manifest has no workspace remote.
    When at least two remain and some version among their manifests
    satisfies the range of every one of them, the call returns, the
    version it picks is the highest such version, and afterwards every
    one of these patterns is bound to one and the same manifest, whose
    version is the one picked.  The resolver is taken in a sound state:
    the patterns listed for the name are bound and listed by their
    references, none is the empty string, the lockfile has no cycle of
    links, and [semver.rcompare] is a consistent comparator. *)
Theorem optimizeResolutions_collapses (env : PackageResolver.Env)
    (this : PackageResolver.t) (n : string) :
  Semver.rcompare_consistent (PackageResolver.sv env) ->
  (forall p, p ∈ default [] (PackageResolver.patternsByPackage this !! n) ->
             well_attached this p /\ p <> "") ->
  lockfile_total (PackageResolver.lockfile this) ->
  let cands :=
    List.filter (is_collapsable this)
      (PackageResolver.dedupePatterns this
         (default [] (PackageResolver.patternsByPackage this !! n))) in
  let versions := known_versions this cands in
  let fits v :=
    forall p, p ∈ cands ->
      Semver.satisfies (PackageResolver.sv env) v
        (NormalizePattern.range (NormalizePattern.normalizePattern p)) false
      = true in
  2 <= List.length cands ->
  (exists v, v ∈ versions /\ fits v) ->
  (forall p, p ∈ cands ->
     locked_status (PackageResolver.lockfile this) p = Ok false /\
     exists m, PackageResolver.patterns this !! p = Some m /\
               (Types.type <$> Types._remote m) <> Some "workspace") /\
  exists this' v mt,
    PackageResolver.optimizeResolutions env n this = Ok this' /\
    v ∈ versions /\ fits v /\
    (forall w, w ∈ versions -> fits w ->
               Semver.ge (PackageResolver.sv env) v w) /\
    Types.version mt = v /\
    forall p, p ∈ cands -> PackageResolver.patterns this' !! p = Some mt.
Proof.
  intros Hcons Hwf Htot cands versions fits Hlen Hex.
  set (byName := default [] (PackageResolver.patternsByPackage this !! n)) in *.
  destruct (dedupePatterns_loop_spec this byName []) as (Hsub & Hnd & _).
  fold (PackageResolver.dedupePatterns this byName) in Hsub, Hnd.
  assert (Hcands : forall p, p ∈ cands -> p ∈ byName).
  { intros p [Hp _]%elem_of_filter_bool. by apply Hsub. }
  split.
  { intros p [Hp Hc]%elem_of_filter_bool. unfold is_collapsable in Hc.
    destruct (locked_status (PackageResolver.lockfile this) p) as [[]|]; try done.
    split; [done|].
    destruct (PackageResolver.patterns this !! p) as [m|]; [|done].
    exists m. split; [done|].
    destruct (Types._remote m) as [r|]; simpl; [|done].
    intros [= Hty]. rewrite Hty in Hc. done. }
  destruct (collapsableFilter_spec (PackageResolver.dedupePatterns this byName) this)
    as (lf & Hfilter & Hshape).
  { intros p Hp. destruct (Hwf p (Hsub p Hp)) as [(m & _ & _ & Hm & _) _].
    by eexists. }
  { done. }
  unfold PackageResolver.optimizeResolutions. fold byName.
  rewrite Hfilter. cbn [mbind Result_bind]. fold cands.
  set (this1 := PackageResolver.set_lockfile lf this).
  assert (Htot1 : lockfile_total (PackageResolver.lockfile this1)).
  { eapply lockfile_total_shape; [|exact Htot]. simpl. by symmetry. }
  assert (Hwf1 : forall p, p ∈ cands -> well_attached this1 p /\ p <> "").
  { intros p Hp. exact (Hwf p (Hcands p Hp)). }
  assert (Nat.ltb (List.length cands) 2 = false) as -> by (apply Nat.ltb_ge; lia).
  unfold PackageResolver.getAllInfoForPatterns.
  rewrite (getAllInfoForPatterns_loop_distinct this1 cands []).
  2:{ change (NoDup (id_of this <$> cands)). by apply NoDup_fmap_filter. }
  2:{ by intros p _ ?%elem_of_nil. }
  rewrite (versionsOf_bound this1 cands).
  2:{ intros p Hp. destruct (Hwf1 p Hp) as [(m & _ & _ & Hm & _) _]. by eexists. }
  cbn [mbind Result_bind].
  change (known_versions this1 cands) with versions.
  set (P := fun version0 =>
              forallb (fun range => Semver.satisfies (PackageResolver.sv env)
                                      version0 range false)
                ((fun pattern => NormalizePattern.range
                                   (NormalizePattern.normalizePattern pattern))
                   <$> cands)).
  assert (HP : forall v, P v = true <-> fits v).
  { intros v. unfold P. apply forallb_fmap_true. }
  destruct (find_highest (PackageResolver.sv env) P versions Hcons)
    as (v & Hfind & Hv & Hpv & Hmax).
  { destruct Hex as (v0 & Hv0 & Hf0). exists v0. split; [done|]. by apply HP. }
  rewrite Hfind.
  destruct (collapsePackageVersions_spec n v cands this1 Hwf1 Htot1)
    as (pt & mt & this' & Hrun & Hvm & Hall).
  { by apply known_versions_elem in Hv. }
  rewrite Hrun. cbn [mbind Result_bind].
  exists this', v, mt. split; [done|]. split; [done|].
  split; [by apply HP|]. split; [|done].
  intros w Hw Hfw. apply Hmax; [done|]. by apply HP.
Qed.

Lemma optimizeResolutions_collapses_witness :
  exists this' v mt,
    PackageResolver.optimizeResolutions Instance.env "c" Sample.flat_c = Ok this' /\
    Types.version mt = v /\
    PackageResolver.patterns this' !! "c@*" = Some mt /\
    PackageResolver.patterns this' !! "c@1.0.5" = Some mt /\
    Semver.satisfies Instance.semver v "1.0.5" false = true.
Proof.
  assert (Hby : default [] (PackageResolver.patternsByPackage Sample.flat_c !! "c")
                = ["c@*"; "c@1.0.5"]) by (vm_compute; reflexivity).
  assert (Hc : List.filter (is_collapsable Sample.flat_c)
                 (PackageResolver.dedupePatterns Sample.flat_c
                    (default [] (PackageResolver.patternsByPackage Sample.flat_c !! "c")))
               = ["c@*"; "c@1.0.5"]) by (vm_compute; reflexivity).
  pose proof (optimizeResolutions_collapses Instance.env Sample.flat_c "c"
                instance_rcompare_consistent) as H.
  cbv zeta in H.
  destruct H as (_ & this' & v & mt & Hrun & _ & Hfits & _ & Hv & Hall).
  - intros p Hp. rewrite Hby in Hp.
    apply elem_of_cons in Hp as [->|Hp];
      [|apply list_elem_of_singleton in Hp as ->].
    + split; [|discriminate].
      exists (Sample.manifest 1 "c" "1.1.0" 1), 1,
             (Sample.reference "c" "1.1.0" ["c@*"]).
      split; [vm_compute; reflexivity|]. split; [reflexivity|].
      split; [vm_compute; reflexivity|]. apply list_elem_of_singleton. reflexivity.
    + split; [|discriminate].
      exists (Sample.manifest 2 "c" "1.0.5" 2), 2,
             (Sample.reference "c" "1.0.5" ["c@1.0.5"]).
      split; [vm_compute; reflexivity|]. split; [reflexivity|].
      split; [vm_compute; reflexivity|]. apply list_elem_of_singleton. reflexivity.
  - intros p. exists false.
    unfold locked_status, Lockfile.getLocked. cbn. rewrite lookup_empty. reflexivity.
  - rewrite Hc. simpl. lia.
  - exists "1.0.5". split.
    + rewrite Hc. vm_compute. apply elem_of_cons. right. apply elem_of_cons. by left.
    + intros p Hp. rewrite Hc in Hp.
      apply elem_of_cons in Hp as [->|Hp];
        [|apply list_elem_of_singleton in Hp as ->]; reflexivity.
  - exists this', v, mt. split; [exact Hrun|]. split; [exact Hv|].
    split; [apply Hall; rewrite Hc; apply elem_of_cons; by left|].
    split; [apply Hall; rewrite Hc; apply elem_of_cons; right;
            apply elem_of_cons; by left|].
    apply (Hfits "c@1.0.5"). rewrite Hc. apply elem_of_cons. right.
    apply elem_of_cons. by left.
Defined.

(** C3 fails as stated when a pattern shares its manifest with a locked
    one.  Here [c@*], [c@1.0.5] and [c@] have no lockfile entry and no
    workspace remote, and version 1.0.5 satisfies the range of each; but
    [c@*] is bound to the manifest of the locked [c@1.1.0], so
    [dedupePatterns] has dropped it before the filter: after the call
    [c@1.0.5] and [c@] are bound to 1.0.5 while [c@*] is still bound to
    1.1.0. *)
Lemma optimizeResolutions_skips_shared_manifest :
  (forall p, p ∈ ["c@*"; "c@1.0.5"; "c@"] ->
     locked_status (PackageResolver.lockfile Sample.flat_shared) p = Ok false /\
     (exists m, PackageResolver.patterns Sample.flat_shared !! p = Some m /\
                (Types.type <$> Types._remote m) = Some "tarball") /\
     Semver.satisfies Instance.semver "1.0.5"
       (NormalizePattern.range (NormalizePattern.normalizePattern p)) false = true) /\
  "1.0.5" ∈ known_versions Sample.flat_shared ["c@*"; "c@1.0.5"; "c@"] /\
  exists this',
    PackageResolver.optimizeResolutions Instance.env "c" Sample.flat_shared
      = Ok this' /\
    Types.version <$> PackageResolver.patterns this' !! "c@1.0.5" = Some "1.0.5" /\
    Types.version <$> PackageResolver.patterns this' !! "c@" = Some "1.0.5" /\
    Types.version <$> PackageResolver.patterns this' !! "c@*" = Some "1.1.0".
Proof.
  split; [|split].
  - intros p Hp. repeat (apply elem_of_cons in Hp as [->|Hp]);
      [| | |by apply elem_of_nil in Hp];
      (split; [vm_compute; reflexivity|]);
      (split; [eexists; split; vm_compute; reflexivity|vm_compute; reflexivity]).
  - vm_compute. apply elem_of_cons. right. apply elem_of_cons. by left.
  - destruct (PackageResolver.optimizeResolutions Instance.env "c" Sample.flat_shared)
      as [this'|e] eqn:E; vm_compute in E; [|discriminate E].
    injection E as <-. eexists. split; [reflexivity|].
    repeat split; vm_compute; reflexivity.
Qed.

(** ** More on patterns *)

Lemma join_cons_cons sep p q qs :
  Js.join sep (p :: q :: qs) = p ++ sep ++ Js.join sep (q :: qs).
Proof. reflexivity. Qed.

Lemma string_app_assoc (a b c : string) : (a ++ b) ++ c = a ++ b ++ c.
Proof.
  induction a as [|x a IH]; [done|].
  change (String x ((a ++ b) ++ c) = String x (a ++ b ++ c)). by rewrite IH.
Qed.

(** What the body of [normalizePattern] makes of the string left after
    the scope marker. *)
Lemma split_reassemble s :
  match Js.split "@"%char s with
  | first :: (_ :: _) as rest => first ++ "@" ++ Js.join "@" rest = s
  | _ => Js.has_char "@"%char s = false
  end.
Proof.
  pose proof (join_split "@"%char s) as Hjoin.
  assert (Hone : forall t, Js.split "@"%char t = [t] \/
                           exists a b c, Js.split "@"%char t = a :: b :: c).
  { intros t. pose proof (split_not_nil "@"%char t).
    destruct (Js.split "@"%char t) as [|a [|b c]] eqn:E; [done| |right; by eexists _, _, _].
    left. pose proof (join_split "@"%char t) as H'. rewrite E in H'. simpl in H'.
    by rewrite H'. }
  destruct (Js.split "@"%char s) as [|first [|q qs]] eqn:E.
  - by destruct (split_not_nil "@"%char s).
  - simpl in Hjoin. subst first.
    induction s as [|c s IH]; [reflexivity|].
    simpl in E. simpl.
    destruct (Ascii.eqb c "@") eqn:Hc; [discriminate|]. simpl.
    destruct (Hone s) as [Hs|(a & b & c' & Hs)]; rewrite Hs in E.
    + apply IH. exact Hs.
    + discriminate.
  - exact Hjoin.
Qed.

(** X1.  The parts [normalizePattern] returns put the pattern together
    again, for every string: with [hasVersion] the pattern is
    [name@range]; without it either the whole pattern is the name and the
    range is [latest], or the pattern is [name@] and the range is [*]. *)
Theorem normalizePattern_reassemble (pattern : string) :
  let np := NormalizePattern.normalizePattern pattern in
  if NormalizePattern.hasVersion np
  then NormalizePattern.name np ++ "@" ++ NormalizePattern.range np = pattern
  else (NormalizePattern.range np = "latest" /\
        NormalizePattern.name np = pattern) \/
       (NormalizePattern.range np = "*" /\
        NormalizePattern.name np ++ "@" = pattern).
Proof.
  assert (Hcore : forall (scope s : string),
    let '(n, r, h) :=
      if Nat.ltb 1 (List.length (Js.split "@"%char s)) then
        match Js.split "@"%char s with
        | first :: rest =>
            if Js.truthy (Js.join "@" rest) then (first, Js.join "@" rest, true)
            else (first, "*", false)
        | [] => (s, "latest", false)
        end
      else (s, "latest", false) in
    if h then (scope ++ n) ++ "@" ++ r = scope ++ s
    else (r = "latest" /\ scope ++ n = scope ++ s) \/
         (r = "*" /\ (scope ++ n) ++ "@" = scope ++ s)).
  { intros scope s. pose proof (split_reassemble s) as H.
    destruct (Js.split "@"%char s) as [|first [|q qs]] eqn:E.
    - by left.
    - simpl. by left.
    - cbn [List.length Nat.ltb Nat.leb].
      destruct (Js.truthy (Js.join "@" (q :: qs))) eqn:Ht.
      + rewrite <- H. by rewrite string_app_assoc.
      + right. split; [done|].
        destruct (Js.join "@" (q :: qs)); [|discriminate].
        rewrite <- H. by rewrite string_app_assoc. }
  unfold NormalizePattern.normalizePattern.
  destruct pattern as [|c rest].
  - simpl. by left.
  - destruct (Ascii.eqb_spec c "@"%char) as [->|Hne].
    + pose proof (Hcore "@" rest) as H. cbv beta iota.
      destruct (Nat.ltb 1 (List.length (Js.split "@"%char rest))).
      * destruct (Js.split "@"%char rest) as [|first tl]; [exact H|].
        destruct (Js.truthy (Js.join "@" tl)); exact H.
      * exact H.
    + pose proof (Hcore "" (String c rest)) as H.
      assert (Hscope :
        match String c rest with
        | String "@"%char rest0 => (true, rest0)
        | _ => (false, String c rest)
        end = (false, String c rest)).
      { destruct c as [[] [] [] [] [] [] [] []]; try reflexivity. by destruct Hne. }
      rewrite Hscope. cbv beta iota.
      destruct (Nat.ltb 1 (List.length (Js.split "@"%char (String c rest)))).
      * destruct (Js.split "@"%char (String c rest)) as [|first tl]; [exact H|].
        destruct (Js.truthy (Js.join "@" tl)); exact H.
      * exact H.
Qed.

(** X2.  A package name on its own, with no separator after it, gets the
    range [latest] and [hasVersion = false]. *)
Theorem normalizePattern_missing_range n :
  package_name n ->
  NormalizePattern.normalizePattern n = NormalizePattern.mk n "latest" false.
Proof.
  intros [[Hne Hfree] | (rest & -> & Hfree)].
  - destruct n as [|c n]; [done|].
    unfold NormalizePattern.normalizePattern.
    assert (Hc : c <> "@"%char).
    { simpl in Hfree. apply orb_false_elim in Hfree as [Hc _].
      by apply Ascii.eqb_neq. }
    assert (Hscope :
      match String c n with
      | String "@"%char rest => (true, rest)
      | _ => (false, String c n)
      end = (false, String c n)).
    { destruct c as [[] [] [] [] [] [] [] []]; try reflexivity. by destruct Hc. }
    rewrite Hscope. by rewrite (split_without_sep _ _ Hfree).
  - unfold NormalizePattern.normalizePattern. cbv beta iota.
    by rewrite (split_without_sep _ _ Hfree).
Qed.

Lemma normalizePattern_missing_range_witness :
  NormalizePattern.normalizePattern "@scope/pkg"
  = NormalizePattern.mk "@scope/pkg" "latest" false.
Proof.
  apply (normalizePattern_missing_range "@scope/pkg").
  right. exists "scope/pkg". split; reflexivity.
Defined.

(** ** More on references *)

Lemma addLocation_locations loc r :
  PackageReference.locations (PackageReference.addLocation loc r)
  = if bool_decide (loc ∈ PackageReference.locations r)
    then PackageReference.locations r
    else (PackageReference.locations r ++ [loc])%list.
Proof.
  unfold PackageReference.addLocation.
  destruct (Js.indexOf loc (PackageReference.locations r)) as [i|] eqn:E.
  - rewrite bool_decide_eq_true_2; [done|].
    destruct (decide (loc ∈ PackageReference.locations r)) as [|Hn]; [done|].
    apply indexOf_None in Hn. congruence.
  - apply indexOf_None in E. by rewrite bool_decide_eq_false_2.
Qed.

(** X3.  Whatever locations are added to a reference, in whatever order
    and however often, its [locations] list holds no location twice; it
    holds exactly the locations it had and those added, the ones it had
    staying in front. *)
Theorem addLocation_no_duplicates (locs : list string) (r : PackageReference.t) :
  NoDup (PackageReference.locations r) ->
  let r' := foldl (fun r loc => PackageReference.addLocation loc r) r locs in
  NoDup (PackageReference.locations r') /\
  (forall x, x ∈ PackageReference.locations r' <->
             x ∈ PackageReference.locations r \/ x ∈ locs) /\
  exists added, PackageReference.locations r'
                = (PackageReference.locations r ++ added)%list.
Proof.
  revert r. induction locs as [|loc locs IH]; intros r Hnd; simpl.
  - split; [done|]. split.
    + intros x. split; [by left|]. by intros [?|?%elem_of_nil].
    + exists []. by rewrite app_nil_r.
  - pose proof (addLocation_locations loc r) as Hloc.
    destruct (IH (PackageReference.addLocation loc r)) as (Hnd' & Hin & added & Hpre).
    { rewrite Hloc. case_bool_decide as Hc; [done|].
      apply NoDup_app. split; [done|]. split; [|apply NoDup_singleton].
      intros x Hx ->%list_elem_of_singleton. done. }
    split; [done|]. split.
    + intros x. rewrite Hin, Hloc. case_bool_decide as Hc.
      * split.
        -- intros [?|?]; [by left|right; by right].
        -- intros [?|[ ->|?]%elem_of_cons]; [by left|by left|by right].
      * rewrite elem_of_app, list_elem_of_singleton. split.
        -- intros [[?| ->]|?]; [by left|right; by left|right; by right].
        -- intros [?|[ ->|?]%elem_of_cons]; [left; by left|left; by right|by right].
    + rewrite Hpre, Hloc. case_bool_decide.
      * by exists added.
      * exists (loc :: added). by rewrite <- app_assoc.
Qed.

Lemma addLocation_no_duplicates_witness :
  PackageReference.locations
    (foldl (fun r loc => PackageReference.addLocation loc r)
           (Sample.reference "a" "1.1.0" [])
           ["/n/a"; "/n/b"; "/n/a"])
  = ["/n/a"; "/n/b"] /\
  NoDup (PackageReference.locations
           (foldl (fun r loc => PackageReference.addLocation loc r)
                  (Sample.reference "a" "1.1.0" [])
                  ["/n/a"; "/n/b"; "/n/a"])).
Proof.
  split; [reflexivity|].
  apply (addLocation_no_duplicates ["/n/a"; "/n/b"; "/n/a"]
           (Sample.reference "a" "1.1.0" [])).
  constructor.
Defined.

Lemma addRequest_fold reqs : forall (q : PackageReference.Requested),
  let q' := foldl (fun q r => PackageReference.addRequest r q) q reqs in
  PackageReference.requests q' = (PackageReference.requests q ++ reqs)%list /\
  PackageReference.level (PackageReference.ref q')
  = match reqs with
    | [] => PackageReference.level (PackageReference.ref q)
    | _ :: _ =>
        Some (foldl Nat.min
                (PackageReference.minLevel
                   (PackageReference.level (PackageReference.ref q))
                   (List.length (default [] (head reqs))))
                (List.length <$> tail reqs))
    end.
Proof.
  induction reqs as [|r reqs IH]; intros q; simpl.
  - by rewrite app_nil_r.
  - destruct (IH (PackageReference.addRequest r q)) as [Hreq Hlvl].
    split; [by rewrite Hreq; simpl; rewrite <- app_assoc|].
    rewrite Hlvl. destruct reqs as [|r2 reqs]; [done|]. simpl. done.
Qed.

Lemma foldl_min_le (l : list nat) : forall m,
  foldl Nat.min m l <= m /\
  (forall x, x ∈ l -> foldl Nat.min m l <= x) /\
  (foldl Nat.min m l = m \/ foldl Nat.min m l ∈ l).
Proof.
  induction l as [|y l IH]; intros m; simpl.
  - split; [lia|]. split; [by intros x ?%elem_of_nil|by left].
  - destruct (IH (Nat.min m y)) as (Hle & Hall & Hmem).
    split; [lia|]. split.
    + intros x [->|Hx]%elem_of_cons; [lia|by apply Hall].
    + destruct Hmem as [Heq|Hin]; [|right; by right].
      rewrite Heq.
      destruct (Nat.min_spec m y) as [[_ ->]|[_ ->]]; [by left|right; by left].
Qed.

(** X4.  After construction with a first request and any further
    [addRequest] calls, [requests] lists the requests in order and
    [level] is the least length of a parent chain among them: it is the
    length of one of the chains, and no chain is shorter. *)
Theorem addRequest_level_is_minimum (first : list string)
    (more : list (list string)) n v u rem :
  let q := foldl (fun q r => PackageReference.addRequest r q)
                 (PackageReference.construct first n v u rem) more in
  PackageReference.requests q = first :: more /\
  exists lvl,
    PackageReference.level (PackageReference.ref q) = Some lvl /\
    (exists r, r ∈ first :: more /\ lvl = List.length r) /\
    (forall r, r ∈ first :: more -> lvl <= List.length r).
Proof.
  intros q. subst q.
  destruct (addRequest_fold more (PackageReference.construct first n v u rem))
    as [Hreq Hlvl].
  split; [exact Hreq|].
  assert (Hgen : exists lvl,
            PackageReference.level
              (PackageReference.ref
                 (foldl (fun q r => PackageReference.addRequest r q)
                        (PackageReference.construct first n v u rem) more))
            = Some lvl /\
            lvl = foldl Nat.min (List.length first) (List.length <$> more)).
  { rewrite Hlvl. destruct more as [|r more]; simpl; [by eexists|].
    eexists. split; [reflexivity|done]. }
  destruct Hgen as (lvl & Hl & ->). exists (foldl Nat.min (List.length first)
                                               (List.length <$> more)).
  split; [exact Hl|].
  destruct (foldl_min_le (List.length <$> more) (List.length first))
    as (Hle & Hall & Hmem).
  split.
  - destruct Hmem as [->|Hin].
    + exists first. split; [by left|done].
    + apply list_elem_of_fmap in Hin as (r & Hr & Hin).
      exists r. split; [by right|done].
  - intros r [->|Hr]%elem_of_cons; [done|].
    apply Hall. apply list_elem_of_fmap. by exists r.
Qed.

(** ** More on the lockfile *)

Lemma or_else_idempotent x d :
  Lockfile.or_else (Some (Lockfile.or_else x d)) d = Lockfile.or_else x d.
Proof.
  unfold Lockfile.or_else. destruct x as [s0|].
  - destruct (Js.truthy s0) eqn:E; [by rewrite E|]. by destruct (Js.truthy d).
  - by destruct (Js.truthy d).
Qed.

Lemma explodeEntry_idempotent pattern e :
  Lockfile.explodeEntry pattern (Lockfile.explodeEntry pattern e)
  = Lockfile.explodeEntry pattern e.
Proof.
  unfold Lockfile.explodeEntry. cbn -[Lockfile.or_else].
  by rewrite !or_else_idempotent.
Qed.

Lemma blankObjectUndefined_default {V} (o : option (gmap string V)) :
  default ∅ (Lockfile.blankObjectUndefined o) = default ∅ o.
Proof.
  destruct o as [m|]; simpl; [|done].
  destruct (decide (size m = 0)) as [Hz|]; simpl; [|done].
  symmetry. by apply map_size_empty_inv.
Qed.

(** X5.  Exploding an imploded entry gives back what was imploded: for a
    manifest with a non-empty name, uid and registry, [explodeEntry] of
    [implodeEntry] of the same pattern restores name, version, uid,
    registry and resolved, and restores the three maps, an absent map
    coming back as the empty map. *)
Theorem explodeEntry_implodeEntry (pattern : string) (obj : Lockfile.ImplodeArg) :
  Lockfile.a_name obj <> "" -> Lockfile.a_uid obj <> "" ->
  Lockfile.a_registry obj <> "" ->
  let e := Lockfile.explodeEntry pattern (Lockfile.implodeEntry pattern obj) in
  Lockfile.name e = Some (Lockfile.a_name obj) /\
  Lockfile.version e = Lockfile.a_version obj /\
  Lockfile.uid e = Some (Lockfile.a_uid obj) /\
  Lockfile.registry e = Some (Lockfile.a_registry obj) /\
  Lockfile.resolved e = Lockfile.a_resolved obj /\
  Lockfile.dependencies e = Some (default ∅ (Lockfile.a_dependencies obj)) /\
  Lockfile.optionalDependencies e
    = Some (default ∅ (Lockfile.a_optionalDependencies obj)) /\
  Lockfile.permissions e = Some (default ∅ (Lockfile.a_permissions obj)).
Proof.
  intros Hn Hu Hr. cbv zeta. unfold Lockfile.explodeEntry, Lockfile.implodeEntry.
  simpl. rewrite !blankObjectUndefined_default.
  split; [|split; [done|split; [|split; [|done]]]].
  - destruct (String.eqb_spec (Lockfile.getName pattern) (Lockfile.a_name obj))
      as [->|]; simpl; [done|].
    by destruct (Lockfile.a_name obj).
  - destruct (String.eqb_spec (Lockfile.a_uid obj) (Lockfile.a_version obj))
      as [->|]; simpl; [done|].
    by destruct (Lockfile.a_uid obj).
  - destruct (String.eqb_spec (Lockfile.a_registry obj) "npm") as [->|];
      simpl; [done|].
    by destruct (Lockfile.a_registry obj).
Qed.

Lemma explodeEntry_implodeEntry_witness :
  Lockfile.name
    (Lockfile.explodeEntry "c@^1.0.0"
       (Lockfile.implodeEntry "c@^1.0.0"
          (Lockfile.implodeArg (Sample.manifest 1 "c" "1.0.5" 1)
             (Sample.remote "tarball" "https://r/c-1.0.5")
             (Sample.reference "c" "1.0.5" ["c@^1.0.0"]))))
  = Some "c".
Proof.
  apply (explodeEntry_implodeEntry "c@^1.0.0"
           (Lockfile.implodeArg (Sample.manifest 1 "c" "1.0.5" 1)
              (Sample.remote "tarball" "https://r/c-1.0.5")
              (Sample.reference "c" "1.0.5" ["c@^1.0.0"])));
    discriminate.
Defined.

(** What a successful lookup has done. *)
Lemma getLocked_rec_Some depth : forall lf p r lf',
  Lockfile.getLocked_rec depth lf p = Ok (Some r, lf') ->
  exists c k key e,
    Lockfile.cache lf = Some c /\ chain c p k key /\
    c !! key = Some (Lockfile.Entry e) /\
    r = Lockfile.explodeEntry key e /\
    lf' = Lockfile.set_cache (Some (<[key := Lockfile.Entry r]> c)) lf.
Proof.
  induction depth as [|depth IH]; intros lf p r lf'; simpl; [discriminate|].
  destruct (Lockfile.cache lf) as [c|] eqn:Hc; [|discriminate].
  destruct (c !! p) as [[q|e]|] eqn:Hp; [| |discriminate].
  - intros H. destruct (IH _ _ _ _ H) as (c' & k & key & e & Hc' & Hch & He & Hr & Hlf).
    rewrite Hc in Hc'. injection Hc' as <-.
    exists c, (S k), key, e. repeat split; try done. by econstructor.
  - intros [= <- <-]. exists c, 0, p, e. repeat split; try done. constructor.
Qed.

Lemma getLocked_rec_None depth : forall lf p lf',
  Lockfile.getLocked_rec depth lf p = Ok (None, lf') -> lf' = lf.
Proof.
  induction depth as [|depth IH]; intros lf p lf'; simpl; [discriminate|].
  destruct (Lockfile.cache lf) as [c|] eqn:Hc; [|by intros [= <-]].
  destruct (c !! p) as [[q|e]|] eqn:Hp; [apply IH|discriminate|by intros [= <-]].
Qed.

Lemma chain_same_links c c' p k key :
  (forall x q, c !! x = Some (Lockfile.Link q) -> c' !! x = Some (Lockfile.Link q)) ->
  chain c p k key -> chain c' p k key.
Proof.
  intros Hsame H. induction H as [p|p q k key Hp H IH]; [constructor|].
  econstructor; [by apply Hsame|done].
Qed.

(** X6.  Looking a pattern up twice is looking it up once: the second
    lookup returns the same answer and leaves the lockfile as the first
    one left it. *)
Theorem getLocked_idempotent (lf : Lockfile.t) (pattern : string) r lf' :
  Lockfile.getLocked lf pattern = Ok (r, lf') ->
  Lockfile.getLocked lf' pattern = Ok (r, lf').
Proof.
  intros H. destruct r as [r|].
  - destruct (getLocked_rec_Some _ _ _ _ _ H)
      as (c & k & key & e & Hc & Hch & He & -> & ->).
    set (r := Lockfile.explodeEntry key e).
    rewrite (getLocked_rec_enough (<[key := Lockfile.Entry r]> c) _ pattern k key).
    + rewrite lookup_insert_eq. unfold r. rewrite explodeEntry_idempotent.
      fold r. do 2 f_equal. unfold Lockfile.set_cache. simpl.
      by rewrite insert_insert_eq.
    + reflexivity.
    + apply (chain_same_links c); [|done].
      intros x q Hx. rewrite lookup_insert_ne; [done|]. intros ->. congruence.
    + intros q. by rewrite lookup_insert_eq.
  - pose proof (getLocked_rec_None _ _ _ _ H) as Heq. subst lf'. exact H.
Qed.

Lemma getLocked_idempotent_witness :
  exists r lf',
    Lockfile.getLocked Sample.linked "b@^1.0.0" = Ok (Some r, lf') /\
    Lockfile.getLocked lf' "b@^1.0.0" = Ok (Some r, lf').
Proof.
  destruct (Lockfile.getLocked Sample.linked "b@^1.0.0") as [[[r|] lf']|e] eqn:E;
    try (vm_compute in E; discriminate E).
  exists r, lf'. split; [reflexivity|].
  exact (getLocked_idempotent Sample.linked "b@^1.0.0" (Some r) lf' E).
Defined.



(** *** [serializeIntegrity] *)

Lemma utf16_unrank_rank c : utf16_unrank (Js.utf16_rank c) = c.
Proof. destruct c as [[] [] [] [] [] [] [] []]; reflexivity. Qed.

Lemma utf16_key_inj a : forall b, Js.utf16_key a = Js.utf16_key b -> a = b.
Proof.
  induction a as [|c a IH]; intros [|d b]; simpl; try done.
  intros [= Hc Hab]. f_equal; [|by apply IH].
  by rewrite <- (utf16_unrank_rank c), Hc, utf16_unrank_rank.
Qed.

Lemma code_unit_le_str_le a b :
  Misc.code_unit_le a b <-> str_le (Js.utf16_key a) (Js.utf16_key b).
Proof.
  unfold Misc.code_unit_le, String.leb, str_le.
  destruct (String.compare (Js.utf16_key a) (Js.utf16_key b));
    split; intros; done.
Qed.

Lemma utf16_key_below s : below_E000 s = true -> Js.utf16_key s = s.
Proof.
  unfold below_E000. induction s as [|c s IH]; simpl; [done|].
  intros [Hc Hs]%andb_true_iff. rewrite (IH Hs). f_equal.
  unfold Js.utf16_rank. by rewrite Hc.
Qed.

(** Below [U+E000] the order of the code units is that of the bytes. *)
Lemma code_unit_le_below a b :
  below_E000 a = true -> below_E000 b = true ->
  Misc.code_unit_le a b <-> str_le a b.
Proof.
  intros Ha Hb. by rewrite code_unit_le_str_le, !utf16_key_below.
Qed.

#[local] Instance code_unit_le_total : Total Misc.code_unit_le.
Proof.
  intros a b. rewrite !code_unit_le_str_le. apply str_le_total.
Qed.

#[local] Instance code_unit_le_trans : Transitive Misc.code_unit_le.
Proof.
  intros a b c. rewrite !code_unit_le_str_le. apply str_le_trans.
Qed.

#[local] Instance code_unit_le_antisym : AntiSymm (=) Misc.code_unit_le.
Proof.
  intros a b. rewrite !code_unit_le_str_le. intros H1 H2.
  apply utf16_key_inj. by apply str_le_antisym.
Qed.

Lemma Sorted_code_unit_str_le (l : list string) :
  Forall (fun s => below_E000 s = true) l ->
  Sorted Misc.code_unit_le l -> Sorted str_le l.
Proof.
  intros Hall Hs. induction Hs as [|x l Hs IH Hhd]; [constructor|].
  inversion Hall as [|? ? Hx Hl]; subst.
  constructor; [by apply IH|].
  destruct Hhd as [|y l' Hxy]; constructor.
  inversion Hl; subst. by apply code_unit_le_below.
Qed.

(** No part of a split holds the separator. *)
Lemma split_parts_without_sep sep s :
  Forall (fun part => Js.has_char sep part = false) (Js.split sep s).
Proof.
  induction s as [|c s IH]; simpl; [by repeat constructor|].
  destruct (Ascii.eqb c sep) eqn:Hc; [by constructor|].
  destruct (Js.split sep s) as [|part parts]; [by repeat constructor; simpl; rewrite Hc|].
  inversion IH as [|? ? Hpart Hparts]; subst.
  constructor; [|done]. simpl. by rewrite Hc.
Qed.

(** Joining parts that do not hold the separator and splitting again
    gives the parts back. *)
Lemma split_join sep parts :
  parts <> [] -> Forall (fun part => Js.has_char sep part = false) parts ->
  Js.split sep (Js.join (String sep "") parts) = parts.
Proof.
  induction parts as [|p [|q qs] IH]; intros Hne Hall; [done| |].
  - simpl. apply split_without_sep. by inversion Hall.
  - rewrite join_cons_cons.
    change (String sep "" ++ Js.join (String sep "") (q :: qs))
      with (String sep (Js.join (String sep "") (q :: qs))).
    inversion Hall as [|? ? Hp Hrest]; subst.
    rewrite (split_at_first_sep _ _ _ Hp). f_equal. by apply IH.
Qed.

Lemma sort_default_sorted l : Sorted Misc.code_unit_le (Misc.sort_default l).
Proof. unfold Misc.sort_default. apply Sorted_merge_sort, _. Qed.

Lemma sort_default_perm l : Misc.sort_default l ≡ₚ l.
Proof. unfold Misc.sort_default. apply merge_sort_Permutation. Qed.

Lemma sort_default_unique l1 l2 :
  l1 ≡ₚ l2 -> Misc.sort_default l1 = Misc.sort_default l2.
Proof.
  intros Hperm. apply (Sorted_unique Misc.code_unit_le).
  - apply sort_default_sorted.
  - apply sort_default_sorted.
  - by rewrite !sort_default_perm.
Qed.

Lemma split_below_E000 sep s :
  below_E000 s = true ->
  Forall (fun part => below_E000 part = true) (Js.split sep s).
Proof.
  unfold below_E000. induction s as [|c s IH]; simpl; [by repeat constructor|].
  intros [Hc Hs]%andb_true_iff. specialize (IH Hs).
  destruct (Ascii.eqb c sep); [by constructor|].
  destruct (Js.split sep s) as [|part parts]; [by repeat constructor; simpl; rewrite Hc|].
  inversion IH as [|? ? Hpart Hparts]; subst.
  constructor; [|done]. simpl. by rewrite Hc.
Qed.

Lemma split_serializeIntegrity s :
  Js.split " "%char (Lockfile.serializeIntegrity s)
  = Misc.sort_default (Js.split " "%char s).
Proof.
  unfold Lockfile.serializeIntegrity. apply split_join.
  - intros Hnil. pose proof (sort_default_perm (Js.split " "%char s)) as Hperm.
    rewrite Hnil in Hperm. apply Permutation_nil in Hperm.
    by apply (split_not_nil " "%char s).
  - rewrite sort_default_perm. apply split_parts_without_sep.
Qed.

(** X8.  [serializeIntegrity] puts an integrity string in a canonical
    form: the hashes of the result are those of the argument, in the
    order of their UTF-16 code units, which is the order of their bytes
    when no hash has a character at or beyond [U+E000]; two strings with
    the same hashes in any order are serialized to the same string; and
    serializing a serialized string changes nothing. *)
Theorem serializeIntegrity_canonical (s : string) :
  Js.split " "%char (Lockfile.serializeIntegrity s) ≡ₚ Js.split " "%char s /\
  Sorted Misc.code_unit_le (Js.split " "%char (Lockfile.serializeIntegrity s)) /\
  (below_E000 s = true ->
   Sorted str_le (Js.split " "%char (Lockfile.serializeIntegrity s))) /\
  (forall s', Js.split " "%char s' ≡ₚ Js.split " "%char s ->
              Lockfile.serializeIntegrity s' = Lockfile.serializeIntegrity s) /\
  Lockfile.serializeIntegrity (Lockfile.serializeIntegrity s)
  = Lockfile.serializeIntegrity s.
Proof.
  assert (forall s', Js.split " "%char s' ≡ₚ Js.split " "%char s ->
            Lockfile.serializeIntegrity s' = Lockfile.serializeIntegrity s) as Hperm.
  { intros s' H. unfold Lockfile.serializeIntegrity.
    by rewrite (sort_default_unique _ _ H). }
  split; [|split; [|split; [|split]]].
  - rewrite split_serializeIntegrity. apply sort_default_perm.
  - rewrite split_serializeIntegrity. apply sort_default_sorted.
  - intros Hlow. rewrite split_serializeIntegrity.
    apply Sorted_code_unit_str_le; [|apply sort_default_sorted].
    rewrite sort_default_perm. by apply split_below_E000.
  - exact Hperm.
  - apply Hperm. rewrite split_serializeIntegrity. apply sort_default_perm.
Qed.

(** Two hashes in either order; and a hash that ends in a character
    beyond the basic plane ([U+1F600]) comes before one that ends in
    [U+FF21], as the code units have it and the bytes do not. *)
Lemma serializeIntegrity_canonical_witness :
  Lockfile.serializeIntegrity "sha512-b sha1-a"
  = Lockfile.serializeIntegrity "sha1-a sha512-b" /\
  Sorted str_le (Js.split " "%char (Lockfile.serializeIntegrity "sha512-b sha1-a")) /\
  Lockfile.serializeIntegrity Sample.wide_then_astral = Sample.astral_then_wide.
Proof.
  destruct (serializeIntegrity_canonical "sha1-a sha512-b") as (_ & _ & _ & H & _).
  destruct (serializeIntegrity_canonical "sha512-b sha1-a") as (_ & _ & Hs & _).
  split; [|split].
  - apply (H "sha512-b sha1-a"). vm_compute. apply perm_swap.
  - apply Hs. reflexivity.
  - vm_compute. reflexivity.
Defined.

(** *** Sharing in [getLockfile] *)

Lemma share_inv_step refs patterns x st st' :
  share_inv patterns st ->
  Lockfile.getLockfile_body refs patterns x st = Ok st' ->
  share_inv patterns st'.
Proof.
  intros (Hno & Hlen & Hseen & Hshare) Hb.
  destruct (getLockfile_body_Ok _ _ _ _ _ Hb) as (obj & _ & Hcase).
  rewrite <- key_of_remote_key in Hcase.
  destruct (key_of patterns x ≫= (Lockfile.seen st !!.)) as [addr|] eqn:Hk.
  - destruct Hcase as (objs' & Hent & Hsn & Hobjs).
    destruct (key_of patterns x) as [k|] eqn:Hkx; [|discriminate]. simpl in Hk.
    destruct (Hseen k addr Hk) as (p0 & Hp0k & Hp0).
    assert (List.length objs'
            = List.length (Lockfile.objects (Lockfile.lockfile st))) as Hl.
    { destruct Hobjs as [->|(e & n & _ & ->)]; [done|]. by rewrite length_insert. }
    assert (forall q, Lockfile.read (Lockfile.lockfile st) q
                      = Some addr -> key_of patterns q = Some k) as Hkey.
    { intros q Hq. destruct (Hshare q p0 addr Hq Hp0) as [->|(k' & Hqk & Hpk)];
        [done|congruence]. }
    unfold share_inv. rewrite Hent.
    split; [by apply no_own_proto_assign|]. split; [|split].
    + intros p a. rewrite objects_assign, Hl.
      destruct (decide (x = p)) as [<-|Hne].
      * rewrite read_assign_eq by done. intros [= <-]. by apply (Hlen p0).
      * rewrite read_assign_ne by done. apply Hlen.
    + intros k' a. rewrite Hsn. intros Hk'.
      destruct (Hseen k' a Hk') as (p & Hpk & Hp). exists p. split; [done|].
      destruct (decide (x = p)) as [<-|Hne].
      * rewrite read_assign_eq by done. congruence.
      * by rewrite read_assign_ne.
    + intros p q a.
      destruct (decide (x = p)) as [<-|Hnp], (decide (x = q)) as [<-|Hnq].
      * by left.
      * rewrite read_assign_eq, read_assign_ne by done.
        intros [= <-] Hq. right. exists k. split; [done|by apply Hkey].
      * rewrite read_assign_eq, read_assign_ne by done.
        intros Hp [= <-]. right. exists k. split; [by apply Hkey|done].
      * rewrite !read_assign_ne by done. apply Hshare.
  - destruct Hcase as (Hent & Hsn). unfold share_inv. rewrite Hent.
    split; [by apply no_own_proto_assign|]. split; [|split].
    + intros p a. rewrite objects_assign, length_app. simpl.
      destruct (decide (x = p)) as [<-|Hne].
      * rewrite read_assign_eq by done. intros [= <-]. lia.
      * rewrite read_assign_ne by done. intros Hp%Hlen. lia.
    + intros k' a. rewrite Hsn.
      destruct (key_of patterns x) as [k|] eqn:Hkx.
      * simpl in Hk. destruct (decide (k = k')) as [<-|Hne].
        -- rewrite lookup_insert_eq. intros [= <-]. exists x.
           by rewrite read_assign_eq.
        -- rewrite lookup_insert_ne by done. intros Hk'.
           destruct (Hseen k' a Hk') as (p & Hpk & Hp). exists p. split; [done|].
           rewrite read_assign_ne; [done|]. intros <-. congruence.
      * intros Hk'. destruct (Hseen k' a Hk') as (p & Hpk & Hp).
        exists p. split; [done|].
        rewrite read_assign_ne; [done|]. intros <-. congruence.
    + intros p q a.
      destruct (decide (x = p)) as [<-|Hnp], (decide (x = q)) as [<-|Hnq].
      * by left.
      * rewrite read_assign_eq, read_assign_ne by done.
        intros [= <-] Hq%Hlen. lia.
      * rewrite read_assign_eq, read_assign_ne by done.
        intros Hp%Hlen [= <-]. lia.
      * rewrite !read_assign_ne by done. apply Hshare.
Qed.

(** X9.  [getLockfile] shares an entry only between patterns with one
    remote key: in the lockfile it returns every pattern is bound to an
    entry that exists, and two different patterns bound to one entry have
    the same remote key. *)
Theorem getLockfile_shares_by_remote_key (refs : gmap nat PackageReference.t)
    (patterns : JsObject.t Types.Manifest) (lf : Lockfile.LockfileObject) :
  Lockfile.getLockfile refs patterns = Ok lf ->
  (forall p a, JsObject.get (Lockfile.entries lf) p = Some a ->
               is_Some (Lockfile.objects lf !! a)) /\
  (forall p q a,
     JsObject.get (Lockfile.entries lf) p = Some a ->
     JsObject.get (Lockfile.entries lf) q = Some a ->
     p = q \/ exists k, key_of patterns p = Some k /\ key_of patterns q = Some k).
Proof.
  unfold Lockfile.getLockfile. intros Hlf.
  destruct (for_of _ _ _) as [st'|e] eqn:Hrun; [|discriminate].
  cbn [mbind Result_bind] in Hlf. injection Hlf as <-.
  assert (share_inv patterns st') as (_ & Hlen & _ & Hshare).
  { eapply (for_of_invariant (Lockfile.getLockfile_body refs patterns)
              (fun _ => share_inv patterns)); [| |exact Hrun].
    - intros seen x rest s s' _ HI Hb. by eapply share_inv_step.
    - assert (forall p, Lockfile.read
                          {| Lockfile.entries := []; Lockfile.proto := None;
                             Lockfile.objects := [] |} p = None) as Hnone.
      { intros p. unfold Lockfile.read.
        cbn [Lockfile.entries Lockfile.proto JsObject.get].
        by destruct (String.eqb p Js.proto_key). }
      split; [done|]. split; [|split].
      + intros p a. cbn [Lockfile.lockfile]. by rewrite Hnone.
      + intros k a. simpl. by rewrite lookup_empty.
      + intros p q a. cbn [Lockfile.lockfile]. by rewrite Hnone. }
  split.
  - intros p a Hp. apply lookup_lt_is_Some. by apply (Hlen p), read_own.
  - intros p q a Hp Hq. apply (Hshare p q a); by apply read_own.
Qed.

Lemma getLockfile_shares_by_remote_key_witness :
  exists lf,
    Lockfile.getLockfile Sample.c_refs Sample.c_tilde_first = Ok lf /\
    forall p q a,
      JsObject.get (Lockfile.entries lf) p = Some a ->
      JsObject.get (Lockfile.entries lf) q = Some a ->
      p = q \/ exists k, key_of Sample.c_tilde_first p = Some k /\
                         key_of Sample.c_tilde_first q = Some k.
Proof.
  destruct (Lockfile.getLockfile Sample.c_refs Sample.c_tilde_first)
    as [lf|e] eqn:E; [|vm_compute in E; discriminate E].
  exists lf. split; [reflexivity|].
  exact (proj2 (getLockfile_shares_by_remote_key
                  Sample.c_refs Sample.c_tilde_first lf E)).
Defined.

(** ** More on the registry of the resolver *)

Lemma indexedb_indexed this : indexedb this = true -> indexed this.
Proof.
  unfold indexedb, indexed. rewrite andb_true_iff, !forallb_forall.
  intros [Hp Hl]. split.
  - intros p m Hpm. specialize (Hp (p, m)). simpl in Hp.
    destruct (PackageResolver.patternsByPackage this !! Types.name m) as [l|].
    + exists l. split; [done|]. eapply bool_decide_eq_true_1, Hp.
      apply list_elem_of_In. by apply elem_of_map_to_list.
    + discriminate Hp. apply list_elem_of_In. by apply elem_of_map_to_list.
  - intros n l Hnl. specialize (Hl (n, l)). simpl in Hl.
    eapply bool_decide_eq_true_1, Hl.
    apply list_elem_of_In. by apply elem_of_map_to_list.
Qed.

Lemma addPattern_fields p info this :
  let this' := PackageResolver.addPattern p info this in
  PackageResolver.patterns this' = <[p := info]> (PackageResolver.patterns this) /\
  PackageResolver.patternsByPackage this'
  = <[Types.name info :=
        if bool_decide (p ∈ listed this (Types.name info))
        then listed this (Types.name info)
        else (listed this (Types.name info) ++ [p])%list]>
      (PackageResolver.patternsByPackage this) /\
  PackageResolver.fetchingPatterns this' = PackageResolver.fetchingPatterns this /\
  PackageResolver.flat this' = PackageResolver.flat this /\
  PackageResolver.frozen this' = PackageResolver.frozen this /\
  PackageResolver.lockfile this' = PackageResolver.lockfile this /\
  PackageResolver.refs this' = PackageResolver.refs this /\
  PackageResolver.delayQueue this' = PackageResolver.delayQueue this.
Proof.
  cbv zeta. unfold PackageResolver.addPattern, listed. cbn.
  split; [done|]. split; [|done].
  set (l := default [] (PackageResolver.patternsByPackage this !! Types.name info)).
  destruct (Js.indexOf p l) as [i|] eqn:E.
  - apply indexOf_Some_split in E as (l1 & l2 & Hl & _ & _).
    rewrite bool_decide_eq_true_2; [done|].
    rewrite Hl. apply elem_of_app. right. by left.
  - apply indexOf_None in E. by rewrite bool_decide_eq_false_2.
Qed.

(** X10.  [addPattern] binds the pattern to the manifest and lists it
    under the manifest's name, at the end of the list when it was not
    listed and nowhere else; it touches no other binding, no other
    list and no other field; and adding the same binding again changes
    nothing. *)
Theorem addPattern_spec (p : string) (info : Types.Manifest)
    (this : PackageResolver.t) :
  let this' := PackageResolver.addPattern p info this in
  PackageResolver.patterns this' !! p = Some info /\
  (forall q, q <> p ->
     PackageResolver.patterns this' !! q = PackageResolver.patterns this !! q) /\
  p ∈ listed this' (Types.name info) /\
  ((p ∈ listed this (Types.name info) /\
    listed this' (Types.name info) = listed this (Types.name info)) \/
   ((p ∉ listed this (Types.name info)) /\
    listed this' (Types.name info)
    = (listed this (Types.name info) ++ [p])%list)) /\
  (forall n, n <> Types.name info ->
     PackageResolver.patternsByPackage this' !! n
     = PackageResolver.patternsByPackage this !! n) /\
  PackageResolver.refs this' = PackageResolver.refs this /\
  PackageResolver.lockfile this' = PackageResolver.lockfile this /\
  PackageResolver.addPattern p info this' = this'.
Proof.
  cbv zeta.
  destruct (addPattern_fields p info this)
    as (Hps & Hby & Hfp & Hflat & Hfr & Hlf & Hrefs & Hdq).
  assert (listed (PackageResolver.addPattern p info this) (Types.name info)
          = if bool_decide (p ∈ listed this (Types.name info))
            then listed this (Types.name info)
            else (listed this (Types.name info) ++ [p])%list) as Hl.
  { unfold listed at 1. by rewrite Hby, lookup_insert_eq. }
  assert (p ∈ listed (PackageResolver.addPattern p info this) (Types.name info))
    as Hin.
  { rewrite Hl. case_bool_decide; [done|]. apply elem_of_app. right. by left. }
  split; [by rewrite Hps, lookup_insert_eq|].
  split; [intros q Hq; by rewrite Hps, lookup_insert_ne|].
  split; [done|]. split.
  { rewrite Hl. case_bool_decide; [by left|by right]. }
  split; [intros n Hn; by rewrite Hby, lookup_insert_ne|].
  split; [done|]. split; [done|].
  destruct (addPattern_fields p info (PackageResolver.addPattern p info this))
    as (Hps2 & Hby2 & Hfp2 & Hflat2 & Hfr2 & Hlf2 & Hrefs2 & Hdq2).
  rewrite bool_decide_eq_true_2 in Hby2 by done.
  rewrite insert_id in Hps2 by (by rewrite Hps, lookup_insert_eq).
  rewrite insert_id in Hby2
    by (unfold listed; by rewrite Hby, lookup_insert_eq).
  destruct (PackageResolver.addPattern p info (PackageResolver.addPattern p info this)),
           (PackageResolver.addPattern p info this).
  simpl in *. congruence.
Qed.

Lemma removePattern_indexed_fields p pkg this :
  indexed this -> PackageResolver.patterns this !! p = Some pkg ->
  exists l1 l2,
    PackageResolver.patternsByPackage this !! Types.name pkg
    = Some (l1 ++ p :: l2)%list /\
    (p ∉ l1) /\ (p ∉ l2) /\
    PackageResolver.patterns (PackageResolver.removePattern p this)
    = delete p (PackageResolver.patterns this) /\
    PackageResolver.patternsByPackage (PackageResolver.removePattern p this)
    = <[Types.name pkg := (l1 ++ l2)%list]> (PackageResolver.patternsByPackage this).
Proof.
  intros [Hidx Hnd] Hp. destruct (Hidx p pkg Hp) as (l & Hl & Hin).
  destruct (splice_indexOf_present p l Hin) as (l1 & l2 & -> & Hn1 & Hsp).
  exists l1, l2. split; [done|]. split; [done|].
  split.
  { specialize (Hnd _ _ Hl). apply NoDup_app in Hnd as (_ & _ & Hnd).
    by apply NoDup_cons in Hnd as [? _]. }
  unfold PackageResolver.removePattern. rewrite Hp, Hl. cbn. by rewrite Hsp.
Qed.

Lemma addPattern_indexed p info this :
  indexed this -> indexed (PackageResolver.addPattern p info this).
Proof.
  intros [Hidx Hnd].
  destruct (addPattern_fields p info this) as (Hps & Hby & _).
  split.
  - intros q m. rewrite Hps, Hby. destruct (decide (q = p)) as [->|Hne].
    + rewrite lookup_insert_eq. intros [= <-]. rewrite lookup_insert_eq.
      eexists. split; [done|].
      case_bool_decide; [done|]. apply elem_of_app. right. by left.
    + rewrite lookup_insert_ne by done. intros Hq.
      destruct (Hidx q m Hq) as (l & Hl & Hin).
      destruct (decide (Types.name m = Types.name info)) as [Heq|Hn].
      * rewrite Heq, lookup_insert_eq. eexists. split; [done|].
        assert (q ∈ listed this (Types.name info)) as Hq'.
        { unfold listed. by rewrite <- Heq, Hl. }
        case_bool_decide; [done|]. apply elem_of_app. by left.
      * rewrite lookup_insert_ne by done. by exists l.
  - intros n l. rewrite Hby. destruct (decide (n = Types.name info)) as [->|Hn].
    + rewrite lookup_insert_eq. intros [= <-].
      assert (NoDup (listed this (Types.name info))) as Hl.
      { unfold listed.
        destruct (PackageResolver.patternsByPackage this !! Types.name info)
          as [l|] eqn:E; simpl; [by eapply Hnd|constructor]. }
      case_bool_decide; [done|].
      apply NoDup_app. split; [done|]. split; [|apply NoDup_singleton].
      intros x Hx ->%list_elem_of_singleton. done.
    + rewrite lookup_insert_ne by done. apply Hnd.
Qed.

Lemma removePattern_indexed p this :
  indexed this -> indexed (PackageResolver.removePattern p this).
Proof.
  intros Hi.
  destruct (PackageResolver.patterns this !! p) as [pkg|] eqn:Hp.
  - destruct (removePattern_indexed_fields p pkg this Hi Hp)
      as (l1 & l2 & Hl & Hn1 & Hn2 & Hps & Hby).
    destruct Hi as [Hidx Hnd]. split.
    + intros q m. rewrite Hps, Hby. destruct (decide (q = p)) as [->|Hne].
      { by rewrite lookup_delete_eq. }
      rewrite lookup_delete_ne by done. intros Hq.
      destruct (Hidx q m Hq) as (l & Hlq & Hin).
      destruct (decide (Types.name m = Types.name pkg)) as [Heq|Hn].
      * rewrite Heq, lookup_insert_eq. eexists. split; [done|].
        rewrite Heq, Hl in Hlq. injection Hlq as <-.
        apply elem_of_app in Hin as [?|[?|?]%elem_of_cons];
          [apply elem_of_app; by left|done|apply elem_of_app; by right].
      * rewrite lookup_insert_ne by done. by exists l.
    + intros n l. rewrite Hby. destruct (decide (n = Types.name pkg)) as [->|Hn].
      * rewrite lookup_insert_eq. intros [= <-].
        specialize (Hnd _ _ Hl). apply NoDup_app in Hnd as (H1 & H12 & H2).
        apply NoDup_cons in H2 as [_ H2]. apply NoDup_app. split; [done|].
        split; [|done]. intros x Hx Hx2. apply (H12 x Hx). by right.
      * rewrite lookup_insert_ne by done. apply Hnd.
  - unfold PackageResolver.removePattern. by rewrite Hp.
Qed.

(** X11.  A sound index stays sound: [addPattern] and [removePattern]
    keep every bound pattern listed under its manifest's name and every
    list free of duplicates.  On a sound index [removePattern] takes the
    pattern itself out of the list, never another one: afterwards the
    pattern is unbound and the list holds exactly the other patterns it
    held. *)
Theorem index_stays_sound (this : PackageResolver.t) (p : string)
    (info : Types.Manifest) :
  indexed this ->
  indexed (PackageResolver.addPattern p info this) /\
  indexed (PackageResolver.removePattern p this) /\
  forall pkg, PackageResolver.patterns this !! p = Some pkg ->
    PackageResolver.patterns (PackageResolver.removePattern p this) !! p = None /\
    forall q, q ∈ listed (PackageResolver.removePattern p this) (Types.name pkg)
              <-> q ∈ listed this (Types.name pkg) /\ q <> p.
Proof.
  intros Hi. split; [by apply addPattern_indexed|].
  split; [by apply removePattern_indexed|].
  intros pkg Hp.
  destruct (removePattern_indexed_fields p pkg this Hi Hp)
    as (l1 & l2 & Hl & Hn1 & Hn2 & Hps & Hby).
  split; [by rewrite Hps, lookup_delete_eq|].
  intros q. unfold listed. rewrite Hby, Hl, lookup_insert_eq. simpl.
  rewrite !elem_of_app, elem_of_cons. split.
  - intros [H|H]; (split; [tauto|intros ->; done]).
  - intros [[H|[H|H]] Hne]; tauto.
Qed.

Lemma index_stays_sound_witness :
  indexed (PackageResolver.addPattern "c@^1.0.0" (Sample.manifest 1 "c" "1.1.0" 1)
             Sample.flat_c) /\
  indexed (PackageResolver.removePattern "c@*" Sample.flat_c) /\
  PackageResolver.patterns (PackageResolver.removePattern "c@*" Sample.flat_c)
    !! "c@*" = None.
Proof.
  destruct (index_stays_sound Sample.flat_c "c@^1.0.0"
              (Sample.manifest 1 "c" "1.1.0" 1)) as (Hadd & _ & _).
  { apply indexedb_indexed. vm_compute. reflexivity. }
  destruct (index_stays_sound Sample.flat_c "c@*"
              (Sample.manifest 1 "c" "1.1.0" 1)) as (_ & Hrem & Hgone).
  { apply indexedb_indexed. vm_compute. reflexivity. }
  split; [exact Hadd|]. split; [exact Hrem|].
  apply (Hgone (Sample.manifest 1 "c" "1.1.0" 1)). vm_compute. reflexivity.
Defined.

(** X12.  Adding a pattern that was neither bound nor listed and removing
    it again restores the resolver's bindings and, name by name, its
    lists (a name without a list is left with an empty one). *)
Theorem removePattern_addPattern (p : string) (info : Types.Manifest)
    (this : PackageResolver.t) :
  PackageResolver.patterns this !! p = None ->
  p ∉ listed this (Types.name info) ->
  let this' := PackageResolver.removePattern p
                 (PackageResolver.addPattern p info this) in
  PackageResolver.patterns this' = PackageResolver.patterns this /\
  (forall n, listed this' n = listed this n) /\
  PackageResolver.refs this' = PackageResolver.refs this /\
  PackageResolver.lockfile this' = PackageResolver.lockfile this.
Proof.
  intros Hp Hl. cbv zeta.
  destruct (addPattern_fields p info this)
    as (Hps & Hby & _ & _ & _ & Hlf & Hrefs & _).
  rewrite bool_decide_eq_false_2 in Hby by done.
  assert (Js.splice_indexOf p (listed this (Types.name info) ++ [p])
          = listed this (Types.name info)) as Hsp.
  { destruct (splice_indexOf_present p (listed this (Types.name info) ++ [p]))
      as (l1 & l2 & Heq & Hn1 & ->).
    { apply elem_of_app. right. by left. }
    apply snoc_split in Heq as [(-> & -> & _)|(l2' & _ & Heq)].
    - by rewrite app_nil_r.
    - destruct Hl. rewrite Heq. apply elem_of_app. right. by left. }
  remember (PackageResolver.addPattern p info this) as A eqn:HA.
  assert (PackageResolver.removePattern p A
          = PackageResolver.set_patterns (delete p (PackageResolver.patterns A))
              (PackageResolver.set_patternsByPackage
                 (<[Types.name info := listed this (Types.name info)]>
                    (PackageResolver.patternsByPackage A)) A)) as ->.
  { unfold PackageResolver.removePattern.
    replace (PackageResolver.patterns A !! p) with (Some info)
      by (by rewrite Hps, lookup_insert_eq).
    replace (PackageResolver.patternsByPackage A !! Types.name info)
      with (Some (listed this (Types.name info) ++ [p])%list)
      by (by rewrite Hby, lookup_insert_eq).
    by rewrite Hsp. }
  cbn. rewrite Hps, Hby.
  split; [by rewrite delete_insert_id|].
  split; [|done].
  intros n. unfold listed at 1. cbn. rewrite insert_insert_eq.
  destruct (decide (n = Types.name info)) as [->|Hn].
  - by rewrite lookup_insert_eq.
  - by rewrite lookup_insert_ne.
Qed.

Lemma removePattern_addPattern_witness :
  PackageResolver.patterns
    (PackageResolver.removePattern "c@^1.0.0"
       (PackageResolver.addPattern "c@^1.0.0" (Sample.manifest 1 "c" "1.1.0" 1)
          Sample.flat_c))
  = PackageResolver.patterns Sample.flat_c.
Proof.
  apply (removePattern_addPattern "c@^1.0.0" (Sample.manifest 1 "c" "1.1.0" 1)
           Sample.flat_c).
  - vm_compute. reflexivity.
  - apply (bool_decide_eq_false_1 ("c@^1.0.0" ∈ listed Sample.flat_c "c")).
    vm_compute. reflexivity.
Defined.

(** X13.  [replacePattern] moves a binding from a pattern to a new one:
    on a sound index, for a pattern bound to a manifest whose reference
    is in the store, the call returns, the old pattern is unbound, the
    new pattern (when it differs) is bound to the same manifest, the
    reference lists the new pattern alone, no other binding or reference
    changes, and the index is still sound.  Replacing a pattern by itself
    therefore unbinds it while its reference still lists it.  A pattern
    that is not bound is an invariant violation. *)
Theorem replacePattern_spec (this : PackageResolver.t) (p newp : string) :
  (PackageResolver.patterns this !! p = None ->
   PackageResolver.replacePattern p newp this
   = Throw (InvariantViolation ("missing package " ++ p))) /\
  (forall pkg a r,
     indexed this ->
     PackageResolver.patterns this !! p = Some pkg ->
     Types._reference pkg = Some a ->
     PackageResolver.refs this !! a = Some r ->
     exists this',
       PackageResolver.replacePattern p newp this = Ok this' /\
       PackageResolver.patterns this' !! p = None /\
       (newp <> p -> PackageResolver.patterns this' !! newp = Some pkg) /\
       (forall q, q <> p -> q <> newp ->
          PackageResolver.patterns this' !! q = PackageResolver.patterns this !! q) /\
       PackageResolver.refs this' !! a
       = Some (PackageReference.set_patterns [newp] r) /\
       (forall b, b <> a ->
          PackageResolver.refs this' !! b = PackageResolver.refs this !! b) /\
       indexed this').
Proof.
  split.
  { intros Hp. unfold PackageResolver.replacePattern,
      PackageResolver.getResolvedPattern. by rewrite Hp. }
  intros pkg a r Hi Hp Ha Hr.
  unfold PackageResolver.replacePattern, PackageResolver.getResolvedPattern.
  rewrite Hp, Ha, Hr.
  set (this1 := PackageResolver.set_refs _ this).
  assert (indexed this1) as Hi1 by exact Hi.
  destruct (addPattern_fields newp pkg this1)
    as (Hps & _ & _ & _ & _ & _ & Hrefs & _).
  pose proof (addPattern_indexed newp pkg this1 Hi1) as HiA.
  set (A := PackageResolver.addPattern newp pkg this1) in *.
  assert (PackageResolver.patterns A !! p = Some pkg) as HpA.
  { rewrite Hps. destruct (decide (newp = p)) as [->|Hne].
    - by rewrite lookup_insert_eq.
    - by rewrite lookup_insert_ne. }
  destruct (removePattern_indexed_fields p pkg A HiA HpA)
    as (l1 & l2 & _ & _ & _ & Hps' & _).
  destruct (removePattern_untouched p A) as (_ & _ & _ & _ & Hrefs' & _).
  eexists. split; [reflexivity|].
  rewrite Hps', Hrefs', Hrefs, Hps.
  split; [by rewrite lookup_delete_eq|].
  split.
  { intros Hne. rewrite lookup_delete_ne by done. by rewrite lookup_insert_eq. }
  split.
  { intros q Hq Hq'. rewrite lookup_delete_ne by done.
    by rewrite lookup_insert_ne. }
  split; [subst this1; cbn; by rewrite lookup_alter_eq, Hr|].
  split; [intros b Hb; subst this1; cbn; by rewrite lookup_alter_ne|].
  by apply removePattern_indexed.
Qed.

Lemma replacePattern_spec_witness :
  exists this',
    PackageResolver.replacePattern "c@*" "c@^1.0.0" Sample.flat_c = Ok this' /\
    PackageResolver.patterns this' !! "c@*" = None /\
    PackageResolver.patterns this' !! "c@^1.0.0"
    = Some (Sample.manifest 1 "c" "1.1.0" 1).
Proof.
  destruct (replacePattern_spec Sample.flat_c "c@*" "c@^1.0.0") as [_ H].
  destruct (H (Sample.manifest 1 "c" "1.1.0" 1) 1
              (Sample.reference "c" "1.1.0" ["c@*"]))
    as (this' & Hrun & Hold & Hnew & _).
  - apply indexedb_indexed. vm_compute. reflexivity.
  - vm_compute. reflexivity.
  - reflexivity.
  - vm_compute. reflexivity.
  - exists this'. split; [exact Hrun|]. split; [exact Hold|].
    apply Hnew. discriminate.
Defined.

(** *** Deduplication *)

Lemma dedupePatterns_loop_sublist this ps : forall seen,
  PackageResolver.dedupePatterns_loop this ps seen `sublist_of` ps.
Proof.
  induction ps as [|p ps IH]; intros seen; simpl; [constructor|].
  case_bool_decide; [apply sublist_cons, IH|apply sublist_skip, IH].
Qed.

Lemma dedupePatterns_loop_cover this ps : forall seen p,
  p ∈ ps ->
  id_of this p ∈ seen \/
  exists q, q ∈ PackageResolver.dedupePatterns_loop this ps seen /\
            id_of this q = id_of this p.
Proof.
  induction ps as [|x ps IH]; intros seen p; [by intros ?%elem_of_nil|].
  simpl. unfold PackageResolver.getResolvedPattern. fold (id_of this x).
  intros [->|Hp]%elem_of_cons.
  - case_bool_decide; [by left|]. right. exists x. split; [by left|done].
  - case_bool_decide as Hx.
    + apply IH. done.
    + destruct (IH (id_of this x :: seen) p Hp) as [Hs|(q & Hq & Hid)].
      * apply elem_of_cons in Hs as [Heq|Hs]; [|by left].
        right. exists x. split; [by left|done].
      * right. exists q. split; [by right|done].
Qed.

Lemma dedupePatterns_loop_fixed this ps : forall seen,
  NoDup (id_of this <$> ps) ->
  (forall p, p ∈ ps -> id_of this p ∉ seen) ->
  PackageResolver.dedupePatterns_loop this ps seen = ps.
Proof.
  induction ps as [|x ps IH]; intros seen Hnd Hseen; [done|].
  simpl. unfold PackageResolver.getResolvedPattern. fold (id_of this x).
  rewrite fmap_cons in Hnd.
  apply NoDup_cons in Hnd as [Hx Hnd].
  rewrite bool_decide_eq_false_2 by (apply Hseen; by left).
  f_equal. apply IH; [done|].
  intros p Hp [Heq|Hs]%elem_of_cons.
  - apply Hx. rewrite <- Heq. apply list_elem_of_fmap. by exists p.
  - apply (Hseen p); [by right|done].
Qed.

Lemma getAllInfoForPatterns_loop_dedupe this ps : forall seen,
  PackageResolver.getAllInfoForPatterns_loop this ps seen
  = (fun p => PackageResolver.patterns this !! p)
      <$> PackageResolver.dedupePatterns_loop this ps seen.
Proof.
  induction ps as [|x ps IH]; intros seen; [done|].
  simpl. unfold PackageResolver.getResolvedPattern.
  case_bool_decide; [apply IH|]. rewrite fmap_cons. f_equal. apply IH.
Qed.

(** Every pattern that the loop keeps is the first one of its manifest
    in the list. *)
Lemma dedupePatterns_loop_first this ps : forall seen q,
  q ∈ PackageResolver.dedupePatterns_loop this ps seen ->
  exists l1 l2, ps = (l1 ++ q :: l2)%list /\
                forall p, p ∈ l1 -> id_of this p <> id_of this q.
Proof.
  induction ps as [|x ps IH]; intros seen q; [by intros ?%elem_of_nil|].
  simpl. unfold PackageResolver.getResolvedPattern. fold (id_of this x).
  case_bool_decide as Hx.
  - intros Hq. destruct (IH seen q Hq) as (l1 & l2 & -> & Hfirst).
    destruct (dedupePatterns_loop_spec this (l1 ++ q :: l2)%list seen)
      as (_ & _ & Hnot).
    exists (x :: l1), l2. split; [done|].
    intros p [->|Hp]%elem_of_cons; [|by apply Hfirst].
    intros Heq. apply (Hnot q Hq). by rewrite <- Heq.
  - intros [->|Hq]%elem_of_cons.
    + exists [], ps. split; [done|]. by intros p ?%elem_of_nil.
    + destruct (IH (id_of this x :: seen) q Hq) as (l1 & l2 & -> & Hfirst).
      destruct (dedupePatterns_loop_spec this (l1 ++ q :: l2)%list
                  (id_of this x :: seen)) as (_ & _ & Hnot).
      exists (x :: l1), l2. split; [done|].
      intros p [->|Hp]%elem_of_cons; [|by apply Hfirst].
      intros Heq. apply (Hnot q Hq). rewrite <- Heq. by left.
Qed.

(** X14.  [dedupePatterns] keeps, in their order, the first pattern of
    every manifest: the result is a sublist of the argument, every
    pattern of the result is the first pattern of the argument that is
    bound to its manifest, no two of its patterns are bound to one
    manifest, every pattern of the argument has its manifest
    represented, and deduplicating again changes nothing.
    [getAllInfoForPatterns] returns the manifests of exactly these
    patterns. *)
Theorem dedupePatterns_spec (this : PackageResolver.t) (ps : list string) :
  let res := PackageResolver.dedupePatterns this ps in
  res `sublist_of` ps /\
  (forall q, q ∈ res ->
     exists l1 l2, ps = (l1 ++ q :: l2)%list /\
                   forall p, p ∈ l1 -> id_of this p <> id_of this q) /\
  NoDup (id_of this <$> res) /\
  (forall p, p ∈ ps -> exists q, q ∈ res /\ id_of this q = id_of this p) /\
  PackageResolver.dedupePatterns this res = res /\
  PackageResolver.getAllInfoForPatterns this ps
  = (fun p => PackageResolver.patterns this !! p) <$> res.
Proof.
  cbv zeta. unfold PackageResolver.dedupePatterns.
  destruct (dedupePatterns_loop_spec this ps []) as (_ & Hnd & _).
  split; [apply dedupePatterns_loop_sublist|].
  split; [apply dedupePatterns_loop_first|]. split; [done|]. split.
  { intros p Hp.
    destruct (dedupePatterns_loop_cover this ps [] p Hp) as [?%elem_of_nil|H];
      done. }
  split.
  - apply dedupePatterns_loop_fixed; [done|]. by intros p _ ?%elem_of_nil.
  - apply getAllInfoForPatterns_loop_dedupe.
Qed.

(** *** Looking up a known version *)

Lemma strictResolveAll_bound this ps :
  (forall p, p ∈ ps -> is_Some (PackageResolver.patterns this !! p)) ->
  exists ms,
    PackageResolver.strictResolveAll this ps = Ok ms /\
    Forall2 (fun p m => PackageResolver.patterns this !! p = Some m) ps ms.
Proof.
  induction ps as [|p ps IH]; intros Hall; [by exists []|].
  destruct (Hall p) as [m Hm]; [by left|].
  destruct IH as (ms & Hms & Hf); [intros q Hq; apply Hall; by right|].
  exists (m :: ms). split; [|by constructor].
  simpl. unfold PackageResolver.getStrictResolvedPattern,
    PackageResolver.getResolvedPattern. rewrite Hm. simpl. by rewrite Hms.
Qed.

Lemma known_versions_bound this ps ms :
  Forall2 (fun p m => PackageResolver.patterns this !! p = Some m) ps ms ->
  Types.version <$> ms = known_versions this ps.
Proof.
  unfold known_versions. induction 1 as [|p m ps ms Hm _ IH]; [done|].
  simpl. rewrite Hm. simpl. f_equal. exact IH.
Qed.

Lemma indexOf_lookup x arr i :
  Js.indexOf x arr = Some i -> arr !! i = Some x.
Proof.
  intros (l1 & l2 & -> & _ & <-)%indexOf_Some_split.
  by rewrite lookup_app_r, Nat.sub_diag.
Qed.

(** X15.  [getHighestRangeVersionMatch], under the documented contract of
    [semver.maxSatisfying], for a name whose listed patterns are all
    bound to manifests with a non-empty version: when some known version
    satisfies the range, the call returns the manifest of a listed
    pattern whose version satisfies the range and is at least as high as
    every known version that does; when none does and the range is not
    exotic or no manifest was passed, it returns none.  The manifest
    passed is left as it is in both cases, and a name without a list
    gives none. *)
Theorem getHighestRangeVersionMatch_spec (env : PackageResolver.Env)
    (this : PackageResolver.t) (n range : string)
    (manifest : option Types.Manifest) :
  Semver.maxSatisfying_contract (PackageResolver.sv env) ->
  let sat v := Semver.satisfies (PackageResolver.sv env) v range false in
  let result := PackageResolver.getHighestRangeVersionMatch env this n range
                  manifest in
  (PackageResolver.patternsByPackage this !! n = None ->
   result = Ok (None, manifest)) /\
  (forall ps,
     PackageResolver.patternsByPackage this !! n = Some ps ->
     (forall p, p ∈ ps ->
        exists m, PackageResolver.patterns this !! p = Some m /\
                  Types.version m <> "") ->
     ((exists v, v ∈ known_versions this ps /\ sat v = true) ->
      exists p m,
        result = Ok (Some m, manifest) /\
        p ∈ ps /\ PackageResolver.patterns this !! p = Some m /\
        sat (Types.version m) = true /\
        forall w, w ∈ known_versions this ps -> sat w = true ->
                  Semver.ge (PackageResolver.sv env) (Types.version m) w) /\
     ((forall v, v ∈ known_versions this ps -> sat v = false) ->
      manifest = None \/ PackageResolver.getExoticResolver env range = None ->
      result = Ok (None, manifest))).
Proof.
  intros Hsv sat result. subst sat result. cbv beta.
  unfold PackageResolver.getHighestRangeVersionMatch. split.
  { by intros ->. }
  intros ps -> Hall.
  destruct (strictResolveAll_bound this ps) as (ms & -> & Hf).
  { intros p Hp. destruct (Hall p Hp) as (m & -> & _). by eexists. }
  cbn [mbind Result_bind].
  rewrite (known_versions_bound this ps ms Hf).
  specialize (Hsv (known_versions this ps) range false).
  split.
  - intros (v0 & Hv0 & Hsat0).
    destruct (Semver.maxSatisfying _ _ _ _) as [v|] eqn:Hmax;
      [|by rewrite (Hsv v0 Hv0) in Hsat0].
    destruct Hsv as (Hv & Hsat & Hge).
    pose proof Hv as Hv'. apply known_versions_elem in Hv' as (p & m & Hp & Hm & Hvm).
    assert (Js.truthy v = true) as Ht.
    { destruct (Hall p Hp) as (m' & Hm' & Hne). rewrite Hm in Hm'.
      injection Hm' as <-. rewrite Hvm in Hne. by destruct v. }
    simpl. rewrite Ht.
    destruct (Js.indexOf v (known_versions this ps)) as [i|] eqn:Hi;
      [|by apply indexOf_None in Hi].
    apply indexOf_lookup in Hi.
    rewrite <- (known_versions_bound this ps ms Hf) in Hi.
    apply list_lookup_fmap_Some in Hi as (mi & Hvi & Hmi).
    destruct (Forall2_lookup_r _ _ _ _ _ Hf Hmi) as (pi & Hpi & Hbound).
    exists pi, mi. rewrite Hmi. split; [done|].
    split; [by eapply list_elem_of_lookup_2|]. split; [done|].
    rewrite <- Hvi. split; [done|exact Hge].
  - intros Hnone Hor.
    destruct (Semver.maxSatisfying _ _ _ _) as [v|] eqn:Hmax.
    { destruct Hsv as (Hv & Hsat & _). by rewrite (Hnone v Hv) in Hsat. }
    simpl. destruct manifest as [m|]; [|done].
    destruct Hor as [?|Hex]; [done|]. by rewrite Hex.
Qed.

Lemma getHighestRangeVersionMatch_spec_witness :
  exists m,
    PackageResolver.getHighestRangeVersionMatch Instance.env Sample.flat_c
      "c" "*" None = Ok (Some m, None) /\
    Semver.satisfies Instance.semver (Types.version m) "*" false = true.
Proof.
  destruct (getHighestRangeVersionMatch_spec Instance.env Sample.flat_c
              "c" "*" None instance_maxSatisfying_contract) as [_ H].
  destruct (H ["c@*"; "c@1.0.5"]) as [Hsome _].
  - vm_compute. reflexivity.
  - intros p Hp.
    apply elem_of_cons in Hp as [->|Hp];
      [eexists; split; [vm_compute; reflexivity|discriminate]|].
    apply elem_of_cons in Hp as [->|Hp];
      [eexists; split; [vm_compute; reflexivity|discriminate]|].
    by apply elem_of_nil in Hp.
  - destruct Hsome as (p & m & Hrun & _ & _ & Hsat & _).
    + exists "1.1.0". split; [|reflexivity].
      apply (bool_decide_eq_true_1
               ("1.1.0" ∈ known_versions Sample.flat_c ["c@*"; "c@1.0.5"])).
      vm_compute. reflexivity.
    + exists m. split; [exact Hrun|exact Hsat].
Defined.

Lemma exactVersionLoop_spec this v ps :
  (forall p, p ∈ ps -> is_Some (PackageResolver.patterns this !! p)) ->
  match PackageResolver.exactVersionLoop this v ps with
  | Ok (Some m) =>
      exists l1 p l2, ps = (l1 ++ p :: l2)%list /\
        PackageResolver.patterns this !! p = Some m /\ Types.version m = v /\
        (v ∉ known_versions this l1)
  | Ok None => v ∉ known_versions this ps
  | Throw _ => False
  end.
Proof.
  induction ps as [|p ps IH]; intros Hall.
  - simpl. by intros ?%elem_of_nil.
  - destruct (Hall p) as [m Hm]; [by left|].
    cbn [PackageResolver.exactVersionLoop].
    unfold PackageResolver.getStrictResolvedPattern,
      PackageResolver.getResolvedPattern. rewrite Hm. cbn [mbind Result_bind].
    destruct (String.eqb_spec (Types.version m) v) as [Hv|Hv].
    + exists [], p, ps. repeat split; try done. by intros ?%elem_of_nil.
    + specialize (IH (fun q Hq => Hall q (list_elem_of_further _ _ _ Hq))).
      assert (forall l, known_versions this (p :: l)
                        = Types.version m :: known_versions this l) as Hk.
      { intros l. unfold known_versions. simpl. by rewrite Hm. }
      destruct (PackageResolver.exactVersionLoop this v ps) as [[m'|]|e]; [| |done].
      * destruct IH as (l1 & q & l2 & -> & Hq & Hvq & Hn).
        exists (p :: l1), q, l2. repeat split; try done.
        rewrite Hk. intros [?|?]%elem_of_cons; [congruence|done].
      * rewrite Hk. intros [?|?]%elem_of_cons; [congruence|done].
Qed.

Lemma strictResolveAll_unbound this ps p :
  p ∈ ps -> PackageResolver.patterns this !! p = None ->
  PackageResolver.strictResolveAll this ps
  = Throw (InvariantViolation "expected manifest").
Proof.
  induction ps as [|x ps IH]; [by intros ?%elem_of_nil|].
  intros Hin Hp. simpl.
  unfold PackageResolver.getStrictResolvedPattern,
    PackageResolver.getResolvedPattern.
  destruct (PackageResolver.patterns this !! x) as [m|] eqn:Hx; [|done].
  cbn [mbind Result_bind].
  apply elem_of_cons in Hin as [->|Hin]; [congruence|].
  by rewrite (IH Hin Hp).
Qed.

(** X16.  [getExactVersionMatch], for a name whose listed patterns are
    all bound: when some listed pattern is bound to a manifest with
    exactly this version, the call returns the manifest of the first
    such pattern; when none is, and the version is not an exotic range or
    no manifest was passed, it returns none.  The manifest passed is left
    as it is.  A name without a list gives none. *)
Theorem getExactVersionMatch_spec (env : PackageResolver.Env)
    (this : PackageResolver.t) (n v : string)
    (manifest : option Types.Manifest) :
  let result := PackageResolver.getExactVersionMatch env this n v manifest in
  (PackageResolver.patternsByPackage this !! n = None ->
   result = Ok (None, manifest)) /\
  (forall ps,
     PackageResolver.patternsByPackage this !! n = Some ps ->
     (forall p, p ∈ ps -> is_Some (PackageResolver.patterns this !! p)) ->
     (v ∈ known_versions this ps ->
      exists l1 p l2 m,
        result = Ok (Some m, manifest) /\
        ps = (l1 ++ p :: l2)%list /\
        PackageResolver.patterns this !! p = Some m /\
        Types.version m = v /\ (v ∉ known_versions this l1)) /\
     (v ∉ known_versions this ps ->
      manifest = None \/ PackageResolver.getExoticResolver env v = None ->
      result = Ok (None, manifest))).
Proof.
  cbv zeta. unfold PackageResolver.getExactVersionMatch. split.
  { by intros ->. }
  intros ps -> Hall.
  pose proof (exactVersionLoop_spec this v ps Hall) as Hloop.
  destruct (PackageResolver.exactVersionLoop this v ps) as [[m|]|e]; [| |done].
  - destruct Hloop as (l1 & p & l2 & Hps & Hp & Hv & Hn). split.
    + intros _. by exists l1, p, l2, m.
    + intros Hnot. destruct Hnot. apply known_versions_elem.
      exists p, m. split; [|done]. rewrite Hps. apply elem_of_app. right. by left.
  - split; [done|]. intros _ Hor. cbn [mbind Result_bind].
    destruct manifest as [m|]; [|done].
    destruct Hor as [?|Hex]; [done|]. by rewrite Hex.
Qed.

Lemma getExactVersionMatch_spec_witness :
  exists m,
    PackageResolver.getExactVersionMatch Instance.env Sample.flat_c
      "c" "1.0.5" None = Ok (Some m, None) /\
    Types.version m = "1.0.5".
Proof.
  destruct (getExactVersionMatch_spec Instance.env Sample.flat_c
              "c" "1.0.5" None) as [_ H].
  destruct (H ["c@*"; "c@1.0.5"]) as [Hsome _].
  - vm_compute. reflexivity.
  - intros p Hp.
    apply elem_of_cons in Hp as [->|Hp]; [eexists; vm_compute; reflexivity|].
    apply elem_of_cons in Hp as [->|Hp]; [eexists; vm_compute; reflexivity|].
    by apply elem_of_nil in Hp.
  - destruct Hsome as (l1 & p & l2 & m & Hrun & _ & _ & Hv & _).
    + apply (bool_decide_eq_true_1
               ("1.0.5" ∈ known_versions Sample.flat_c ["c@*"; "c@1.0.5"])).
      vm_compute. reflexivity.
    + exists m. split; [exact Hrun|exact Hv].
Defined.

(** X17.  [exoticRangeMatch] answers with a package only for a manifest
    whose remote is a copy with a reference, and then with the first
    resolved package whose remote is a copy of the same reference; the
    manifest takes over that package's remote, and nothing else of it
    changes.  In every other case the answer is none and the manifest is
    left as it is. *)
Theorem exoticRangeMatch_spec (resolvedPkgs : list Types.Manifest)
    (manifest : Types.Manifest) :
  match PackageResolver.exoticRangeMatch resolvedPkgs manifest with
  | (Some pkg, manifest') =>
      exists remote pkgRemote l1 l2,
        Types._remote manifest = Some remote /\
        Types.reference remote <> "" /\ Types.type remote = "copy" /\
        resolvedPkgs = (l1 ++ pkg :: l2)%list /\
        Types._remote pkg = Some pkgRemote /\
        Types.reference pkgRemote = Types.reference remote /\
        Types.type pkgRemote = "copy" /\
        (forall other r, other ∈ l1 -> Types._remote other = Some r ->
           Types.reference r <> Types.reference remote \/ Types.type r <> "copy") /\
        manifest' = PackageResolver.set__remote (Some pkgRemote) manifest
  | (None, manifest') =>
      manifest' = manifest /\
      forall remote, Types._remote manifest = Some remote ->
        Types.reference remote <> "" -> Types.type remote = "copy" ->
        forall pkg r, pkg ∈ resolvedPkgs -> Types._remote pkg = Some r ->
          Types.reference r <> Types.reference remote \/ Types.type r <> "copy"
  end.
Proof.
  unfold PackageResolver.exoticRangeMatch.
  destruct (Types._remote manifest) as [remote|] eqn:Hrem; [|by split].
  unfold PackageResolver.isCopyRemote.
  destruct (Js.truthy (Types.reference remote)) eqn:Ht; simpl.
  2:{ split; [done|]. intros ? [= <-] Hne. by destruct (Types.reference remote). }
  destruct (String.eqb_spec (Types.type remote) "copy") as [Hty|Hty].
  2:{ split; [done|]. by intros ? [= <-]. }
  set (P := fun pkg : Types.Manifest => match Types._remote pkg with
            | Some pkgRemote => _ | None => false end).
  assert (forall pkg r, Types._remote pkg = Some r -> P pkg = false ->
            Types.reference r <> Types.reference remote \/ Types.type r <> "copy")
    as Hfalse.
  { intros pkg r Hr HP. unfold P in HP. rewrite Hr in HP.
    apply andb_false_iff in HP as [H|H]; apply String.eqb_neq in H; tauto. }
  destruct (List.find P resolvedPkgs) as [pkg|] eqn:Hfind.
  - assert (exists l1 l2, resolvedPkgs = (l1 ++ pkg :: l2)%list /\
                          forall other, other ∈ l1 -> P other = false)
      as (l1 & l2 & Hsplit & Hfirst).
    { clear -Hfind. induction resolvedPkgs as [|x l IH]; [discriminate|].
      simpl in Hfind. destruct (P x) eqn:Hx.
      - injection Hfind as ->. exists [], l. split; [done|].
        by intros ? ?%elem_of_nil.
      - destruct (IH Hfind) as (l1 & l2 & -> & Hf). exists (x :: l1), l2.
        split; [done|]. intros o [->|Ho]%elem_of_cons; [done|by apply Hf]. }
    apply List.find_some in Hfind as [_ HP]. unfold P in HP.
    destruct (Types._remote pkg) as [pkgRemote|] eqn:Hpr; [|discriminate].
    apply andb_true_iff in HP as [Href Hcopy].
    apply String.eqb_eq in Href, Hcopy.
    exists remote, pkgRemote, l1, l2. repeat split; try done.
    + by destruct (Types.reference remote).
    + intros other r Ho Hr. apply (Hfalse other r Hr). by apply Hfirst.
  - split; [done|]. intros ? [= <-] _ _ pkg r Hin Hr.
    apply (Hfalse pkg r Hr).
    apply (List.find_none _ _ Hfind). by apply list_elem_of_In.
Qed.

(** ** More on [find] and resolutions *)

Lemma resolveToResolution_pass env req this :
  Types.parentNames req = None \/ PackageResolver.flat this = true ->
  PackageResolver.resolveToResolution env req this = Ok (Some req, this).
Proof.
  unfold PackageResolver.resolveToResolution.
  intros [->| ->]; [done|]. by destruct (Types.parentNames req).
Qed.

(** The flag [find] hands over on a first request, from what the
    lockfile holds for the pattern. *)
Lemma find_first env req this r lf :
  Types.parentNames req = None \/ PackageResolver.flat this = true ->
  PackageResolver.fetchKeyOf req ∉ PackageResolver.fetchingPatterns this ->
  Lockfile.getLocked (PackageResolver.lockfile this) (Types.pattern req)
  = Ok (r, lf) ->
  let np := NormalizePattern.normalizePattern (Types.pattern req) in
  let this1 :=
    PackageResolver.set_lockfile lf
      (PackageResolver.set_fetchingPatterns
         ({[PackageResolver.fetchKeyOf req]} ∪ PackageResolver.fetchingPatterns this)
         this) in
  PackageResolver.find env req this
  = match r with
    | Some entry =>
        if PackageResolver.isLockfileEntryOutdated env (Lockfile.version entry)
             (NormalizePattern.range np) (NormalizePattern.hasVersion np)
        then Ok (Some {| PackageResolver.fresh := true;
                         PackageResolver.frozen_arg := PackageResolver.frozen this |},
                 PackageResolver.set_lockfile
                   (Lockfile.removePattern (Types.pattern req) lf)
                   (PackageResolver.removePattern (Types.pattern req) this1))
        else Ok (Some {| PackageResolver.fresh := false;
                         PackageResolver.frozen_arg := PackageResolver.frozen this |},
                 this1)
    | None => Ok (Some {| PackageResolver.fresh := true;
                          PackageResolver.frozen_arg := PackageResolver.frozen this |},
                  this1)
    end.
Proof.
  intros Hpass Hnew Hlocked. cbv zeta.
  unfold PackageResolver.find. rewrite (resolveToResolution_pass _ _ _ Hpass).
  simpl. rewrite bool_decide_eq_false_2 by exact Hnew. simpl.
  unfold PackageResolver.getLocked. simpl. rewrite Hlocked. simpl.
  destruct r as [entry|]; [|done].
  destruct (PackageResolver.isLockfileEntryOutdated _ _ _ _); [|done].
  by rewrite removePattern_frozen, removePattern_lockfile.
Qed.

(** X18.  A request is fetched once.  For a request that passes the
    resolution map, a [find] that returns leaves the request's fetch key
    recorded, and a second [find] of the same request then does nothing:
    it hands over [fresh = false], does not look at the lockfile, and
    leaves the resolver as it is. *)
Theorem find_repeat_idle (env : PackageResolver.Env)
    (req : Types.DependencyRequestPattern) (this this' : PackageResolver.t)
    (args : option PackageResolver.FindArgs) :
  Types.parentNames req = None \/ PackageResolver.flat this = true ->
  PackageResolver.find env req this = Ok (args, this') ->
  PackageResolver.fetchKeyOf req ∈ PackageResolver.fetchingPatterns this' /\
  PackageResolver.find env req this'
  = Ok (Some {| PackageResolver.fresh := false;
                PackageResolver.frozen_arg := PackageResolver.frozen this' |},
        this').
Proof.
  intros Hpass Hfind.
  assert (PackageResolver.fetchKeyOf req ∈ PackageResolver.fetchingPatterns this' /\
          PackageResolver.flat this' = PackageResolver.flat this) as [Hk Hflat].
  { destruct (decide (PackageResolver.fetchKeyOf req
                      ∈ PackageResolver.fetchingPatterns this)) as [Hin|Hnew].
    - unfold PackageResolver.find in Hfind.
      rewrite (resolveToResolution_pass _ _ _ Hpass) in Hfind. simpl in Hfind.
      rewrite bool_decide_eq_true_2 in Hfind by exact Hin. simpl in Hfind.
      injection Hfind as _ <-. done.
    - destruct (Lockfile.getLocked (PackageResolver.lockfile this)
                  (Types.pattern req)) as [[r lf]|e] eqn:Hlocked.
      + rewrite (find_first env req this r lf Hpass Hnew Hlocked) in Hfind.
        destruct r as [entry|].
        * destruct (PackageResolver.isLockfileEntryOutdated _ _ _ _);
            injection Hfind as _ <-.
          -- destruct (removePattern_untouched (Types.pattern req)
                         (PackageResolver.set_lockfile lf
                            (PackageResolver.set_fetchingPatterns
                               ({[PackageResolver.fetchKeyOf req]}
                                ∪ PackageResolver.fetchingPatterns this) this)))
               as (Hf & Hfl & _).
             simpl. rewrite Hf, Hfl. simpl. split; [|done].
             apply elem_of_union. left. by apply elem_of_singleton.
          -- simpl. split; [|done].
             apply elem_of_union. left. by apply elem_of_singleton.
        * injection Hfind as _ <-. simpl. split; [|done].
          apply elem_of_union. left. by apply elem_of_singleton.
      + unfold PackageResolver.find in Hfind.
        rewrite (resolveToResolution_pass _ _ _ Hpass) in Hfind. simpl in Hfind.
        rewrite bool_decide_eq_false_2 in Hfind by exact Hnew. simpl in Hfind.
        unfold PackageResolver.getLocked in Hfind. simpl in Hfind.
        rewrite Hlocked in Hfind. discriminate Hfind. }
  split; [done|].
  unfold PackageResolver.find. rewrite resolveToResolution_pass.
  - simpl. by rewrite bool_decide_eq_true_2 by exact Hk.
  - rewrite Hflat. exact Hpass.
Qed.

Lemma find_repeat_idle_witness :
  exists args this',
    PackageResolver.find Instance.env Sample.stale_req Sample.stale
    = Ok (args, this') /\
    PackageResolver.find Instance.env Sample.stale_req this'
    = Ok (Some {| PackageResolver.fresh := false;
                  PackageResolver.frozen_arg := PackageResolver.frozen this' |},
          this').
Proof.
  destruct (PackageResolver.find Instance.env Sample.stale_req Sample.stale)
    as [[args this']|e] eqn:E; [|vm_compute in E; discriminate E].
  exists args, this'. split; [reflexivity|].
  apply (find_repeat_idle Instance.env Sample.stale_req Sample.stale this' args).
  - left. reflexivity.
  - exact E.
Defined.

(** X19.  The first [find] of a request that passes the resolution map
    records the fetch key and asks for a fresh resolution exactly when
    the lockfile has no entry for the pattern or the entry is outdated.
    When the entry is up to date, or there is none, the bindings of the
    resolver are left alone.  A lookup that fails makes [find] fail with
    the same error. *)
Theorem find_first_time (env : PackageResolver.Env)
    (req : Types.DependencyRequestPattern) (this : PackageResolver.t) :
  Types.parentNames req = None \/ PackageResolver.flat this = true ->
  PackageResolver.fetchKeyOf req ∉ PackageResolver.fetchingPatterns this ->
  let np := NormalizePattern.normalizePattern (Types.pattern req) in
  match Lockfile.getLocked (PackageResolver.lockfile this) (Types.pattern req) with
  | Ok (r, lf) =>
      let stale :=
        match r with
        | Some entry =>
            PackageResolver.isLockfileEntryOutdated env (Lockfile.version entry)
              (NormalizePattern.range np) (NormalizePattern.hasVersion np)
        | None => false
        end in
      exists this',
        PackageResolver.find env req this
        = Ok (Some {| PackageResolver.fresh :=
                        stale || negb (bool_decide (is_Some r));
                      PackageResolver.frozen_arg := PackageResolver.frozen this |},
              this') /\
        PackageResolver.fetchingPatterns this'
        = {[PackageResolver.fetchKeyOf req]} ∪ PackageResolver.fetchingPatterns this /\
        PackageResolver.refs this' = PackageResolver.refs this /\
        (stale = false ->
         PackageResolver.patterns this' = PackageResolver.patterns this /\
         PackageResolver.patternsByPackage this'
         = PackageResolver.patternsByPackage this /\
         PackageResolver.lockfile this' = lf)
  | Throw e => PackageResolver.find env req this = Throw e
  end.
Proof.
  intros Hpass Hnew np.
  destruct (Lockfile.getLocked (PackageResolver.lockfile this) (Types.pattern req))
    as [[r lf]|e] eqn:Hlocked.
  - rewrite (find_first env req this r lf Hpass Hnew Hlocked). fold np.
    destruct r as [entry|]; cbv zeta.
    + destruct (PackageResolver.isLockfileEntryOutdated _ _ _ _) eqn:Hst.
      * eexists. split; [reflexivity|].
        destruct (removePattern_untouched (Types.pattern req)
                    (PackageResolver.set_lockfile lf
                       (PackageResolver.set_fetchingPatterns
                          ({[PackageResolver.fetchKeyOf req]}
                           ∪ PackageResolver.fetchingPatterns this) this)))
          as (Hf & _ & _ & _ & Hrefs & _).
        simpl. rewrite Hf, Hrefs. simpl. repeat split; done.
      * eexists. split; [reflexivity|]. simpl. repeat split; done.
    + eexists. split; [reflexivity|]. simpl. repeat split; done.
  - unfold PackageResolver.find. rewrite (resolveToResolution_pass _ _ _ Hpass).
    simpl. rewrite bool_decide_eq_false_2 by exact Hnew. simpl.
    unfold PackageResolver.getLocked. simpl. by rewrite Hlocked.
Qed.

Lemma find_first_time_witness :
  exists this',
    PackageResolver.find Instance.env Sample.stale_req Sample.flat_c
    = Ok (Some {| PackageResolver.fresh := true;
                  PackageResolver.frozen_arg := false |}, this') /\
    PackageResolver.patterns this' = PackageResolver.patterns Sample.flat_c.
Proof.
  pose proof (find_first_time Instance.env Sample.stale_req Sample.flat_c) as H.
  destruct H as (this' & Hrun & _ & _ & Hkeep).
  - left. reflexivity.
  - apply not_elem_of_empty.
  - exists this'. split; [exact Hrun|]. by apply Hkeep.
Defined.

(** X20.  [resolveToResolution] settles a request by a resolution.  A
    request without parents, or any request in flat mode, is passed on
    untouched, and so is one for which the resolution map has nothing.
    When the map names a resolution that is not yet resolved the request
    is queued and not passed on.  When the resolution is resolved, with
    its reference in the store and a lockfile free of cycles, the request
    is not passed on, its pattern is bound to the resolution's manifest
    and added to the patterns of the manifest's reference, and no other
    binding changes. *)
Theorem resolveToResolution_spec (env : PackageResolver.Env)
    (req : Types.DependencyRequestPattern) (this : PackageResolver.t) :
  let result := PackageResolver.resolveToResolution env req this in
  (Types.parentNames req = None \/ PackageResolver.flat this = true ->
   result = Ok (Some req, this)) /\
  (forall pn, Types.parentNames req = Some pn ->
     PackageResolver.flat this = false ->
     (PackageResolver.resolutionMap_find env (Types.pattern req) pn = None ->
      result = Ok (Some req, this)) /\
     (forall res,
        PackageResolver.resolutionMap_find env (Types.pattern req) pn = Some res ->
        res <> "" ->
        (PackageResolver.patterns this !! res = None ->
         result = Ok (None, PackageResolver.set_delayQueue
                              (PackageResolver.delayQueue this ++ [req])%list this)) /\
        (forall rm a r,
           PackageResolver.patterns this !! res = Some rm ->
           Types._reference rm = Some a ->
           PackageResolver.refs this !! a = Some r ->
           lockfile_total (PackageResolver.lockfile this) ->
           exists this',
             result = Ok (None, this') /\
             PackageResolver.patterns this' !! Types.pattern req = Some rm /\
             (forall q, q <> Types.pattern req ->
                PackageResolver.patterns this' !! q
                = PackageResolver.patterns this !! q) /\
             PackageResolver.refs this' !! a
             = Some (PackageReference.set_patterns
                       (PackageReference.patterns r ++ [Types.pattern req])%list r) /\
             PackageResolver.delayQueue this' = PackageResolver.delayQueue this))).
Proof.
  cbv zeta. split; [apply resolveToResolution_pass|].
  intros pn Hpn Hflat. unfold PackageResolver.resolveToResolution.
  rewrite Hpn, Hflat. split; [by intros ->|].
  intros res -> Hres.
  assert (Js.truthy res = true) as -> by (by destruct res).
  unfold PackageResolver.getResolvedPattern. split; [by intros ->|].
  intros rm a r -> Ha Hr Htot. rewrite Ha. simpl. rewrite Hr. simpl.
  remember (PackageResolver.set_refs
              (alter (fun ref => PackageReference.set_patterns
                        (PackageReference.patterns ref ++ [Types.pattern req])%list ref)
                     a (PackageResolver.refs this)) this) as this0 eqn:H0.
  destruct (addPattern_fields (Types.pattern req) rm this0)
    as (Hps & _ & _ & _ & _ & Hlf & Hrefs & Hdq).
  remember (PackageResolver.addPattern (Types.pattern req) rm this0) as this1
    eqn:H1.
  assert (PackageResolver.refs this0 !! a
          = Some (PackageReference.set_patterns
                    (PackageReference.patterns r ++ [Types.pattern req])%list r))
    as Hra.
  { rewrite H0. simpl. by rewrite lookup_alter_eq, Hr. }
  destruct (resolver_getLocked_total (Types.pattern req) this1)
    as (shrunk & lf & Hget & _ & _).
  { rewrite Hlf, H0. exact Htot. }
  rewrite Hget. cbn [mbind Result_bind].
  replace (PackageResolver.refs (PackageResolver.set_lockfile lf this1) !! a)
    with (Some (PackageReference.set_patterns
                  (PackageReference.patterns r ++ [Types.pattern req])%list r))
    by (simpl; by rewrite Hrefs, Hra).
  destruct (PackageResolver.shouldUpdateLockfile env shrunk _);
    (eexists; split; [reflexivity|]); simpl; rewrite Hps, Hrefs, Hdq, Hra, H0;
    simpl;
    (split; [by rewrite lookup_insert_eq|]);
    (split; [by intros q Hq; rewrite lookup_insert_ne|]); done.
Qed.

(** A request of [app] for [c@^1.0.0], which the resolution map settles
    by [c@1.0.5], a pattern that is resolved: the request is bound to
    the manifest of [c] 1.0.5.  A request for [d@^1.0.0], settled by
    [d@2.0.0], which is not resolved yet: the request is queued. *)
Lemma resolveToResolution_spec_witness :
  (exists this',
     PackageResolver.resolveToResolution Instance.env_with_resolutions
       (Sample.request_of_app "c@^1.0.0") Sample.nested_c = Ok (None, this') /\
     PackageResolver.patterns this' !! "c@^1.0.0"
     = Some (Sample.manifest 2 "c" "1.0.5" 2) /\
     PackageResolver.refs this' !! 2
     = Some (Sample.reference "c" "1.0.5" ["c@1.0.5"; "c@^1.0.0"])) /\
  PackageResolver.resolveToResolution Instance.env_with_resolutions
    (Sample.request_of_app "d@^1.0.0") Sample.nested_c
  = Ok (None, PackageResolver.set_delayQueue
                [Sample.request_of_app "d@^1.0.0"] Sample.nested_c).
Proof.
  split.
  - destruct (resolveToResolution_spec Instance.env_with_resolutions
                (Sample.request_of_app "c@^1.0.0") Sample.nested_c) as [_ H].
    destruct (H ["app"] eq_refl eq_refl) as [_ Hres].
    destruct (Hres "c@1.0.5" eq_refl) as [_ Hbound]; [discriminate|].
    destruct (Hbound (Sample.manifest 2 "c" "1.0.5" 2) 2
                (Sample.reference "c" "1.0.5" ["c@1.0.5"]))
      as (this' & Hrun & Hp & _ & Hr & _).
    + vm_compute. reflexivity.
    + reflexivity.
    + vm_compute. reflexivity.
    + intros p. exists false.
      unfold locked_status, Lockfile.getLocked. cbn. rewrite lookup_empty.
      reflexivity.
    + exists this'. split; [exact Hrun|]. split; [exact Hp|exact Hr].
  - destruct (resolveToResolution_spec Instance.env_with_resolutions
                (Sample.request_of_app "d@^1.0.0") Sample.nested_c) as [_ H].
    destruct (H ["app"] eq_refl eq_refl) as [_ Hres].
    destruct (Hres "d@2.0.0" eq_refl) as [Hqueue _]; [discriminate|].
    apply Hqueue. vm_compute. reflexivity.
Defined.

(** ** More on collapsing *)

Lemma find_none_intro {A} (P : A -> bool) (l : list A) :
  (forall x, x ∈ l -> P x = false) -> List.find P l = None.
Proof.
  induction l as [|x l IH]; intros Hall; [done|].
  simpl. rewrite (Hall x) by (by left). apply IH.
  intros y Hy. apply Hall. by right.
Qed.

Lemma dedupePatterns_elem this ps p :
  p ∈ PackageResolver.dedupePatterns this ps -> p ∈ ps.
Proof.
  unfold PackageResolver.dedupePatterns.
  by apply (dedupePatterns_loop_spec this ps []).
Qed.

(** X21.  [optimizeResolutions] leaves the registry alone when there is
    nothing to collapse.  Let every pattern listed under the name be
    bound and let no chain of links of the lockfile run in a circle.
    With fewer than two collapsible patterns under the name, or with no
    known version that satisfies the range of every one of them, the
    call returns and the bindings, the index and the references are what
    they were; of the lockfile only the entries that the lookups
    exploded have changed. *)
Theorem optimizeResolutions_idle (env : PackageResolver.Env)
    (this : PackageResolver.t) (n : string) :
  (forall p, p ∈ listed this n -> is_Some (PackageResolver.patterns this !! p)) ->
  lockfile_total (PackageResolver.lockfile this) ->
  let cands :=
    List.filter (is_collapsable this)
      (PackageResolver.dedupePatterns this (listed this n)) in
  let fits v :=
    forall p, p ∈ cands ->
      Semver.satisfies (PackageResolver.sv env) v
        (NormalizePattern.range (NormalizePattern.normalizePattern p)) false
      = true in
  List.length cands < 2 \/
  (forall v, v ∈ known_versions this cands -> ~ fits v) ->
  exists this',
    PackageResolver.optimizeResolutions env n this = Ok this' /\
    PackageResolver.patterns this' = PackageResolver.patterns this /\
    PackageResolver.patternsByPackage this' = PackageResolver.patternsByPackage this /\
    PackageResolver.refs this' = PackageResolver.refs this /\
    lockfile_shape (PackageResolver.lockfile this')
    = lockfile_shape (PackageResolver.lockfile this).
Proof.
  intros Hbound Htot cands fits Hidle.
  destruct (dedupePatterns_loop_spec this (listed this n) []) as (Hsub & Hnd & _).
  fold (PackageResolver.dedupePatterns this (listed this n)) in Hsub, Hnd.
  destruct (collapsableFilter_spec
              (PackageResolver.dedupePatterns this (listed this n)) this)
    as (lf & Hfilter & Hshape).
  { intros p Hp. apply Hbound. by apply Hsub. }
  { done. }
  unfold PackageResolver.optimizeResolutions.
  change (default [] (PackageResolver.patternsByPackage this !! n))
    with (listed this n).
  rewrite Hfilter. cbn [mbind Result_bind]. fold cands.
  set (this1 := PackageResolver.set_lockfile lf this).
  destruct (Nat.ltb (List.length cands) 2) eqn:Hlen.
  { exists this1. by repeat split. }
  apply Nat.ltb_ge in Hlen. destruct Hidle as [?|Hnone]; [lia|].
  unfold PackageResolver.getAllInfoForPatterns.
  rewrite (getAllInfoForPatterns_loop_distinct this1 cands []).
  2:{ change (NoDup (id_of this <$> cands)). by apply NoDup_fmap_filter. }
  2:{ by intros p _ ?%elem_of_nil. }
  rewrite (versionsOf_bound this1 cands).
  2:{ intros p [Hp _]%elem_of_filter_bool. apply (Hbound p). by apply Hsub. }
  cbn [mbind Result_bind].
  change (known_versions this1 cands) with (known_versions this cands).
  rewrite find_none_intro; [exists this1; by repeat split|].
  intros v Hv. unfold Misc.sort_by in Hv. rewrite merge_sort_Permutation in Hv.
  apply not_true_is_false. intros HP. apply (Hnone v Hv).
  intros p Hp.
  exact (proj1 (forallb_fmap_true
                  (fun range => Semver.satisfies (PackageResolver.sv env) v range false)
                  (fun pattern => NormalizePattern.range
                                    (NormalizePattern.normalizePattern pattern))
                  cands) HP p Hp).
Qed.

(** Two collapsible patterns of [c] with the exact ranges [1.1.0] and
    [1.0.5]: neither known version fits both, and nothing changes. *)
Lemma optimizeResolutions_idle_witness :
  List.filter (is_collapsable Sample.flat_apart)
    (PackageResolver.dedupePatterns Sample.flat_apart (listed Sample.flat_apart "c"))
  = ["c@1.1.0"; "c@1.0.5"] /\
  exists this',
    PackageResolver.optimizeResolutions Instance.env "c" Sample.flat_apart = Ok this' /\
    PackageResolver.patterns this' = PackageResolver.patterns Sample.flat_apart /\
    PackageResolver.refs this' = PackageResolver.refs Sample.flat_apart.
Proof.
  assert (List.filter (is_collapsable Sample.flat_apart)
            (PackageResolver.dedupePatterns Sample.flat_apart
               (listed Sample.flat_apart "c"))
          = ["c@1.1.0"; "c@1.0.5"]) as Hc by (vm_compute; reflexivity).
  split; [exact Hc|].
  destruct (optimizeResolutions_idle Instance.env Sample.flat_apart "c")
    as (this' & Hrun & Hps & _ & Hrefs & _).
  - intros p Hp.
    change (listed Sample.flat_apart "c") with ["c@1.1.0"; "c@1.0.5"] in Hp.
    apply elem_of_cons in Hp as [->|Hp]; [by eexists|].
    apply list_elem_of_singleton in Hp as ->. by eexists.
  - intros p. exists false.
    unfold locked_status, Lockfile.getLocked. cbn. rewrite lookup_empty. reflexivity.
  - right. rewrite Hc. intros v Hv Hfits.
    change (known_versions Sample.flat_apart ["c@1.1.0"; "c@1.0.5"])
      with ["1.1.0"; "1.0.5"] in Hv.
    apply elem_of_cons in Hv as [->|Hv].
    + specialize (Hfits "c@1.0.5"). vm_compute in Hfits.
      assert (false = true) as Habs; [|discriminate Habs].
      apply Hfits. apply elem_of_cons. right. apply list_elem_of_singleton.
      reflexivity.
    + apply list_elem_of_singleton in Hv as ->.
      specialize (Hfits "c@1.1.0"). vm_compute in Hfits.
      assert (false = true) as Habs; [|discriminate Habs].
      apply Hfits. apply elem_of_cons. left. reflexivity.
  - by exists this'.
Defined.

Lemma collapseTarget_unknown this v ps :
  (forall p, p ∈ ps -> is_Some (PackageResolver.patterns this !! p)) ->
  v ∉ known_versions this ps ->
  PackageResolver.collapseTarget this v ps = Ok None.
Proof.
  induction ps as [|p ps IH]; intros Hall Hv; [done|].
  destruct (Hall p) as [m Hm]; [by left|].
  assert (known_versions this (p :: ps)
          = Types.version m :: known_versions this ps) as Hk.
  { unfold known_versions. simpl. by rewrite Hm. }
  rewrite Hk in Hv. apply not_elem_of_cons in Hv as [Hne Hv].
  cbn [PackageResolver.collapseTarget]. rewrite Hm.
  apply not_eq_sym in Hne. apply String.eqb_neq in Hne. rewrite Hne.
  apply IH; [|done]. intros q Hq. apply Hall. by right.
Qed.

(** X22.  Collapsing to a version no pattern is bound to is an invariant
    violation: [collapsePackageVersions] over bound patterns none of
    which has the version throws "Couldn't find package manifest for
    name@version", and so does [collapseAllVersionsOfPackage] for a name
    whose listed patterns are bound; for a name without a list it is a
    type error instead. *)
Theorem collapse_unknown_version (n v : string) (this : PackageResolver.t) :
  (forall ps,
     (forall p, p ∈ ps -> is_Some (PackageResolver.patterns this !! p)) ->
     v ∉ known_versions this ps ->
     PackageResolver.collapsePackageVersions n v ps this
     = Throw (InvariantViolation
                ("Couldn't find package manifest for " ++ n ++ "@" ++ v))) /\
  (forall ps,
     PackageResolver.patternsByPackage this !! n = Some ps ->
     (forall p, p ∈ ps -> is_Some (PackageResolver.patterns this !! p)) ->
     v ∉ known_versions this ps ->
     PackageResolver.collapseAllVersionsOfPackage n v this
     = Throw (InvariantViolation
                ("Couldn't find package manifest for " ++ n ++ "@" ++ v))) /\
  (PackageResolver.patternsByPackage this !! n = None ->
   PackageResolver.collapseAllVersionsOfPackage n v this
   = Throw (TypeError "patterns is not iterable")).
Proof.
  assert (forall ps,
     (forall p, p ∈ ps -> is_Some (PackageResolver.patterns this !! p)) ->
     v ∉ known_versions this ps ->
     PackageResolver.collapsePackageVersions n v ps this
     = Throw (InvariantViolation
                ("Couldn't find package manifest for " ++ n ++ "@" ++ v))) as H.
  { intros ps Hall Hv. unfold PackageResolver.collapsePackageVersions.
    by rewrite (collapseTarget_unknown this v ps Hall Hv). }
  split; [exact H|]. split.
  - intros ps Hps Hall Hv. unfold PackageResolver.collapseAllVersionsOfPackage.
    rewrite Hps. apply H.
    + intros p Hp. apply Hall. by apply dedupePatterns_elem in Hp.
    + intros (p & m & Hp & Hm & Hvm)%known_versions_elem. apply Hv.
      apply known_versions_elem. exists p, m. split; [|done].
      by apply dedupePatterns_elem in Hp.
  - intros Hps. unfold PackageResolver.collapseAllVersionsOfPackage.
    by rewrite Hps.
Qed.

Lemma collapse_unknown_version_witness :
  PackageResolver.collapseAllVersionsOfPackage "c" "2.0.0" Sample.flat_c
  = Throw (InvariantViolation "Couldn't find package manifest for c@2.0.0").
Proof.
  destruct (collapse_unknown_version "c" "2.0.0" Sample.flat_c) as (_ & H & _).
  apply (H ["c@*"; "c@1.0.5"]).
  - vm_compute. reflexivity.
  - intros p Hp.
    apply elem_of_cons in Hp as [->|Hp]; [eexists; vm_compute; reflexivity|].
    apply elem_of_cons in Hp as [->|Hp]; [eexists; vm_compute; reflexivity|].
    by apply elem_of_nil in Hp.
  - apply (bool_decide_eq_false_1
             ("2.0.0" ∈ known_versions Sample.flat_c ["c@*"; "c@1.0.5"])).
    vm_compute. reflexivity.
Defined.

(** ** References and the registry *)

Lemma setPermissions_lookup (l : list (string * bool)) : forall ref k,
  NoDup l.*1 ->
  PackageReference.permissions
    (foldl (fun r (kv : string * bool) => PackageReference.setPermission kv.1 kv.2 r)
           ref l) !! k
  = match delete Js.proto_key (list_to_map l : gmap string bool) !! k with
    | Some b => Some b
    | None => PackageReference.permissions ref !! k
    end.
Proof.
  induction l as [|[k1 v1] l IH]; intros ref k Hnd.
  - cbn [foldl]. by rewrite list_to_map_nil, delete_empty, lookup_empty.
  - rewrite fmap_cons in Hnd. apply NoDup_cons in Hnd as [Hk1 Hnd].
    cbn [fst] in Hk1.
    cbn [foldl fst snd]. rewrite list_to_map_cons, (IH _ k Hnd).
    unfold PackageReference.setPermission.
    destruct (String.eqb k1 Js.proto_key) eqn:Hp.
    + apply String.eqb_eq in Hp. subst k1.
      by rewrite delete_insert_eq.
    + apply String.eqb_neq in Hp.
      cbn [PackageReference.permissions PackageReference.set_permissions].
      rewrite delete_insert_ne by done.
      destruct (decide (k1 = k)) as [->|Hne].
      * rewrite !lookup_insert_eq. rewrite lookup_delete_ne by done.
        by rewrite (not_elem_of_list_to_map_1 _ _ Hk1).
      * by rewrite !lookup_insert_ne.
Qed.

Lemma setPermissions_union (perms : gmap string bool) ref :
  PackageReference.permissions
    (foldl (fun r (kv : string * bool) => PackageReference.setPermission kv.1 kv.2 r)
           ref (map_to_list perms))
  = delete Js.proto_key perms ∪ PackageReference.permissions ref.
Proof.
  apply map_eq. intros k.
  rewrite setPermissions_lookup by apply NoDup_fst_map_to_list.
  rewrite list_to_map_to_list, lookup_union.
  destruct (delete Js.proto_key perms !! k),
    (PackageReference.permissions ref !! k); done.
Qed.

(** X23.  [PackageReference.addPattern] takes the permissions of the
    lockfile entry: when the lockfile has an entry for the pattern, the
    call returns, the reference lists the pattern last, and its
    permissions are those of the entry, but for one under the key
    [__proto__], laid over the ones it had: [hasPermission] answers by
    the entry wherever the entry speaks (of another key than
    [__proto__]), and as before where it is silent and for
    [__proto__]. *)
Theorem ref_addPattern_permissions (a : nat) (p : string) (m : Types.Manifest)
    (this : PackageResolver.t) (r : PackageReference.t)
    (e : Lockfile.LockManifest) (lf : Lockfile.t) (perms : gmap string bool) :
  PackageResolver.refs this !! a = Some r ->
  Lockfile.getLocked (PackageResolver.lockfile this) p = Ok (Some e, lf) ->
  Lockfile.permissions e = Some perms ->
  exists this' r',
    PackageResolver.ref_addPattern a p m this = Ok this' /\
    PackageResolver.refs this' !! a = Some r' /\
    PackageReference.patterns r' = (PackageReference.patterns r ++ [p])%list /\
    PackageReference.permissions r'
    = delete Js.proto_key perms ∪ PackageReference.permissions r /\
    (forall k b, perms !! k = Some b -> k <> Js.proto_key ->
       PackageReference.hasPermission k r' = PackageReference.Granted b) /\
    (forall k, perms !! k = None ->
       PackageReference.hasPermission k r' = PackageReference.hasPermission k r) /\
    PackageReference.hasPermission Js.proto_key r'
    = PackageReference.hasPermission Js.proto_key r /\
    PackageResolver.patterns this' !! p = Some m /\
    PackageResolver.lockfile this' = lf.
Proof.
  intros Hr Hlocked Hperms. unfold PackageResolver.ref_addPattern.
  remember (PackageResolver.set_refs
              (alter (fun ref => PackageReference.set_patterns
                        (PackageReference.patterns ref ++ [p])%list ref)
                     a
                     (PackageResolver.refs (PackageResolver.addPattern p m this)))
              (PackageResolver.addPattern p m this)) as this1 eqn:E1.
  assert (PackageResolver.lockfile this1 = PackageResolver.lockfile this) as Hlf1
    by (by subst this1).
  assert (PackageResolver.patterns this1
          = <[p := m]> (PackageResolver.patterns this)) as Hpat1
    by (by subst this1).
  assert (PackageResolver.refs this1 !! a
          = Some (PackageReference.set_patterns
                    (PackageReference.patterns r ++ [p])%list r)) as Hr1.
  { subst this1. simpl. by rewrite lookup_alter_eq, Hr. }
  clear E1.
  unfold PackageResolver.getLocked. rewrite Hlf1, Hlocked.
  cbn [mbind Result_bind option_bind]. rewrite Hperms.
  eexists _, _. split; [reflexivity|].
  cbn [PackageResolver.refs PackageResolver.set_refs PackageResolver.patterns
       PackageResolver.lockfile PackageResolver.set_lockfile].
  rewrite lookup_alter_eq, Hr1. cbn [fmap option_fmap option_map].
  split; [reflexivity|].
  rewrite setPermissions_patterns. split; [done|].
  unfold PackageReference.hasPermission. rewrite setPermissions_union.
  cbn [PackageReference.permissions PackageReference.set_patterns].
  split; [done|].
  split; [|split; [|split; [|split; [by rewrite Hpat1, lookup_insert_eq|done]]]].
  - intros k b Hk Hne.
    rewrite (lookup_union_Some_l _ _ k b); [done|].
    by rewrite lookup_delete_ne.
  - intros k Hk. rewrite lookup_union_r; [done|].
    destruct (decide (Js.proto_key = k)) as [<-|Hne];
      [apply lookup_delete_eq|by rewrite lookup_delete_ne].
  - rewrite lookup_union_r; [done|]. apply lookup_delete_eq.
Qed.

(** The entry grants [install] and, under the key [__proto__], one more:
    the reference takes the first, and answers for [__proto__] as any
    object does. *)
Lemma ref_addPattern_permissions_witness :
  exists this' r',
    PackageResolver.ref_addPattern 0 "a@1.2.0" (Sample.manifest 0 "a" "1.1.0" 0)
      Sample.permitted = Ok this' /\
    PackageResolver.refs this' !! 0 = Some r' /\
    PackageReference.patterns r' = ["a@1.2.0"; "a@1.2.0"] /\
    PackageReference.hasPermission "install" r' = PackageReference.Granted true /\
    PackageReference.hasPermission "__proto__" r'
    = PackageReference.Inherited "__proto__".
Proof.
  destruct (ref_addPattern_permissions 0 "a@1.2.0" (Sample.manifest 0 "a" "1.1.0" 0)
              Sample.permitted (Sample.reference "a" "1.1.0" ["a@1.2.0"])
              (Lockfile.explodeEntry "a@1.2.0" Sample.entry_with_permissions)
              (Lockfile.set_cache
                 (Some (<["a@1.2.0" :=
                          Lockfile.Entry
                            (Lockfile.explodeEntry "a@1.2.0"
                               Sample.entry_with_permissions)]>
                        (list_to_map
                           [("a@1.2.0",
                             Lockfile.Entry Sample.entry_with_permissions)])))
                 (PackageResolver.lockfile Sample.permitted))
              (list_to_map [("install", true); ("__proto__", true)]))
    as (this' & r' & Hrun & Hr' & Hps & _ & Hyes & _ & Hproto & _).
  - vm_compute. reflexivity.
  - vm_compute. reflexivity.
  - vm_compute. reflexivity.
  - exists this', r'. split; [exact Hrun|]. split; [exact Hr'|].
    split; [exact Hps|]. split.
    + apply Hyes; [vm_compute; reflexivity|discriminate].
    + etransitivity; [exact Hproto|]. vm_compute. reflexivity.
Defined.

Lemma prune_fold_indexed l : forall this,
  indexed this ->
  let this' := foldl (fun st x => PackageResolver.removePattern x st) this l in
  indexed this' /\
  (forall q, PackageResolver.patterns this !! q = None ->
             PackageResolver.patterns this' !! q = None) /\
  (forall p, p ∈ l -> PackageResolver.patterns this' !! p = None).
Proof.
  induction l as [|x l IH]; intros this Hi; cbv zeta.
  - split; [done|]. split; [done|]. by intros p ?%elem_of_nil.
  - simpl.
    pose proof (removePattern_indexed x this Hi) as Hi1.
    destruct (IH _ Hi1) as (Hi' & Hnone & Hgone). cbv zeta in *.
    assert (forall q, PackageResolver.patterns this !! q = None ->
              PackageResolver.patterns (PackageResolver.removePattern x this) !! q
              = None) as Hstep.
    { intros q Hq. destruct (decide (q = x)) as [->|Hne].
      - unfold PackageResolver.removePattern. by rewrite Hq.
      - by rewrite removePattern_patterns_ne. }
    split; [done|]. split.
    + intros q Hq. by apply Hnone, Hstep.
    + intros p [->|Hp]%elem_of_cons; [|by apply Hgone].
      apply Hnone.
      destruct (PackageResolver.patterns this !! x) as [pkg|] eqn:Hx.
      * destruct (removePattern_indexed_fields x pkg this Hi Hx)
          as (_ & _ & _ & _ & _ & -> & _). apply lookup_delete_eq.
      * by apply Hstep.
Qed.

(** X24.  [PackageReference.prune] on a sound index unbinds every pattern
    of the reference and nothing else: afterwards no pattern the
    reference lists is bound, every other binding is as before, the index
    is still sound, and the reference itself, with the patterns it lists,
    is untouched. *)
Theorem ref_prune_unbinds (a : nat) (r : PackageReference.t)
    (this : PackageResolver.t) :
  indexed this ->
  PackageResolver.refs this !! a = Some r ->
  let this' := PackageResolver.ref_prune a this in
  (forall p, p ∈ PackageReference.patterns r ->
     PackageResolver.patterns this' !! p = None) /\
  (forall q, q ∉ PackageReference.patterns r ->
     PackageResolver.patterns this' !! q = PackageResolver.patterns this !! q) /\
  indexed this' /\
  PackageResolver.refs this' !! a = Some r /\
  PackageResolver.lockfile this' = PackageResolver.lockfile this.
Proof.
  intros Hi Hr. cbv zeta.
  destruct (ref_prune_frame a this r Hr) as (Hrefs & Hlf & Hframe).
  destruct (prune_fold_indexed (PackageReference.patterns r) this Hi)
    as (Hi' & _ & Hgone).
  assert (PackageResolver.ref_prune a this
          = foldl (fun st x => PackageResolver.removePattern x st) this
              (PackageReference.patterns r)) as Heq.
  { unfold PackageResolver.ref_prune. by rewrite Hr. }
  split; [intros p Hp; rewrite Heq; by apply Hgone|].
  split; [exact Hframe|].
  split; [rewrite Heq; exact Hi'|].
  split; [by rewrite Hrefs|exact Hlf].
Qed.

Lemma ref_prune_unbinds_witness :
  PackageResolver.patterns (PackageResolver.ref_prune 1 Sample.flat_c) !! "c@*"
  = None /\
  PackageResolver.patterns (PackageResolver.ref_prune 1 Sample.flat_c) !! "c@1.0.5"
  = PackageResolver.patterns Sample.flat_c !! "c@1.0.5".
Proof.
  destruct (ref_prune_unbinds 1 (Sample.reference "c" "1.1.0" ["c@*"]) Sample.flat_c)
    as (Hgone & Hkept & _).
  - apply indexedb_indexed. vm_compute. reflexivity.
  - vm_compute. reflexivity.
  - split.
    + apply Hgone. apply list_elem_of_singleton. reflexivity.
    + apply Hkept. intros Hin. apply list_elem_of_singleton in Hin. discriminate Hin.
Defined.

(** ** [updateManifest] *)

Lemma foldl_insert_same {V} (v : V) (l : list string) : forall (m : gmap string V) k,
  foldl (fun ps pattern => <[pattern := v]> ps) m l !! k
  = if bool_decide (k ∈ l) then Some v else m !! k.
Proof.
  induction l as [|x l IH]; intros m k; simpl; [done|].
  rewrite IH. destruct (decide (k = x)) as [->|Hne].
  - rewrite lookup_insert_eq, (bool_decide_eq_true_2 (x ∈ x :: l)) by (by left).
    by case_bool_decide.
  - rewrite lookup_insert_ne by done.
    case_bool_decide as Hin.
    + by rewrite bool_decide_eq_true_2 by (by right).
    + rewrite bool_decide_eq_false_2; [done|].
      intros [?|?]%elem_of_cons; done.
Qed.

(** X25.  [updateManifest] re-binds every pattern of a reference to the
    new manifest, which first inherits the name, the [fresh] flag and the
    prebuilt variants of the manifest bound to the reference's first
    pattern and takes the reference and its remote.  No other binding and
    no list of the index changes; and if the patterns of the reference
    were bound to manifests of that one name, a sound index stays sound.
    A reference without patterns makes the call a type error (unless a
    pattern spelled [undefined] is bound). *)
Theorem updateManifest_spec (a : nat) (newPkg : Types.Manifest)
    (this : PackageResolver.t) (r : PackageReference.t) :
  PackageResolver.refs this !! a = Some r ->
  (forall p0 rest oldPkg,
     PackageReference.patterns r = p0 :: rest ->
     PackageResolver.patterns this !! p0 = Some oldPkg ->
     exists pkg' this',
       PackageResolver.updateManifest a newPkg this = Ok (pkg', this') /\
       Types.name pkg' = Types.name oldPkg /\
       Types.fresh pkg' = Types.fresh oldPkg /\
       Types.prebuiltVariants pkg' = Types.prebuiltVariants oldPkg /\
       Types._reference pkg' = Some a /\
       Types._remote pkg' = Some (PackageReference.remote r) /\
       Types.version pkg' = Types.version newPkg /\
       Types.m_id pkg' = Types.m_id newPkg /\
       (forall p, p ∈ PackageReference.patterns r ->
          PackageResolver.patterns this' !! p = Some pkg') /\
       (forall q, q ∉ PackageReference.patterns r ->
          PackageResolver.patterns this' !! q = PackageResolver.patterns this !! q) /\
       PackageResolver.patternsByPackage this'
       = PackageResolver.patternsByPackage this /\
       PackageResolver.refs this' = PackageResolver.refs this /\
       (indexed this ->
        (forall p, p ∈ PackageReference.patterns r ->
           exists m, PackageResolver.patterns this !! p = Some m /\
                     Types.name m = Types.name oldPkg) ->
        indexed this')) /\
  (PackageReference.patterns r = [] ->
   PackageResolver.patterns this !! "undefined" = None ->
   PackageResolver.updateManifest a newPkg this
   = Throw (TypeError "Cannot read property 'name' of undefined")).
Proof.
  intros Hr. split.
  - intros p0 rest oldPkg Hps Hold. unfold PackageResolver.updateManifest.
    rewrite Hr, Hps, Hold. rewrite <- Hps.
    eexists _, _. split; [reflexivity|]. cbn.
    do 7 (split; [reflexivity|]).
    split.
    { intros p Hp. by rewrite foldl_insert_same, bool_decide_eq_true_2. }
    split.
    { intros q Hq. by rewrite foldl_insert_same, bool_decide_eq_false_2. }
    split; [done|]. split; [done|].
    intros [Hidx Hnd] Hnames. split; [|exact Hnd].
    intros p m. cbn. rewrite foldl_insert_same. case_bool_decide as Hin.
    + intros [= <-]. cbn. destruct (Hnames p Hin) as (m0 & Hm0 & Hn0).
      destruct (Hidx p m0 Hm0) as (l & Hl & Hpl). exists l.
      by rewrite <- Hn0.
    + apply Hidx.
  - intros Hps Hund. unfold PackageResolver.updateManifest.
    by rewrite Hr, Hps, Hund.
Qed.

Lemma updateManifest_spec_witness :
  exists pkg' this',
    PackageResolver.updateManifest 1 (Sample.manifest 7 "x" "1.2.0" 9) Sample.flat_c
    = Ok (pkg', this') /\
    Types.name pkg' = "c" /\
    PackageResolver.patterns this' !! "c@*" = Some pkg'.
Proof.
  destruct (updateManifest_spec 1 (Sample.manifest 7 "x" "1.2.0" 9) Sample.flat_c
              (Sample.reference "c" "1.1.0" ["c@*"])) as [H _].
  - vm_compute. reflexivity.
  - destruct (H "c@*" [] (Sample.manifest 1 "c" "1.1.0" 1))
      as (pkg' & this' & Hrun & Hname & _ & _ & _ & _ & _ & _ & Hall & _).
    + reflexivity.
    + vm_compute. reflexivity.
    + exists pkg', this'. split; [exact Hrun|]. split; [exact Hname|].
      apply Hall. apply list_elem_of_singleton. reflexivity.
Defined.

(** ** Workspaces *)

(** X26.  What [getWorkspaces] returns is eligible: a configuration comes
    back only with workspaces enabled, it has the packages of the
    manifest's [workspaces] field and its [nohoist] list or none; it has
    packages only if the manifest is private, and a [nohoist] list only
    if the manifest is private and no-hoist is enabled. *)
Theorem getWorkspaces_eligibility (this : Config.t) (m0 : Config.Manifest)
    (shouldThrow : bool) (ws' : Config.WorkspacesConfig) (warns : list string) :
  Config.getWorkspaces this (Some m0) shouldThrow = Ok (Some ws', warns) ->
  Config.workspacesEnabled this = true /\
  (exists ws, Config.extractWorkspaces (Some m0) = Some ws /\
     Config.packages ws' = Config.packages ws /\
     (Config.nohoist ws' = Config.nohoist ws \/ Config.nohoist ws' = None)) /\
  (Config.nonEmpty (Config.packages ws') = true -> Config.private m0 = true) /\
  (Config.nonEmpty (Config.nohoist ws') = true ->
   Config.private m0 = true /\ Config.workspacesNohoistEnabled this = true).
Proof.
  unfold Config.getWorkspaces.
  destruct (Config.workspacesEnabled this); cbn [negb]; [|discriminate].
  destruct (Config.extractWorkspaces (Some m0)) as [ws|]; [|discriminate].
  destruct (Config.nonEmpty (Config.packages ws)) eqn:Hp;
    destruct (Config.private m0) eqn:Hpriv; cbn [andb negb];
    destruct (Config.nonEmpty (Config.nohoist ws)) eqn:Hn; cbn [andb negb];
    destruct (Config.workspacesNohoistEnabled this) eqn:He; cbn [andb negb];
    destruct shouldThrow; cbn;
    intros H; try discriminate H; injection H as <- <-; cbn.
  all: rewrite ?Hp, ?Hn.
  all: split; [done|].
  all: split; [exists ws; split; [done|]; split; [done|tauto]|].
  all: split; intros; done.
Qed.

Lemma getWorkspaces_eligibility_witness :
  exists ws' warns,
    Config.getWorkspaces Sample.config (Some Sample.ws_root) true
    = Ok (Some ws', warns) /\
    Config.packages ws' = Some (Config.FArray ["packages/*"]).
Proof.
  exists {| Config.packages := Some (Config.FArray ["packages/*"]); Config.nohoist := None |}, [].
  split; [reflexivity|].
  destruct (getWorkspaces_eligibility Sample.config Sample.ws_root true
              {| Config.packages := Some (Config.FArray ["packages/*"]); Config.nohoist := None |} [])
    as (_ & (ws & Hws & Hp & _) & _).
  - reflexivity.
  - rewrite Hp. injection Hws as <-. reflexivity.
Defined.

(** X27.  Workspaces need a private project.  With workspaces enabled, a
    manifest that lists workspace packages and is not private makes
    [getWorkspaces] fail with a [MessageError] when it is asked to throw,
    and return no configuration, with that same message as a warning,
    when it is not.  A private manifest never makes it fail: it gets its
    configuration back, without the [nohoist] list (and with a warning)
    when the list is not empty and no-hoist is disabled. *)
Theorem getWorkspaces_private_rule (this : Config.t) (m0 : Config.Manifest)
    (ws : Config.WorkspacesConfig) :
  Config.workspacesEnabled this = true ->
  Config.extractWorkspaces (Some m0) = Some ws ->
  (Config.private m0 = false -> Config.nonEmpty (Config.packages ws) = true ->
   Config.getWorkspaces this (Some m0) true
   = Throw (MessageError (Config.lang "workspacesRequirePrivateProjects" "")) /\
   Config.getWorkspaces this (Some m0) false
   = Ok (None, [Config.lang "workspacesRequirePrivateProjects" ""])) /\
  (Config.private m0 = true ->
   forall shouldThrow,
     Config.getWorkspaces this (Some m0) shouldThrow
     = if Config.nonEmpty (Config.nohoist ws) &&
          negb (Config.workspacesNohoistEnabled this)
       then Ok (Some {| Config.packages := Config.packages ws;
                        Config.nohoist := None |},
                [Config.lang "workspacesNohoistDisabled"
                   (default "" (Config.name m0))])
       else Ok (Some ws, [])).
Proof.
  intros Hon Hws. unfold Config.getWorkspaces. rewrite Hon, Hws. simpl. split.
  - intros -> ->. simpl. done.
  - intros -> shouldThrow. rewrite andb_false_r.
    destruct (Config.nonEmpty (Config.nohoist ws)),
             (Config.workspacesNohoistEnabled this), shouldThrow; done.
Qed.

Lemma getWorkspaces_private_rule_witness :
  Config.getWorkspaces Sample.config (Some Sample.ws_root) true
  = Ok (Some {| Config.packages := Some (Config.FArray ["packages/*"]); Config.nohoist := None |},
        []).
Proof.
  destruct (getWorkspaces_private_rule Sample.config Sample.ws_root
              {| Config.packages := Some (Config.FArray ["packages/*"]); Config.nohoist := None |})
    as [_ H].
  - reflexivity.
  - reflexivity.
  - apply (H eq_refl true).
Defined.

(** X28.  [getManifestByPattern] for a pattern [name@range] with a proper
    package name answers with the workspace of that name, and only when
    the version of its manifest satisfies the range (any version for an
    empty range) under the [looseSemver] flag of the config. *)
Theorem getManifestByPattern_spec (sv : Semver.lib) (this : WorkspaceLayout.t)
    (n r : string) (w : Config.Workspace) :
  package_name n ->
  WorkspaceLayout.getManifestByPattern sv this (n ++ "@" ++ r) = Some w <->
  WorkspaceLayout.getWorkspaceManifest this n = Some w /\
  exists v, Config.version (Config.manifest w) = Some v /\
            Semver.satisfies sv v (if Js.truthy r then r else "*")
              (WorkspaceLayout.looseSemver this) = true.
Proof.
  intros Hn. unfold WorkspaceLayout.getManifestByPattern.
  change (n ++ "@" ++ r) with (n ++ String "@"%char r).
  rewrite (normalizePattern_name_at n r Hn).
  assert (NormalizePattern.name
            (if Js.truthy r then NormalizePattern.mk n r true
             else NormalizePattern.mk n "*" false) = n) as ->
    by (by destruct (Js.truthy r)).
  assert (NormalizePattern.range
            (if Js.truthy r then NormalizePattern.mk n r true
             else NormalizePattern.mk n "*" false)
          = if Js.truthy r then r else "*") as ->
    by (by destruct (Js.truthy r)).
  destruct (WorkspaceLayout.getWorkspaceManifest this n) as [w0|];
    [|by split; [|intros [? _]]].
  destruct (Config.version (Config.manifest w0)) as [v|] eqn:Hv.
  - destruct (Semver.satisfies sv v _ _) eqn:Hs; split.
    + intros [= <-]. split; [done|]. by exists v.
    + by intros [[= <-] _].
    + discriminate.
    + intros [[= <-] (v' & Hv' & Hs')]. congruence.
  - split; [discriminate|]. intros [[= <-] (v' & Hv' & _)]. congruence.
Qed.

Lemma getManifestByPattern_spec_witness :
  WorkspaceLayout.getManifestByPattern Instance.semver
    {| WorkspaceLayout.workspaces :=
         {[ "a" := {| Config.loc := "/ws/packages/a";
                      Config.manifest :=
                        Sample.ws_manifest (Some "a") (Some "1.0.0") |} ]};
       WorkspaceLayout.looseSemver := false |}
    "a@1.0.0"
  = Some {| Config.loc := "/ws/packages/a";
            Config.manifest := Sample.ws_manifest (Some "a") (Some "1.0.0") |}.
Proof.
  apply (getManifestByPattern_spec Instance.semver _ "a" "1.0.0").
  - left. split; [discriminate|reflexivity].
  - split; [vm_compute; reflexivity|]. exists "1.0.0". split; reflexivity.
Defined.

(** ** [sortObject] *)

Lemma sortObject_fold {A} (object : JsObject.t A) (l : list string) :
  forall acc,
    NoDup l -> (forall k, k ∈ l -> k ∈ JsObject.keys object) ->
    (forall k, k ∈ l -> k ∉ JsObject.keys acc) ->
    let res := foldl (fun sortedObject item =>
                        match JsObject.get object item with
                        | Some v => JsObject.set item v sortedObject
                        | None => sortedObject
                        end) acc l in
    JsObject.keys res = (JsObject.keys acc ++ l)%list /\
    forall k, JsObject.get res k
              = if bool_decide (k ∈ l) then JsObject.get object k
                else JsObject.get acc k.
Proof.
  induction l as [|x l IH]; intros acc Hnd Hin Hfresh; cbv zeta.
  - simpl. by rewrite app_nil_r.
  - apply NoDup_cons in Hnd as [Hx Hnd]. simpl.
    destruct (proj2 (JsObject_get_Some object x) (Hin x ltac:(by left)))
      as [v Hv].
    rewrite Hv.
    destruct (IH (JsObject.set x v acc) Hnd) as [Hkeys Hget].
    + intros k Hk. apply Hin. by right.
    + intros k Hk. rewrite JsObject_keys_set_fresh by (apply Hfresh; by left).
      intros [?|Hkx%list_elem_of_singleton]%elem_of_app.
      * apply (Hfresh k); [by right|done].
      * subst k. done.
    + cbv zeta in Hkeys, Hget. split.
      * rewrite Hkeys, JsObject_keys_set_fresh by (apply Hfresh; by left).
        by rewrite <- app_assoc.
      * intros k. rewrite Hget. destruct (decide (k = x)) as [->|Hne].
        -- rewrite (bool_decide_eq_true_2 (x ∈ x :: l)) by (by left).
           rewrite bool_decide_eq_false_2 by done.
           by rewrite JsObject_get_set_eq.
        -- rewrite JsObject_get_set_ne by done.
           case_bool_decide as Hk.
           ++ by rewrite bool_decide_eq_true_2 by (by right).
           ++ rewrite bool_decide_eq_false_2; [done|].
              intros [?|?]%elem_of_cons; done.
Qed.

(** Two objects with the same keys, in the same order, and the same
    bindings are one object. *)
Lemma JsObject_ext {A} (o1 : JsObject.t A) : forall o2,
  JsObject.wf o1 ->
  JsObject.keys o1 = JsObject.keys o2 ->
  (forall k, JsObject.get o1 k = JsObject.get o2 k) ->
  o1 = o2.
Proof.
  unfold JsObject.wf, JsObject.keys.
  induction o1 as [|[k v] o1 IH]; intros [|[k' v'] o2] Hwf Hkeys Hget;
    try done; simpl in *.
  injection Hkeys as <- Hkeys. apply NoDup_cons in Hwf as [Hk Hwf].
  pose proof (Hget k) as Hv. rewrite String.eqb_refl in Hv. injection Hv as <-.
  f_equal. apply IH; [done|done|].
  intros q. specialize (Hget q).
  destruct (String.eqb_spec k q) as [Heq|Hne]; [subst q|done].
  assert (JsObject.get o1 k = None) as ->.
  { destruct (JsObject.get o1 k) eqn:E1; [|done].
    destruct Hk. apply (JsObject_get_Some o1 k). by eexists. }
  destruct (JsObject.get o2 k) eqn:E2; [|done].
  destruct Hk. rewrite Hkeys. apply (JsObject_get_Some o2 k). by eexists.
Qed.

Lemma StronglySorted_filter {A} (R : relation A) (P : A -> Prop)
    `{!forall x, Decision (P x)} (l : list A) :
  StronglySorted R l -> StronglySorted R (filter P l).
Proof.
  induction 1 as [|x l Hs IH Hall]; [constructor|].
  rewrite filter_cons. destruct (decide (P x)); [|done].
  constructor; [done|]. apply Forall_forall. intros y Hy.
  apply list_elem_of_filter in Hy as [_ Hy].
  by apply (proj1 (Forall_forall _ _) Hall).
Qed.

(** The keys that [sortObject] makes properties of its result, in the
    order in which it makes them. *)
Lemma sortObject_skips_proto {A} (object : JsObject.t A) (l : list string) :
  forall acc,
    foldl (fun sortedObject item =>
             match JsObject.get object item with
             | Some v => JsObject.assign item v sortedObject
             | None => sortedObject
             end) acc l
    = foldl (fun sortedObject item =>
               match JsObject.get object item with
               | Some v => JsObject.set item v sortedObject
               | None => sortedObject
               end) acc (filter (.≠ Js.proto_key) l).
Proof.
  induction l as [|x l IH]; intros acc; [done|].
  rewrite filter_cons. cbn [foldl]. rewrite IH.
  unfold JsObject.assign at 1.
  destruct (decide (x <> Js.proto_key)) as [Hne|Heq].
  - cbn [foldl]. by rewrite (proj2 (String.eqb_neq _ _) Hne).
  - apply dec_stable in Heq. subst x. rewrite String.eqb_refl.
    by destruct (JsObject.get object Js.proto_key).
Qed.

Lemma sortObject_keys_get {A} (object : JsObject.t A) :
  JsObject.wf object ->
  JsObject.keys (Config.sortObject object)
  = filter (.≠ Js.proto_key) (Misc.sort_default (JsObject.keys object)) /\
  forall k, JsObject.get (Config.sortObject object) k
            = if String.eqb k Js.proto_key then None else JsObject.get object k.
Proof.
  intros Hwf. unfold Config.sortObject. rewrite sortObject_skips_proto.
  destruct (sortObject_fold object
              (filter (.≠ Js.proto_key) (Misc.sort_default (JsObject.keys object)))
              [])
    as [Hkeys Hget].
  - apply NoDup_filter. by rewrite sort_default_perm.
  - intros k [_ Hk]%list_elem_of_filter. by rewrite sort_default_perm in Hk.
  - by intros k _ ?%elem_of_nil.
  - cbv zeta in Hkeys, Hget. split; [done|].
    intros k. rewrite Hget. destruct (String.eqb_spec k Js.proto_key) as [->|Hne].
    + rewrite bool_decide_eq_false_2; [done|].
      by intros [? _]%list_elem_of_filter.
    + case_bool_decide as Hk; [done|]. simpl.
      destruct (JsObject.get object k) eqn:E; [|done].
      destruct Hk. apply list_elem_of_filter. split; [done|].
      rewrite sort_default_perm. apply JsObject_get_Some. by eexists.
Qed.

(** X29.  [sortObject] is a canonical form.  For an object without
    integer keys, the result has the bindings of the argument but for one
    under the key [__proto__], which is no key of the result; its keys
    are in the order of their UTF-16 code units, which is the order of
    their bytes when no key has a character at or beyond [U+E000]; two
    such objects with the same bindings (but for [__proto__]), whatever
    the order of their keys, are sorted to one and the same object; and
    sorting twice is sorting once. *)
Theorem sortObject_canonical {A} (object : JsObject.t A) :
  plain_object object ->
  plain_object (Config.sortObject object) /\
  (forall k, JsObject.get (Config.sortObject object) k
             = if String.eqb k Js.proto_key then None else JsObject.get object k) /\
  (forall k, k ∈ JsObject.keys (Config.sortObject object) <->
             k ∈ JsObject.keys object /\ k <> Js.proto_key) /\
  Sorted Misc.code_unit_le (JsObject.keys (Config.sortObject object)) /\
  (Forall (fun k => below_E000 k = true) (JsObject.keys object) ->
   Sorted str_le (JsObject.keys (Config.sortObject object))) /\
  (forall other, plain_object other ->
     (forall k, k <> Js.proto_key -> JsObject.get object k = JsObject.get other k) ->
     Config.sortObject object = Config.sortObject other) /\
  Config.sortObject (Config.sortObject object) = Config.sortObject object.
Proof.
  intros [Hwf Hplain]. destruct (sortObject_keys_get object Hwf) as [Hkeys Hget].
  assert (forall k, k ∈ JsObject.keys (Config.sortObject object) <->
                    k ∈ JsObject.keys object /\ k <> Js.proto_key) as Hin.
  { intros k. rewrite Hkeys, list_elem_of_filter, sort_default_perm. tauto. }
  assert (JsObject.wf (Config.sortObject object)) as Hwf'.
  { unfold JsObject.wf. rewrite Hkeys. apply NoDup_filter.
    by rewrite sort_default_perm. }
  assert (Sorted Misc.code_unit_le (JsObject.keys (Config.sortObject object)))
    as Hsorted.
  { rewrite Hkeys. apply StronglySorted_Sorted, StronglySorted_filter.
    apply Sorted_StronglySorted; [apply _|apply sort_default_sorted]. }
  assert (forall other, JsObject.wf other ->
     (forall k, k <> Js.proto_key -> JsObject.get object k = JsObject.get other k) ->
     Config.sortObject object = Config.sortObject other) as Hcanon.
  { intros other Hwfo Hsame.
    destruct (sortObject_keys_get other Hwfo) as [Hkeys2 Hget2].
    apply JsObject_ext; [done| |].
    - rewrite Hkeys, Hkeys2. apply (Sorted_unique Misc.code_unit_le).
      + by rewrite <- Hkeys.
      + apply StronglySorted_Sorted, StronglySorted_filter.
        apply Sorted_StronglySorted; [apply _|apply sort_default_sorted].
      + apply NoDup_Permutation.
        * rewrite <- Hkeys. exact Hwf'.
        * apply NoDup_filter. by rewrite sort_default_perm.
        * intros k. rewrite !list_elem_of_filter, !sort_default_perm.
          rewrite <- !JsObject_get_Some.
          split; intros [Hne Hk]; (split; [done|]);
            [rewrite <- Hsame by done|rewrite Hsame by done]; done.
    - intros k. rewrite Hget, Hget2.
      destruct (String.eqb_spec k Js.proto_key); [done|by apply Hsame]. }
  split.
  { split; [done|]. intros k [Hk _]%Hin. by apply Hplain. }
  split; [done|]. split; [done|]. split; [done|]. split.
  { intros Hlow. apply Sorted_code_unit_str_le; [|done].
    apply Forall_forall. intros k [Hk _]%Hin.
    by apply (proj1 (Forall_forall _ _) Hlow). }
  split; [intros other [Hwfo _]; by apply Hcanon|].
  symmetry. apply Hcanon; [done|]. intros k Hne. rewrite Hget.
  by rewrite (proj2 (String.eqb_neq _ _) Hne).
Qed.

(** Two objects with the bindings of one, inserted in either order; and
    an object with a property [__proto__] of its own, which the sorted
    object has not. *)
Lemma sortObject_canonical_witness :
  Config.sortObject Sample.c_tilde_first = Config.sortObject Sample.c_caret_first /\
  JsObject.get (Config.sortObject [("b", 2); ("__proto__", 0); ("a", 1)]) "__proto__"
  = None /\
  JsObject.keys (Config.sortObject [("b", 2); ("__proto__", 0); ("a", 1)])
  = ["a"; "b"].
Proof.
  assert (forall o : JsObject.t Types.Manifest,
            JsObject.keys o ≡ₚ ["c@~1.0.1"; "c@^1.0.0"] -> plain_object o) as Hplain.
  { intros o Hk. split.
    - unfold JsObject.wf. rewrite Hk.
      apply (bool_decide_eq_true_1 (NoDup ["c@~1.0.1"; "c@^1.0.0"])).
      vm_compute. reflexivity.
    - intros k. rewrite Hk. intros Hin.
      apply elem_of_cons in Hin as [->|Hin]; [reflexivity|].
      apply list_elem_of_singleton in Hin as ->. reflexivity. }
  split; [|split].
  - destruct (sortObject_canonical Sample.c_tilde_first)
      as (_ & _ & _ & _ & _ & H & _).
    + apply Hplain. reflexivity.
    + apply H.
      * apply Hplain. apply perm_swap.
      * intros k _. unfold Sample.c_tilde_first, Sample.c_caret_first.
        cbn [JsObject.get].
        destruct (String.eqb "c@~1.0.1" k), (String.eqb "c@^1.0.0" k); reflexivity.
  - destruct (sortObject_canonical [("b", 2); ("__proto__", 0); ("a", 1)])
      as (_ & H & _).
    + split.
      * apply (bool_decide_eq_true_1 (NoDup ["b"; "__proto__"; "a"])).
        vm_compute. reflexivity.
      * intros k Hin.
        apply elem_of_cons in Hin as [->|Hin]; [reflexivity|].
        apply elem_of_cons in Hin as [->|Hin]; [reflexivity|].
        apply list_elem_of_singleton in Hin as ->. reflexivity.
    + apply (H "__proto__").
  - vm_compute. reflexivity.
Defined.
